(** * ocrd_segment: address-layout reconciliation

    A shallow embedding of [ocrd_segment/classify_address_layout.py]:
    the clipping engine ([polygon_for_parent]), the polygon repair
    ([make_valid]), the reading-order dictionary
    ([page_get_reading_order]) and the per-page driver loop of
    [ClassifyAddressLayout.process].

    Python exceptions are an error monad ([result]); floats are exact
    rationals ([Q]); the operations of shapely, OpenCV and ocrd_utils,
    which are external collaborators of the module, are the fields of the
    interfaces [Shapely], [OpenCV] and [OcrdUtils]. *)

From Stdlib Require Import QArith Qround DecimalString DecimalNat.
From stdpp Require Import base option list strings gmap numbers sorting.

Set Warnings "-register-all,-notation-incompatible-prefix".

Open Scope string_scope.
Open Scope list_scope.

(** Python's [+] on strings. *)
Infix "+:+" := String.append (at level 60, right associativity) : string_scope.

(** ** Exceptions *)

Inductive exn : Type :=
| NameError (name : string)
| ValueError (msg : string)
| IndexError
| ZeroDivisionError
| AttributeError (attr : string)
| TopologicalError
| PyException (msg : string).

Inductive result (A : Type) : Type :=
| Ok (a : A)
| Raise (e : exn).
Arguments Ok {A} a.
Arguments Raise {A} e.

Definition bind {A B} (m : result A) (f : A -> result B) : result B :=
  match m with
  | Ok a => f a
  | Raise e => Raise e
  end.

Notation "x <- m ;; k" := (bind m (fun x => k))
  (at level 100, m at next level, right associativity).

(** Monadic left fold: a [for] loop whose body may raise. *)
Fixpoint foldM {A S} (f : S -> A -> result S) (l : list A) (s : S) : result S :=
  match l with
  | [] => Ok s
  | x :: l' => s' <- f s x;; foldM f l' s'
  end.

(** Short-circuit [or] and [and] over operands that may raise. *)
Definition orM (a b : result bool) : result bool :=
  x <- a;; if x : bool then Ok true else b.
Definition andM (a b : result bool) : result bool :=
  x <- a;; if x : bool then b else Ok false.

Definition is_Ok {A} (r : result A) : bool :=
  match r with Ok _ => true | Raise _ => false end.

(** ** Name resolution

    The names bound at module level (imports, assignments, [def] and
    [class] statements of classify_address_layout.py, top to bottom) and
    the builtins the module uses.  A name that a function body never
    assigns is looked up here when the expression is evaluated. *)

Definition module_globals : list string :=
  [ "absolute_import"; "os"; "np"; "Polygon"; "asPolygon"; "prep";
    "unary_union"; "cv2"; "Image"; "ImageDraw"; "model"; "Config"; "tf";
    "getLogger"; "make_file_id"; "assert_file_grp_cardinality";
    "coordinates_of_segment"; "coordinates_for_segment";
    "polygon_from_bbox"; "points_from_polygon"; "MIMETYPE_PAGE";
    "to_xml"; "TextRegionType"; "PageType"; "CoordsType";
    "RegionRefType"; "RegionRefIndexedType"; "OrderedGroupType";
    "OrderedGroupIndexedType"; "UnorderedGroupType";
    "UnorderedGroupIndexedType"; "TextEquivType"; "page_from_file";
    "Processor"; "OCRD_TOOL"; "TOOL"; "AddressConfig";
    "ClassifyAddressLayout"; "polygon_for_parent"; "make_valid";
    "page_get_reading_order" ].

Definition builtins : list string :=
  [ "Exception"; "dict"; "enumerate"; "hasattr"; "int"; "isinstance";
    "len"; "list"; "map"; "max"; "min"; "range"; "round"; "str"; "super";
    "tuple"; "zip"; "None"; "True"; "False" ].

(** [load_global x]: evaluating the free name [x]. *)
Definition load_global (name : string) : result unit :=
  if bool_decide (name ∈ module_globals ++ builtins) then Ok tt
  else Raise (NameError name).

(** ** Numbers *)

Definition Qltb (x y : Q) : bool := negb (Qle_bool y x).

(** Python's [int(x)] on a float: truncation towards zero. *)
Definition py_int (x : Q) : Z := Z.quot (Qnum x) (Zpos (Qden x)).

(** [range(lo, hi)] *)
Definition py_range (lo hi : Z) : list Z :=
  map (fun k => (lo + Z.of_nat k)%Z) (seq 0 (Z.to_nat (hi - lo))).

(** [np.round]: to the nearest integer, halves to the even one. *)
Definition np_round (x : Q) : Z :=
  let f := Qfloor x in
  let r := (x - inject_Z f)%Q in
  match (r ?= 1 # 2)%Q with
  | Lt => f
  | Gt => (f + 1)%Z
  | Eq => if Z.even f then f else (f + 1)%Z
  end.

(** ** Geometry values *)

Definition point : Type := Q * Q.

Definition point_eqb (a b : point) : bool :=
  Qeq_bool (fst a) (fst b) && Qeq_bool (snd a) (snd b).

(** A shapely [Polygon] as this module builds it: a shell and no holes;
    [exterior_coords] is [polygon.exterior.coords], the closed
    coordinate sequence. *)
Record Polygon : Type := mkPolygon { exterior_coords : list point }.

Inductive Part : Type :=
| PartPolygon (p : Polygon)
| PartLineString (coords : list point)
| PartPoint (c : point).

(** What an overlay operation returns. *)
Inductive Geometry : Type :=
| Single (g : Part)
| MultiPolygon (ps : list Polygon)
| MultiLower (gs : list Part)
| GeometryCollection (gs : list Part).

Definition geom_type (g : Geometry) : string :=
  match g with
  | Single (PartPolygon _) => "Polygon"
  | Single (PartLineString _) => "LineString"
  | Single (PartPoint _) => "Point"
  | MultiPolygon _ => "MultiPolygon"
  | MultiLower _ => "MultiLineString"
  | GeometryCollection _ => "GeometryCollection"
  end.

(** [Polygon(coords)]: no coordinates give the empty polygon, one or two
    are refused, and the ring is closed when it has three coordinates or
    its ends differ. *)
Definition close_ring (coords : list point) : list point :=
  match coords with
  | c0 :: _ =>
      if (length coords =? 3)%nat || negb (point_eqb c0 (List.last coords c0))
      then coords ++ [c0] else coords
  | [] => coords
  end.

Definition Polygon_of (coords : list point) : result Polygon :=
  match coords with
  | [] => Ok (mkPolygon [])
  | _ => if (length coords <? 3)%nat
         then Raise (ValueError "A LinearRing must have at least 3 coordinate tuples")
         else Ok (mkPolygon (close_ring coords))
  end.

(** [coords[:-1]] *)
Definition drop_last {A} (l : list A) : list A := removelast l.

(** [coords[-split:] + coords[:-split]] *)
Definition rotate_coords {A} (split : nat) (l : list A) : list A :=
  skipn (length l - split) l ++ firstn (length l - split) l.

(** ** The shapely interface *)

Class Shapely : Type := {
  is_valid : Polygon -> bool;
  area : Polygon -> Q;
  simplify : Polygon -> Q -> Polygon;
  within : Polygon -> Polygon -> result bool;
  intersection : Polygon -> Polygon -> result Geometry;
  unary_union : list Part -> result Geometry;
  (** the hull of a [MultiPolygon] *)
  convex_hull : list Polygon -> Polygon;
  (** [None] is the infinite clearance of a geometry without one. *)
  minimum_clearance : Polygon -> option Q;
  buffer : Polygon -> Z -> Polygon;
  intersects : Polygon -> Polygon -> result bool;
  almost_equals : Polygon -> Polygon -> result bool;
  crosses : Polygon -> Polygon -> result bool;
  overlaps : Polygon -> Polygon -> result bool;
  union : Polygon -> Polygon -> result Geometry
}.

(** ** The PAGE document model (ocrd_models) *)

Record CoordsType : Type := mkCoords {
  points : string;
  conf : option Q
}.

Record TextEquivType : Type := mkTextEquiv { Unicode : string }.

Record TextLineType : Type := mkTextLine {
  line_id : string;
  line_custom : option string;
  line_Coords : CoordsType;
  line_TextEquiv : list TextEquivType
}.

(** Objects of the region tree are named by their address. *)
Definition addr : Type := nat.

Inductive parent_ref : Type :=
| Unparented
| OfPage
| OfRegion (a : addr).

Record TextRegionType : Type := mkTextRegion {
  region_id : string;
  region_Coords : CoordsType;
  region_type : string;
  region_custom : option string;
  region_TextLine : list TextLineType;
  region_TextEquiv : list TextEquivType;
  region_TextRegion : list addr;
  parent_object_ : parent_ref
}.

(** ** Reading order (lines 191-197 and 431-450) *)

(** A [ReadingOrder] element: a region reference or a group, indexed or
    not, at its address, with its [regionRef] as parsed.  The children of
    a group are listed as the source concatenates them: references, then
    ordered groups, then unordered groups. *)
Inductive ROElem : Type :=
| RegionRef (indexed : bool) (a : addr) (regionRef : string)
| OrderedGroup (indexed : bool) (a : addr) (regionRef : string) (children : list ROElem)
| UnorderedGroup (indexed : bool) (a : addr) (regionRef : string) (children : list ROElem).

Definition ro_addr (e : ROElem) : addr :=
  match e with
  | RegionRef _ a _ | OrderedGroup _ a _ _ | UnorderedGroup _ a _ _ => a
  end.

Definition get_regionRef (e : ROElem) : string :=
  match e with
  | RegionRef _ _ r | OrderedGroup _ _ r _ | UnorderedGroup _ _ r _ => r
  end.

Fixpoint page_get_reading_order (ro : gmap string addr) (rogroup : ROElem)
  : gmap string addr :=
  let walk :=
    fix walk (regionrefs : list ROElem) (ro : gmap string addr) : gmap string addr :=
      match regionrefs with
      | [] => ro
      | elem :: rest =>
          let ro := <[get_regionRef elem := ro_addr elem]> ro in
          let ro := match elem with
                    | RegionRef _ _ _ => ro
                    | _ => page_get_reading_order ro elem
                    end in
          walk rest ro
      end in
  match rogroup with
  | RegionRef _ _ _ => ro
  | OrderedGroup _ _ _ children => walk children ro
  | UnorderedGroup _ _ _ children => walk children ro
  end.

(** The [regionRef] attribute of every element below (and including)
    [e], by address: the mutable part of the reading-order tree. *)
Fixpoint ro_attributes (store : gmap addr string) (e : ROElem) : gmap addr string :=
  let store := <[ro_addr e := get_regionRef e]> store in
  match e with
  | RegionRef _ _ _ => store
  | OrderedGroup _ _ _ children => fold_left ro_attributes children store
  | UnorderedGroup _ _ _ children => fold_left ro_attributes children store
  end.

Record BorderType : Type := mkBorder { border_Coords : CoordsType }.

Record PageType : Type := mkPage {
  imageWidth : Z;
  imageHeight : Z;
  Border : option BorderType;
  (** the root group of the [ReadingOrder], if any *)
  ReadingOrder : option ROElem;
  page_TextRegion : list addr
}.

(** The second argument of [polygon_for_parent]. *)
Inductive Parent : Type :=
| ParentPage (page : PageType)
| ParentRegion (region : TextRegionType).

(** ** The ocrd_utils interface, for one page image and its transform *)

Class OcrdUtils : Type := {
  polygon_from_points : string -> list point;
  points_from_polygon : list point -> string;
  coordinates_of_segment : CoordsType -> list point;
  coordinates_for_segment : list point -> list point
}.

Section Geometry.
Context `{K : Shapely} `{U : OcrdUtils}.

Definition part_area (g : Part) : Q :=
  match g with
  | PartPolygon p => area p
  | _ => 0
  end.

Definition sum_Q (l : list Q) : Q := foldr Qplus 0%Q l.

Definition geom_area (g : Geometry) : Q :=
  match g with
  | Single p => part_area p
  | MultiPolygon ps => sum_Q (map area ps)
  | MultiLower _ => 0
  | GeometryCollection gs => sum_Q (map part_area gs)
  end.

Definition part_is_empty (g : Part) : bool :=
  match g with
  | PartPolygon p => bool_decide (length (exterior_coords p) = 0%nat)
  | PartLineString c => bool_decide (length c = 0%nat)
  | PartPoint _ => false
  end.

Definition geom_is_empty (g : Geometry) : bool :=
  match g with
  | Single p => part_is_empty p
  | MultiPolygon ps => forallb (fun p => part_is_empty (PartPolygon p)) ps
  | MultiLower gs => forallb part_is_empty gs
  | GeometryCollection gs => forallb part_is_empty gs
  end.

(** ** [make_valid] *)

(** The first loop: [for split in range(1, len(polygon.exterior.coords)-1)]. *)
Fixpoint make_valid_rotate (splits : list Z) (polygon : Polygon) : result Polygon :=
  match splits with
  | [] => Ok polygon
  | split :: rest =>
      if is_valid polygon || is_valid (simplify polygon (area polygon))
      then Ok polygon
      else
        polygon' <- Polygon_of (rotate_coords (Z.to_nat split) (exterior_coords polygon));;
        make_valid_rotate rest polygon'
  end.

(** The second loop: [for tolerance in range(1, int(polygon.area))]. *)
Fixpoint make_valid_simplify (tolerances : list Z) (polygon : Polygon) : Polygon :=
  match tolerances with
  | [] => polygon
  | tolerance :: rest =>
      if is_valid polygon then polygon
      else make_valid_simplify rest (simplify polygon (inject_Z tolerance))
  end.

Definition make_valid (polygon : Polygon) : result Polygon :=
  polygon <- make_valid_rotate
               (py_range 1 (Z.of_nat (length (exterior_coords polygon)) - 1)) polygon;;
  Ok (make_valid_simplify (py_range 1 (py_int (area polygon))) polygon).

(** ** [polygon_for_parent] *)

(** [[[0,0], [0,h], [w,h], [w,0]]] *)
Definition canvas_of (w h : Z) : list point :=
  [ (0, 0); (0, inject_Z h); (inject_Z w, inject_Z h); (inject_Z w, 0) ]%Q.

Definition canvas (page : PageType) : list point :=
  canvas_of (imageWidth page) (imageHeight page).

Definition parent_polygon (parent : Parent) : result Polygon :=
  match parent with
  | ParentPage page =>
      match Border page with
      | Some border =>
          _ <- load_global "polygon_from_points";;
          Polygon_of (polygon_from_points (points (border_Coords border)))
      | None => Polygon_of (canvas page)
      end
  | ParentRegion region =>
      _ <- load_global "polygon_from_points";;
      Polygon_of (polygon_from_points (points (region_Coords region)))
  end.

Definition positive_area (g : Part) : bool := Qltb 0 (part_area g).

Definition round_coords (coords : list point) : list point :=
  map (fun c => (inject_Z (np_round (fst c)), inject_Z (np_round (snd c)))) coords.

Definition clearance_below_1 (p : Polygon) : bool :=
  match minimum_clearance p with
  | Some c => Qltb c 1
  | None => false
  end.

(** The post-processing of a non-empty intersection. *)
Definition clip_postprocess (interp : Geometry) : result (option (list point)) :=
  interp <- match interp with
            | GeometryCollection geoms =>
                unary_union (filter (fun g => positive_area g = true) geoms)
            | _ => Ok interp
            end;;
  let interp := match interp with
                | MultiPolygon ps => Single (PartPolygon (convex_hull ps))
                | _ => interp
                end in
  match interp with
  | Single (PartPolygon p) =>
      p <- (if clearance_below_1 p
            then (p' <- Polygon_of (round_coords (exterior_coords p));; make_valid p')
            else Ok p);;
      Ok (Some (drop_last (exterior_coords p)))
  | _ => Raise (AttributeError "exterior")
  end.

Definition polygon_for_parent (polygon : list point) (parent : Parent)
  : result (option (list point)) :=
  childp <- Polygon_of polygon;;
  parentp <- parent_polygon parent;;
  childp <- make_valid childp;;
  parentp <- make_valid parentp;;
  inside <- within childp parentp;;
  if inside then Ok (Some (drop_last (exterior_coords childp)))
  else
    interp <- intersection childp parentp;;
    if geom_is_empty interp || Qeq_bool (geom_area interp) 0
    then Ok None
    else clip_postprocess interp.

End Geometry.

(** ** The detector's output and numpy rasters *)

Definition Raster (A : Type) : Type := list (list A).

(** One instance of [preds]: [preds['class_ids'][i]], [preds['scores'][i]],
    [preds['rois'][i]] and [preds['masks'][:,:,i]]. *)
Record Instance : Type := mkInstance {
  class_id : nat;
  score : Q;
  roi : list Q;
  mask : Raster bool
}.

Definition raster_zip {A B C} (f : A -> B -> C) (a : Raster A) (b : Raster B) : Raster C :=
  zip_with (zip_with f) a b.

Definition count_nonzero (m : Raster bool) : Z :=
  Z.of_nat (length (filter (fun b => b = true) (concat m))).

(** [a / b] on Python integers. *)
Definition py_div (a b : Z) : result Q :=
  if (b =? 0)%Z then Raise ZeroDivisionError else Ok (inject_Z a / inject_Z b)%Q.

(** [np.count_nonzero(imask * jmask) / np.count_nonzero(imask + jmask) > 0.5] *)
Definition overlapping (imask jmask : Raster bool) : result bool :=
  iou <- py_div (count_nonzero (raster_zip andb imask jmask))
                (count_nonzero (raster_zip orb imask jmask));;
  Ok (Qltb (1 # 2) iou).

(** ** Suppression pass (lines 225-231) *)

(** [i if preds['scores'][i] < preds['scores'][j] else j] *)
Definition loser (preds : list Instance) (i j : nat) : result nat :=
  match preds !! i, preds !! j with
  | Some pi, Some pj => Ok (if Qltb (score pi) (score pj) then i else j)
  | _, _ => Raise IndexError
  end.

Definition masks_overlap (preds : list Instance) (i j : nat) : result bool :=
  match preds !! i, preds !! j with
  | Some pi, Some pj => overlapping (mask pi) (mask pj)
  | _, _ => Raise IndexError
  end.

Definition suppress_pair (preds : list Instance) (i : nat) (worse : list nat) (j : nat)
  : result (list nat) :=
  o <- masks_overlap preds i j;;
  if o : bool then (k <- loser preds i j;; Ok (worse ++ [k])) else Ok worse.

Definition suppress_row (preds : list Instance) (worse : list nat) (i : nat)
  : result (list nat) :=
  foldM (suppress_pair preds i) (seq (S i) (length preds - S i)) worse.

Definition suppression (preds : list Instance) : result (list nat) :=
  foldM (suppress_row preds) (seq 0 (length preds)) [].

(** ** Best-score tracking (lines 232-242) *)

(** [best[cat]] on the four-element array *)
Definition best_at (best : list Q) (cat : nat) : result Q :=
  match best !! cat with
  | Some b => Ok b
  | None => Raise IndexError
  end.

Definition track_best (worse : list nat) (best : list Q) (entry : nat * Instance)
  : list Q :=
  let '(i, inst) := entry in
  if bool_decide (i ∈ worse) then best
  else
    let cat := class_id inst in
    if negb (bool_decide (cat ∈ [1; 2]%nat)) then best
    else
      match best !! cat with
      | Some b => if Qltb b (score inst) then <[cat := score inst]> best else best
      | None => best
      end.

Definition best_scores (preds : list Instance) (worse : list nat) : list Q :=
  fold_left (track_best worse) (imap (fun i inst => (i, inst)) preds)
            [0; 0; 0; 0]%Q.

(** ** Per-instance decision (lines 246-258) *)

Definition categories : list string :=
  [ ""; "address-rcpt"; "address-sndr"; "address-contact" ].

(** The category an instance is processed under: [None] for an instance of
    [worse], which is skipped. *)
Definition instance_category (worse : list nat) (best : list Q) (i : nat) (inst : Instance)
  : result (option nat) :=
  if bool_decide (i ∈ worse) then Ok None
  else
    let cat := class_id inst in
    if (cat =? 0)%nat then Raise (PyException "detected region for background class")
    else
      b <- best_at best cat;;
      Ok (Some (if Qltb (score inst) b then 3%nat else cat)).

(** Whether line 255 logs the demotion. *)
Definition degrading (best : list Q) (inst : Instance) : bool :=
  match best !! class_id inst with
  | Some b => Qltb (score inst) b
  | None => false
  end.

Definition category_name (cat : nat) : result string :=
  match categories !! cat with
  | Some name => Ok name
  | None => Raise IndexError
  end.

(** ** Mask post-processing (lines 259-289) *)

Class OpenCV : Type := {
  (** [cv2.boundingRect]: left, top, width, height *)
  boundingRect : Raster bool -> Z * Z * Z * Z;
  (** [cv2.dilate(mask, np.ones((scale,scale))) > 0] *)
  dilate : Raster bool -> Z -> Raster bool;
  (** [cv2.findContours(mask, RETR_EXTERNAL, CHAIN_APPROX_SIMPLE)], each
      contour as its [[:,0,:]] point list *)
  findContours : Raster bool -> list (list point)
}.

(** The page image the detector saw, and the label image of its
    connected components. *)
Record PageImage : Type := mkPageImage {
  width : Z;
  height : Z;
  components : Raster Z
}.

(** [np.unique] *)
Definition np_unique (l : list Z) : list Z := merge_sort Z.le (remove_dups l).

(** [mask[top:bottom, left:right] = v] *)
Definition fill_rect (m : Raster bool) (top bottom left right : Z) (v : bool) : Raster bool :=
  imap (fun r row =>
          if bool_decide (top <= Z.of_nat r < bottom)%Z
          then imap (fun c x => if bool_decide (left <= Z.of_nat c < right)%Z then v else x) row
          else row) m.

(** [mask.max()] *)
Definition raster_max (m : Raster bool) : bool := existsb (fun b => b) (concat m).

(** [scale = int(np.sqrt(area)//10); scale = scale + (scale+1)%2] *)
Definition mask_scale (m : Raster bool) : Z :=
  let scale := (Z.sqrt (count_nonzero m) / 10)%Z in
  (scale + (scale + 1) mod 2)%Z.

Section MaskToPolygon.
Context `{CV : OpenCV}.

Definition fill_component (image : PageImage) (m : Raster bool) (label : Z) : Raster bool :=
  if (label =? 0)%Z then m
  else
    let '(x0, y0, w, h) :=
      boundingRect (map (map (fun c => (c =? label)%Z)) (components image)) in
    let x1 := (x0 + w)%Z in
    let y1 := (y0 + h)%Z in
    let x0 := Z.max 0 (x0 - 4) in
    let y0 := Z.max 0 (y0 - 4) in
    let x1 := Z.min (width image) (x1 + 4) in
    let y1 := Z.min (height image) (y1 + 4) in
    fill_rect m y0 y1 x0 x1 (raster_max m).

Definition fill_components (image : PageImage) (m : Raster bool) : Raster bool :=
  let complabels :=
    np_unique (concat (raster_zip (fun b c => if b : bool then c else 0%Z)
                                  m (components image))) in
  fold_left (fill_component image) complabels m.

(** [for _ in range(10)]: dilate until exactly one outer contour is left. *)
Fixpoint dilate_loop (rounds : nat) (scale : Z) (m : Raster bool)
         (contours : list (list point)) : list (list point) :=
  match rounds with
  | O => contours
  | S rounds' =>
      if (length contours =? 1)%nat then contours
      else
        let m := dilate m scale in
        dilate_loop rounds' scale m (findContours m)
  end.

(** [contours[0][:,0,:]] after the loop *)
Definition mask_contour (image : PageImage) (m : Raster bool) : result (list point) :=
  let scale := mask_scale m in
  let m := fill_components image m in
  match dilate_loop 10 scale m [[]; []] with
  | contour :: _ => Ok contour
  | [] => Raise IndexError
  end.

End MaskToPolygon.

(** ** String formatting *)

(** ['%02d' % n] *)
Definition fmt_02d (n : nat) : string :=
  let s := NilEmpty.string_of_uint (Nat.to_uint n) in
  if (String.length s <? 2)%nat then "0" +:+ s else s.

(** ['addressregion%02d' % (i+1)] *)
Definition address_region_id (i : nat) : string := "addressregion" +:+ fmt_02d (i + 1).

(** [s.startswith(p)] *)
Definition startswith (s p : string) : bool := String.prefix p s.

(** ['\n'.join(parts)] *)
Definition newline : string := String (Ascii.ascii_of_nat 10) EmptyString.

Fixpoint join_lines (parts : list string) : string :=
  match parts with
  | [] => ""
  | [x] => x
  | x :: rest => x +:+ newline +:+ join_lines rest
  end.

(** ** The state of one page's pass *)

Record State : Type := mkState {
  heap : gmap addr TextRegionType;
  page : PageType;
  ro_regionRef : gmap addr string;
  reading_order : gmap string addr;
  oldregions : list addr;
  log : list (string * string)
}.

Definition LOG (level message : string) (st : State) : State :=
  mkState (heap st) (page st) (ro_regionRef st) (reading_order st) (oldregions st)
          (log st ++ [(level, message)]).

Definition set_heap (h : gmap addr TextRegionType) (st : State) : State :=
  mkState h (page st) (ro_regionRef st) (reading_order st) (oldregions st) (log st).

Definition set_page (p : PageType) (st : State) : State :=
  mkState (heap st) p (ro_regionRef st) (reading_order st) (oldregions st) (log st).

Definition set_reading_order (refs : gmap addr string) (ro : gmap string addr)
           (st : State) : State :=
  mkState (heap st) (page st) refs ro (oldregions st) (log st).

Definition set_oldregions (old : list addr) (st : State) : State :=
  mkState (heap st) (page st) (ro_regionRef st) (reading_order st) old (log st).

(** [l.remove(x)] *)
Fixpoint list_remove (x : addr) (l : list addr) : result (list addr) :=
  match l with
  | [] => Raise (ValueError "list.remove(x): x not in list")
  | y :: l' => if (x =? y)%nat then Ok l' else (r <- list_remove x l';; Ok (y :: r))
  end.

Definition set_page_TextRegion (l : list addr) (p : PageType) : PageType :=
  mkPage (imageWidth p) (imageHeight p) (Border p) (ReadingOrder p) l.

Definition set_region_TextRegion (l : list addr) (r : TextRegionType) : TextRegionType :=
  mkTextRegion (region_id r) (region_Coords r) (region_type r) (region_custom r)
               (region_TextLine r) (region_TextEquiv r) l (parent_object_ r).

Definition add_TextLine (line : TextLineType) (r : TextRegionType) : TextRegionType :=
  mkTextRegion (region_id r) (region_Coords r) (region_type r) (region_custom r)
               (region_TextLine r ++ [line]) (region_TextEquiv r)
               (region_TextRegion r) (parent_object_ r).

Definition set_points (pts : string) (r : TextRegionType) : TextRegionType :=
  mkTextRegion (region_id r) (mkCoords pts (conf (region_Coords r)))
               (region_type r) (region_custom r)
               (region_TextLine r) (region_TextEquiv r)
               (region_TextRegion r) (parent_object_ r).

Definition set_TextLine (l : list TextLineType) (r : TextRegionType) : TextRegionType :=
  mkTextRegion (region_id r) (region_Coords r) (region_type r) (region_custom r)
               l (region_TextEquiv r) (region_TextRegion r) (parent_object_ r).

Definition set_TextEquiv (t : list TextEquivType) (r : TextRegionType) : TextRegionType :=
  mkTextRegion (region_id r) (region_Coords r) (region_type r) (region_custom r)
               (region_TextLine r) t (region_TextRegion r) (parent_object_ r).

Definition set_line_id (id : string) (l : TextLineType) : TextLineType :=
  mkTextLine id (line_custom l) (line_Coords l) (line_TextEquiv l).

(** [neighbour.parent_object_.TextRegion.remove(neighbour)] *)
Definition remove_from_parent (neighbour : addr) (n : TextRegionType) (st : State)
  : result State :=
  match parent_object_ n with
  | OfPage =>
      l <- list_remove neighbour (page_TextRegion (page st));;
      Ok (set_page (set_page_TextRegion l (page st)) st)
  | OfRegion pa =>
      match heap st !! pa with
      | Some parent =>
          l <- list_remove neighbour (region_TextRegion parent);;
          Ok (set_heap (<[pa := set_region_TextRegion l parent]> (heap st)) st)
      | None => Raise (AttributeError "TextRegion")
      end
  | Unparented => Raise (AttributeError "TextRegion")
  end.

(** Lines 344-348: the reading-order entry of a removed neighbour. *)
Definition retarget_reading_order (neighbour_id region_id : string) (st : State) : State :=
  match reading_order st !! neighbour_id with
  | Some roelem =>
      set_reading_order
        (<[roelem := region_id]> (ro_regionRef st))
        (delete neighbour_id (<[region_id := roelem]> (reading_order st)))
        st
  | None => st
  end.

(** [page.add_TextRegion(region)]: the new object gets a fresh address. *)
Definition add_TextRegion (region : TextRegionType) (st : State) : State :=
  let a := fresh (dom (heap st)) in
  set_page (set_page_TextRegion (page_TextRegion (page st) ++ [a]) (page st))
           (set_heap (<[a := region]> (heap st)) st).

(** ** Sibling reconciliation (lines 306-354) *)

Inductive Relation : Type := Redundant | Crossing | Overlapping | Unrelated.

Section Driver.
Context `{K : Shapely} `{U : OcrdUtils} `{CV : OpenCV}.

(** The condition of line 312 and the [elif]s of lines 349 and 352. *)
Definition classify (neighpoly region_poly : Polygon) (scale : Z) : result Relation :=
  redundant <-
    orM (within neighpoly region_poly)
        (orM (within neighpoly (buffer region_poly scale))
             (andM (intersects neighpoly region_poly)
                   (orM (almost_equals neighpoly region_poly)
                        (i <- intersection neighpoly region_poly;;
                         Ok (Qltb ((8 # 10) * area neighpoly) (geom_area i))))));;
  if redundant : bool then Ok Redundant
  else
    c <- crosses neighpoly region_poly;;
    if c : bool then Ok Crossing
    else
      o <- overlaps neighpoly region_poly;;
      Ok (if o : bool then Overlapping else Unrelated).

(** The candidate while its siblings are reconciled: the new region, its
    polygon, and whether an address line was stolen. *)
Record Candidate : Type := mkCandidate {
  region : TextRegionType;
  region_poly : Polygon;
  has_address : bool
}.

Definition is_address_line (line : TextLineType) : bool :=
  match line_custom line with
  | Some custom => negb (String.eqb custom "") && startswith custom "subtype: ADDRESS_"
  | None => false
  end.

(** The body of [for line in neighbour.get_TextLine()] (lines 322-336). *)
Definition steal_line (acc : Candidate * nat * State) (line : TextLineType)
  : result (Candidate * nat * State) :=
  let '(c, line_no, st) := acc in
  let has_address := if is_address_line line then true else has_address c in
  let st := LOG "debug" "stealing text line" st in
  let line := set_line_id (region_id (region c) +:+ "_line" +:+ fmt_02d line_no) line in
  let line_no := S line_no in
  let r := add_TextLine line (region c) in
  line_poly <- Polygon_of (coordinates_of_segment (line_Coords line));;
  inside <- within line_poly (region_poly c);;
  if inside : bool then Ok (mkCandidate r (region_poly c) has_address, line_no, st)
  else
    u <- union line_poly (region_poly c);;
    rp <- match u with
          | Single (PartPolygon p) => Ok p
          | MultiPolygon ps => Ok (convex_hull ps)
          | _ => Raise (AttributeError "exterior")
          end;;
    let region_polygon := coordinates_for_segment (drop_last (exterior_coords rp)) in
    let r := set_points (points_from_polygon region_polygon) r in
    Ok (mkCandidate r rp has_address, line_no, st).

(** Lines 337-339 *)
Definition joined_text (r : TextRegionType) : list TextEquivType :=
  [ mkTextEquiv (join_lines
      (omap (fun line => Unicode <$> head (line_TextEquiv line)) (region_TextLine r))) ].

(** The branch of line 317: the neighbour is redundant.  The lines are
    objects shared by the neighbour and the new region, so the neighbour
    holds them under their new ids. *)
Definition subsume (c : Candidate) (neighbour : addr) (n : TextRegionType) (st : State)
  : result (Candidate * State) :=
  let st := LOG "debug" "removing redundant region" st in
  let line_no := length (region_TextLine (region c)) in
  stolen <- foldM steal_line (region_TextLine n) (c, line_no, st);;
  let '(c, _, st) := stolen in
  let n := set_TextLine (drop line_no (region_TextLine (region c))) n in
  let st := set_heap (<[neighbour := n]> (heap st)) st in
  let c := mkCandidate (set_TextEquiv (joined_text (region c)) (region c))
                       (region_poly c) (has_address c) in
  let st := set_oldregions (oldregions st ++ [neighbour]) st in
  st <- remove_from_parent neighbour n st;;
  Ok (c, retarget_reading_order (region_id n) (region_id (region c)) st).

(** The body of [for neighbour, neighpoly in zip(allregions, allpolys)]. *)
Definition reconcile (scale : Z) (acc : Candidate * State) (entry : addr * Polygon)
  : result (Candidate * State) :=
  let '(c, st) := acc in
  let '(neighbour, neighpoly) := entry in
  if bool_decide (neighbour ∈ oldregions st) then Ok (c, st)
  else
    rel <- classify neighpoly (region_poly c) scale;;
    match rel with
    | Redundant =>
        match heap st !! neighbour with
        | Some n => subsume c neighbour n st
        | None => Raise (AttributeError "id")
        end
    | Crossing => Ok (c, LOG "debug" "ignoring crossing region" st)
    | Overlapping => Ok (c, LOG "debug" "ignoring overlapping region" st)
    | Unrelated => Ok (c, st)
    end.

(** The interface of ocrd_models this pass uses beyond the accessors:
    [page.get_AllRegions(classes=['Text'], order='reading-order', depth=2)]. *)
Class OcrdModels : Type := {
  get_AllRegions : gmap addr TextRegionType -> PageType -> list addr
}.
Context `{M : OcrdModels}.

(** Lines 258-360: the instance under the category it was given. *)
Definition process_candidate (image : PageImage) (allregions : list (addr * Polygon))
           (st : State) (i : nat) (inst : Instance) (cat : nat) : result State :=
  name <- category_name cat;;
  let scale := mask_scale (mask inst) in
  let st := LOG "debug" "post-processing prediction" st in
  contour <- mask_contour image (mask inst);;
  let region_polygon := coordinates_for_segment contour in
  clipped <- polygon_for_parent region_polygon (ParentPage (page st));;
  match clipped with
  | None =>
      _ <- load_global "category";;
      Ok (LOG "warning" "Ignoring extant region" st)
  | Some region_polygon =>
      let region_coords :=
        mkCoords (points_from_polygon region_polygon) (Some (score inst)) in
      let new_region :=
        mkTextRegion (address_region_id i) region_coords "other"
                     (Some ("subtype:" +:+ name)) [] [] [] Unparented in
      let st := LOG "info" "Detected region" st in
      new_poly <- Polygon_of (coordinates_of_segment (region_Coords new_region));;
      reconciled <- foldM (reconcile scale) allregions
                          (mkCandidate new_region new_poly false, st);;
      let '(c, st) := reconciled in
      if has_address c then Ok (add_TextRegion (region c) st)
      else Ok (LOG "info" "Ignoring region without any address lines" st)
  end.

(** The body of the loop of line 245. *)
Definition process_instance (image : PageImage) (worse : list nat) (best : list Q)
           (allregions : list (addr * Polygon)) (st : State) (entry : nat * Instance)
  : result State :=
  let '(i, inst) := entry in
  cat <- instance_category worse best i inst;;
  match cat with
  | None => Ok (LOG "debug" "Ignoring instance overlapping better neighbour" st)
  | Some cat =>
      let st := if degrading best inst
                then LOG "debug" "Degrading instance with non-maximum score to class 3" st
                else st in
      process_candidate image allregions st i inst cat
  end.

(** Lines 191-203 *)
Definition initial_state (h : gmap addr TextRegionType) (p : PageType) : State :=
  let reading_order :=
    match ReadingOrder p with
    | Some rogroup => page_get_reading_order ∅ rogroup
    | None => ∅
    end in
  let attributes :=
    match ReadingOrder p with
    | Some rogroup => ro_attributes ∅ rogroup
    | None => ∅
    end in
  mkState h p attributes reading_order [] [].

Definition region_polygon_of (h : gmap addr TextRegionType) (a : addr) : result (addr * Polygon) :=
  match h !! a with
  | Some r => p <- Polygon_of (coordinates_of_segment (region_Coords r));; Ok (a, p)
  | None => Raise (AttributeError "Coords")
  end.

Fixpoint map_result {A B} (f : A -> result B) (l : list A) : result (list B) :=
  match l with
  | [] => Ok []
  | x :: l' => y <- f x;; ys <- map_result f l';; Ok (y :: ys)
  end.

(** [process], for one page: the document as parsed, the page image and
    the detector's [preds] for it. *)
Definition process_page (h : gmap addr TextRegionType) (p : PageType)
           (image : PageImage) (preds : list Instance) : result State :=
  let st := initial_state h p in
  allregions <- map_result (region_polygon_of h) (get_AllRegions h p);;
  worse <- suppression preds;;
  let best := best_scores preds worse in
  let st := if forallb (fun b => Qeq_bool b 0) best
            then LOG "warning" "Detected no sndr/rcpt address on page" st
            else st in
  foldM (process_instance image worse best allregions) (imap (fun i inst => (i, inst)) preds) st.

End Driver.

(** ** Marking text lines (lines 179-189) *)

(** [s.replace(old, new)] for a non-empty [old]: the occurrences of [old]
    are found from left to right and do not overlap; [skip] counts the
    characters of an occurrence that are still to be passed over. *)
Fixpoint str_replace_from (old new : string) (skip : nat) (s : string) : string :=
  match s with
  | EmptyString => EmptyString
  | String a s' =>
      match skip with
      | S k => str_replace_from old new k s'
      | O => if String.prefix old s
             then new +:+ str_replace_from old new (String.length old - 1) s'
             else String a (str_replace_from old new 0 s')
      end
  end.

Definition str_replace (s old new : string) : string := str_replace_from old new 0 s.

(** [text_class] of [mark_line]: the line's [custom] attribute without
    ['subtype: '], or ['ADDRESS_NONE'] when that does not start with
    ['ADDRESS_']. *)
Definition text_class (line : TextLineType) : string :=
  let text_class := default "" (line_custom line) in
  let text_class := str_replace text_class "subtype: " "" in
  if negb (startswith text_class "ADDRESS_") then "ADDRESS_NONE" else text_class.

(** The value the line's polygon is drawn with in the mask image:
    [200 if text_class == 'ADDRESS_NONE' else 255]. *)
Definition line_fill (line : TextLineType) : Z :=
  if String.eqb (text_class line) "ADDRESS_NONE" then 200%Z else 255%Z.

(** ** Foreground of the binarized image (lines 171-172) *)

(** The element types of the array the threshold is taken of: booleans
    (image mode ['1']) and unsigned integers of a given width (modes
    ['L'] and the like). *)
Inductive dtype : Type :=
| np_bool
| np_uint (bits : N).

(** [x + y] on two scalars of the type: [or] on booleans (as 0 and 1),
    addition modulo [2^bits] on unsigned integers. *)
Definition scalar_add (d : dtype) (x y : Z) : Z :=
  match d with
  | np_bool => Z.max x y
  | np_uint bits => ((x + y) mod 2 ^ Z.of_N bits)%Z
  end.

(** [a.min()] and [a.max()] *)
Definition array_min (l : list Z) : result Z :=
  match l with
  | [] => Raise (ValueError "zero-size array to reduction operation minimum which has no identity")
  | x :: l' => Ok (fold_left Z.min l' x)
  end.

Definition array_max (l : list Z) : result Z :=
  match l with
  | [] => Raise (ValueError "zero-size array to reduction operation maximum which has no identity")
  | x :: l' => Ok (fold_left Z.max l' x)
  end.

(** [threshold = 0.5 * (a.min() + a.max())], then [a <= threshold]. *)
Definition foreground (d : dtype) (a : Raster Z) : result (Raster bool) :=
  lo <- array_min (concat a);;
  hi <- array_max (concat a);;
  let threshold := ((1 # 2) * inject_Z (scalar_add d lo hi))%Q in
  Ok (map (map (fun v => Qle_bool (inject_Z v) threshold)) a).

(** * Vocabulary of the properties *)

(** A parent whose outline comes from its [Coords]: a page with a
    [Border], or a region. *)
Definition has_outline (parent : Parent) : Prop :=
  match parent with
  | ParentPage page => Border page <> None
  | ParentRegion _ => True
  end.

(** What the pair [(i, j)] appends to [worse]. *)
Definition suppressed_by (preds : list Instance) (i j : nat) : option nat :=
  match masks_overlap preds i j, loser preds i j with
  | Ok true, Ok k => Some k
  | _, _ => None
  end.

(** Reading a decimal numeral back. *)
Definition parse_number (s : string) : option nat :=
  Nat.of_uint <$> NilEmpty.uint_of_string s.

(** ** Containment in a box *)

(** A box [(x0, y0, x1, y1)] and the points in it. *)
Definition box : Type := Q * Q * Q * Q.

Definition in_box (b : box) (c : point) : Prop :=
  let '(x0, y0, x1, y1) := b in
  (x0 <= fst c)%Q /\ (fst c <= x1)%Q /\ (y0 <= snd c)%Q /\ (snd c <= y1)%Q.

Definition coords_in (b : box) (coords : list point) : Prop := Forall (in_box b) coords.

Definition poly_in (b : box) (p : Polygon) : Prop := coords_in b (exterior_coords p).

Definition part_in (b : box) (g : Part) : Prop :=
  match g with
  | PartPolygon p => poly_in b p
  | _ => True
  end.

Definition geom_in (b : box) (g : Geometry) : Prop :=
  match g with
  | Single g => part_in b g
  | MultiPolygon ps => Forall (poly_in b) ps
  | MultiLower _ => True
  | GeometryCollection gs => Forall (part_in b) gs
  end.

(** The page rectangle. *)
Definition page_box (w h : Z) : box := (0, 0, inject_Z w, inject_Z h)%Q.

(** ** The contracts of shapely the clipping relies on

    What the overlay and simplification operations promise about where
    their results lie and whether they are valid, stated for boxes: a
    result stays within every box that holds the operand it is taken
    from, overlays of valid polygons are valid, the page rectangle of a
    non-empty image is valid, and a valid polygon whose vertices lie in
    the page rectangle is [within] it. *)

Section Laws.
Context `{K : Shapely}.

Definition part_valid (g : Part) : Prop :=
  match g with
  | PartPolygon p => is_valid p = true
  | _ => True
  end.

Definition geom_valid (g : Geometry) : Prop :=
  match g with
  | Single g => part_valid g
  | MultiPolygon ps => Forall (fun p => is_valid p = true) ps
  | MultiLower _ => True
  | GeometryCollection gs => Forall part_valid gs
  end.

Class ShapelyLaws : Prop := {
  within_contained : forall c p b,
    within c p = Ok true -> poly_in b p -> poly_in b c;
  intersection_contained : forall c p g b,
    intersection c p = Ok g -> poly_in b p -> geom_in b g;
  unary_union_contained : forall gs g b,
    unary_union gs = Ok g -> Forall (part_in b) gs -> geom_in b g;
  convex_hull_contained : forall ps b,
    Forall (poly_in b) ps -> poly_in b (convex_hull ps);
  simplify_contained : forall p tolerance b,
    poly_in b p -> poly_in b (simplify p tolerance);
  intersection_valid : forall c p g,
    is_valid c = true -> is_valid p = true -> intersection c p = Ok g -> geom_valid g;
  unary_union_valid : forall gs g,
    Forall part_valid gs -> unary_union gs = Ok g -> geom_valid g;
  convex_hull_valid : forall ps,
    Forall (fun p => is_valid p = true) ps -> is_valid (convex_hull ps) = true;
  canvas_valid : forall w h p,
    (0 < w)%Z -> (0 < h)%Z -> Polygon_of (canvas_of w h) = Ok p -> is_valid p = true;
  within_complete : forall c w h p,
    Polygon_of (canvas_of w h) = Ok p ->
    is_valid c = true -> exterior_coords c <> [] -> poly_in (page_box w h) c ->
    within c p = Ok true
}.

End Laws.
Arguments ShapelyLaws K : clear implicits.

Section ClipVocabulary.
Context `{K : Shapely}.

(** The pieces of an intersection made one polygon (lines 402-408): the
    pieces of a collection that have an area are united, and several
    polygons are replaced by their hull. *)
Definition connect_pieces (interp : Geometry) : result Polygon :=
  interp <- match interp with
            | GeometryCollection geoms =>
                unary_union (filter (fun g => positive_area g = true) geoms)
            | _ => Ok interp
            end;;
  match interp with
  | MultiPolygon ps => Ok (convex_hull ps)
  | Single (PartPolygon p) => Ok p
  | _ => Raise (AttributeError "exterior")
  end.

(** The polygon a run of [polygon_for_parent] against a page without a
    Border takes the clearance of: the intersection of the repaired child
    with the repaired page rectangle, in one piece.  There is none when
    the run returns before: the child is within the rectangle, or the
    intersection is empty. *)
Definition clipped (polygon : list point) (page : PageType) : result (option Polygon) :=
  childp <- Polygon_of polygon;;
  parentp <- Polygon_of (canvas page);;
  childp <- make_valid childp;;
  parentp <- make_valid parentp;;
  inside <- within childp parentp;;
  if inside : bool then Ok None
  else
    interp <- intersection childp parentp;;
    if geom_is_empty interp || Qeq_bool (geom_area interp) 0 then Ok None
    else (q <- connect_pieces interp;; Ok (Some q)).

(** Where a repair of this run came back invalid: [make_valid] was given
    [p], the child, the page rectangle, or the rounded clip of this run,
    and returned [p'], which is not valid. *)
Definition unrepaired (polygon : list point) (page : PageType) (p p' : Polygon) : Prop :=
  (Polygon_of polygon = Ok p \/ Polygon_of (canvas page) = Ok p \/
   exists q, clipped polygon page = Ok (Some q) /\ clearance_below_1 q = true /\
             Polygon_of (round_coords (exterior_coords q)) = Ok p) /\
  make_valid p = Ok p' /\ is_valid p' = false.

End ClipVocabulary.

(** A coordinate list on the horizontal line [y = k]. *)
Definition on_line (k : Z) (coords : list point) : Prop :=
  Forall (fun c => snd c == inject_Z k)%Q coords.

(** What shapely answers for a ring without extent: a polygon whose
    coordinates lie on one horizontal line has no area and is not
    valid. *)
Class FlatLaws `{K : Shapely} : Prop := {
  flat_area : forall p k, on_line k (exterior_coords p) -> (area p == 0)%Q;
  flat_invalid : forall p k,
    exterior_coords p <> [] -> on_line k (exterior_coords p) -> is_valid p = false
}.
Arguments FlatLaws K : clear implicits.

(** A coordinate list in open form: at least three vertices, and
    [Polygon] will append the closing one (there are exactly three, or
    the first and the last differ). *)
Definition open_ring (r : list point) : Prop :=
  (3 <= length r)%nat /\
  ((length r = 3)%nat \/
   forall c0, head r = Some c0 -> point_eqb c0 (List.last r c0) = false).

(** How many reading-order elements refer to the region [id]. *)
Definition referring (refs : gmap addr string) (id : string) : nat :=
  size (filter (fun e : addr * string => e.2 = id) refs).

(** ** Reading order *)

(** The elements below a group, in the order [page_get_reading_order]
    meets them: each child, followed by what lies below it. *)
Fixpoint ro_descendants (e : ROElem) : list ROElem :=
  match e with
  | RegionRef _ _ _ => []
  | OrderedGroup _ _ _ children => flat_map (fun c => c :: ro_descendants c) children
  | UnorderedGroup _ _ _ children => flat_map (fun c => c :: ro_descendants c) children
  end.

(** [ro[elem.get_regionRef()] = elem] *)
Definition ro_enter (ro : gmap string addr) (elem : ROElem) : gmap string addr :=
  <[get_regionRef elem := ro_addr elem]> ro.

(** The [regionRef] attribute of one element, by address. *)
Definition ro_store (store : gmap addr string) (elem : ROElem) : gmap addr string :=
  <[ro_addr elem := get_regionRef elem]> store.

(** Every entry of the dictionary names an element whose [regionRef] is
    the entry's key. *)
Definition ro_consistent (refs : gmap addr string) (ro : gmap string addr) : Prop :=
  forall id a, ro !! id = Some a -> refs !! a = Some id.

(** The reading-order element of the region at [a]: what the dictionary
    [ro] holds under the region's id. *)
Definition ro_element (h : gmap addr TextRegionType) (ro : gmap string addr) (a : addr)
  : option addr :=
  match h !! a with
  | Some r => ro !! region_id r
  | None => None
  end.

(** The regions of [l] whose reading-order element refers to [id]. *)
Definition referred_from (h : gmap addr TextRegionType) (ro : gmap string addr)
           (refs : gmap addr string) (id : string) (l : list addr) : list addr :=
  filter (fun a => ro_element h ro a ≫= (fun e => refs !! e) = Some id) l.

(** ** States and regions of the pass *)

(** Two states that differ at most in their log. *)
Definition same_but_log (st st' : State) : Prop :=
  heap st' = heap st /\ page st' = page st /\ ro_regionRef st' = ro_regionRef st /\
  reading_order st' = reading_order st /\ oldregions st' = oldregions st.

(** What reconciliation leaves alone in the new region: everything but
    the points of its [Coords], its lines and its text. *)
Definition same_attributes (r r' : TextRegionType) : Prop :=
  region_id r' = region_id r /\ region_type r' = region_type r /\
  region_custom r' = region_custom r /\
  conf (region_Coords r') = conf (region_Coords r) /\
  region_TextRegion r' = region_TextRegion r /\ parent_object_ r' = parent_object_ r.

(** The lines of a neighbour as the new region [id] receives them when it
    already holds [n] lines: renamed [id_lineNN] from [n] on, and
    otherwise as they were. *)
Definition stolen_lines (id : string) (n : nat) (lines : list TextLineType)
  : list TextLineType :=
  imap (fun k line => set_line_id (id +:+ "_line" +:+ fmt_02d (n + k)) line) lines.

(** The text lines of the region at [a]. *)
Definition lines_of (h : gmap addr TextRegionType) (a : addr) : list TextLineType :=
  match h !! a with
  | Some r => region_TextLine r
  | None => []
  end.

(** The region line 300 builds for instance [i] under the category
    [name], with the clipped polygon. *)
Definition candidate_region `{U : OcrdUtils} (i : nat) (inst : Instance) (name : string)
           (region_polygon : list point) : TextRegionType :=
  mkTextRegion (address_region_id i)
               (mkCoords (points_from_polygon region_polygon) (Some (score inst)))
               "other" (Some ("subtype:" +:+ name)) [] [] [] Unparented.

(** The regions of the page's list that the document [h] did not hold:
    the regions a pass has added, in the order of the list. *)
Definition added_regions (h : gmap addr TextRegionType) (st : State) : list addr :=
  filter (fun a => h !! a = None) (page_TextRegion (page st)).

(** The regions that hang in the document: a region of the page's list,
    or of the list of a region that hangs in it, reached without passing
    through a region of [old] and not in [old] itself.  With no region
    to avoid, these are the regions reachable from the page. *)
Inductive attached (hp : gmap addr TextRegionType) (pg : PageType) (old : list addr)
  : addr -> Prop :=
| attached_page (a : addr) :
    a ∈ page_TextRegion pg -> a ∉ old -> attached hp pg old a
| attached_region (pa : addr) (rp : TextRegionType) (a : addr) :
    attached hp pg old pa -> hp !! pa = Some rp -> a ∈ region_TextRegion rp -> a ∉ old ->
    attached hp pg old a.

(** ** Masks *)

(** [mask[r, c]], false outside the raster. *)
Definition pixel (m : list (list bool)) (r c : nat) : bool :=
  match m !! r with
  | Some row => default false (row !! c)
  | None => false
  end.

(** The mask after [k] rounds of [cv2.dilate] with a [scale] kernel. *)
Definition dilated `{CV : OpenCV} (scale : Z) (m : Raster bool) (k : nat) : Raster bool :=
  Nat.iter k (fun x => dilate x scale) m.

(** ** Binarized images *)

(** The largest value of an element type. *)
Definition dtype_top (d : dtype) : Z :=
  match d with
  | np_bool => 1%Z
  | np_uint bits => (2 ^ Z.of_N bits - 1)%Z
  end.

(** An image of two levels: every pixel is 0 or the largest value. *)
Definition two_level (d : dtype) (a : Raster Z) : Prop :=
  Forall (Forall (fun v => v = 0%Z \/ v = dtype_top d)) a.

(** * A model of the interfaces: axis-parallel boxes

    An instance of [Shapely] in which a polygon stands for its bounding
    box.  On polygons that are axis-parallel rectangles, which is what the
    examples below run on, containment, intersection, area, validity and
    clearance have their closed forms; [simplify] does nothing. *)

Module BoxWorld.

Definition Qmin (x y : Q) : Q := if Qle_bool x y then x else y.
Definition Qmax (x y : Q) : Q := if Qle_bool x y then y else x.

Definition extend (b : box) (c : point) : box :=
  let '(x0, y0, x1, y1) := b in
  (Qmin x0 (fst c), Qmin y0 (snd c), Qmax x1 (fst c), Qmax y1 (snd c)).

Definition hull_box (b : box) (l : list point) : box := fold_left extend l b.

Definition bbox (coords : list point) : option box :=
  match coords with
  | [] => None
  | c :: l => Some (hull_box (fst c, snd c, fst c, snd c) l)
  end.

Definition box_ring (b : box) : list point :=
  let '(x0, y0, x1, y1) := b in
  [ (x0, y0); (x0, y1); (x1, y1); (x1, y0); (x0, y0) ].

(** A box with an interior, and one with at least a point. *)
Definition proper (b : box) : bool :=
  let '(x0, y0, x1, y1) := b in Qltb x0 x1 && Qltb y0 y1.

Definition inhabited (b : box) : bool :=
  let '(x0, y0, x1, y1) := b in Qle_bool x0 x1 && Qle_bool y0 y1.

(** [box_leb a b]: the box [a] lies in [b]. *)
Definition box_leb (a b : box) : bool :=
  let '(x0, y0, x1, y1) := a in
  let '(u0, v0, u1, v1) := b in
  Qle_bool u0 x0 && Qle_bool v0 y0 && Qle_bool x1 u1 && Qle_bool y1 v1.

Definition box_eqb (a b : box) : bool := box_leb a b && box_leb b a.

Definition meet (a b : box) : box :=
  let '(x0, y0, x1, y1) := a in
  let '(u0, v0, u1, v1) := b in
  (Qmax x0 u0, Qmax y0 v0, Qmin x1 u1, Qmin y1 v1).

Definition join (a b : box) : box :=
  let '(x0, y0, x1, y1) := a in
  let '(u0, v0, u1, v1) := b in
  (Qmin x0 u0, Qmin y0 v0, Qmax x1 u1, Qmax y1 v1).

Definition box_of (p : Polygon) : option box := bbox (exterior_coords p).

Definition polygons_of (gs : list Part) : list Polygon :=
  omap (fun g => match g with PartPolygon p => Some p | _ => None end) gs.

Definition box_is_valid (p : Polygon) : bool :=
  match box_of p with
  | Some b => proper b
  | None => true
  end.

Definition box_area (p : Polygon) : Q :=
  match box_of p with
  | Some (x0, y0, x1, y1) => ((x1 - x0) * (y1 - y0))%Q
  | None => 0%Q
  end.

(** What GEOS answers when the container is a rectangle: the envelope
    of the polygon lies in it. *)
Definition box_within (c p : Polygon) : bool :=
  match box_of c, box_of p with
  | Some a, Some b => box_leb a b
  | _, _ => false
  end.

Definition box_intersection (c p : Polygon) : Geometry :=
  match box_of c, box_of p with
  | Some a, Some b =>
      let o := meet a b in
      if proper o then Single (PartPolygon (mkPolygon (box_ring o)))
      else if inhabited o
           then let '(x0, y0, x1, y1) := o in Single (PartLineString [(x0, y0); (x1, y1)])
           else GeometryCollection []
  | _, _ => GeometryCollection []
  end.

Definition box_unary_union (gs : list Part) : Geometry :=
  match polygons_of gs with
  | [] => GeometryCollection []
  | [p] => Single (PartPolygon p)
  | ps => MultiPolygon ps
  end.

Definition box_convex_hull (ps : list Polygon) : Polygon :=
  match bbox (concat (map exterior_coords ps)) with
  | Some b => if proper b then mkPolygon (box_ring b) else mkPolygon []
  | None => mkPolygon []
  end.

Definition box_minimum_clearance (p : Polygon) : option Q :=
  match box_of p with
  | Some (x0, y0, x1, y1) =>
      if proper (x0, y0, x1, y1) then Some (Qmin (x1 - x0) (y1 - y0))%Q else None
  | None => None
  end.

Definition box_buffer (p : Polygon) (d : Z) : Polygon :=
  match box_of p with
  | Some (x0, y0, x1, y1) =>
      mkPolygon (box_ring (x0 - inject_Z d, y0 - inject_Z d,
                           x1 + inject_Z d, y1 + inject_Z d)%Q)
  | None => p
  end.

Definition box_intersects (c p : Polygon) : bool :=
  match box_of c, box_of p with
  | Some a, Some b => inhabited (meet a b)
  | _, _ => false
  end.

Definition box_almost_equals (c p : Polygon) : bool :=
  match box_of c, box_of p with
  | Some a, Some b => box_eqb a b
  | _, _ => false
  end.

Definition box_overlaps (c p : Polygon) : bool :=
  match box_of c, box_of p with
  | Some a, Some b => proper (meet a b) && negb (box_leb a b) && negb (box_leb b a)
  | _, _ => false
  end.

Definition box_union (c p : Polygon) : Geometry :=
  match box_of c, box_of p with
  | Some a, Some b =>
      if box_leb a b then Single (PartPolygon p)
      else if box_leb b a then Single (PartPolygon c)
      else if inhabited (meet a b) then Single (PartPolygon (mkPolygon (box_ring (join a b))))
      else MultiPolygon [c; p]
  | _, _ => MultiPolygon [c; p]
  end.

(** [box_le a b]: the box [a] lies in [b], as a proposition. *)
Definition box_le (a b : box) : Prop :=
  let '(x0, y0, x1, y1) := a in
  let '(u0, v0, u1, v1) := b in
  (u0 <= x0)%Q /\ (v0 <= y0)%Q /\ (x1 <= u1)%Q /\ (y1 <= v1)%Q.

#[export] Instance box_shapely : Shapely := {|
  is_valid := box_is_valid;
  area := box_area;
  simplify := fun p _ => p;
  within := fun c p => Ok (box_within c p);
  intersection := fun c p => Ok (box_intersection c p);
  unary_union := fun gs => Ok (box_unary_union gs);
  convex_hull := box_convex_hull;
  minimum_clearance := box_minimum_clearance;
  buffer := box_buffer;
  intersects := fun c p => Ok (box_intersects c p);
  almost_equals := fun c p => Ok (box_almost_equals c p);
  (* two areas never cross: the predicate is defined for point/line,
     point/area, line/line and line/area pairs *)
  crosses := fun _ _ => Ok false;
  overlaps := fun c p => Ok (box_overlaps c p);
  union := fun c p => Ok (box_union c p)
|}.

End BoxWorld.

(** * The other interfaces, for a page image that is the page itself

    ocrd_utils with the identity transform between page and image,
    OpenCV on masks that are filled rectangles with a 1x1 kernel, and
    ocrd_models listing regions in document order. *)

Module Collaborators.

(** ["%i" % x] *)
Definition fmt_i (z : Z) : string :=
  if (z <? 0)%Z
  then "-" +:+ NilEmpty.string_of_uint (Nat.to_uint (Z.to_nat (- z)))
  else NilEmpty.string_of_uint (Nat.to_uint (Z.to_nat z)).

Fixpoint join_with (sep : string) (parts : list string) : string :=
  match parts with
  | [] => ""
  | [x] => x
  | x :: rest => x +:+ sep +:+ join_with sep rest
  end.

(** [' '.join("%i,%i" % (x, y) for x, y in polygon)] *)
Definition format_points (polygon : list point) : string :=
  join_with " "
    (map (fun c => fmt_i (py_int (fst c)) +:+ "," +:+ fmt_i (py_int (snd c))) polygon).

Fixpoint split_on (sep : Ascii.ascii) (s : string) : list string :=
  match s with
  | EmptyString => [ "" ]
  | String a s' =>
      let r := split_on sep s' in
      if Ascii.eqb a sep then "" :: r
      else match r with
           | x :: r' => String a x :: r'
           | [] => [ String a "" ]
           end
  end.

Definition parse_nat (s : string) : option Z :=
  match s with
  | EmptyString => None
  | _ => (fun d => Z.of_nat (Nat.of_uint d)) <$> NilEmpty.uint_of_string s
  end.

Definition parse_int (s : string) : option Z :=
  match s with
  | String a s' =>
      if Ascii.eqb a (Ascii.ascii_of_nat 45) then Z.opp <$> parse_nat s' else parse_nat s
  | EmptyString => None
  end.

Definition parse_point (s : string) : option point :=
  match split_on (Ascii.ascii_of_nat 44) s with
  | [x; y] =>
      match parse_int x, parse_int y with
      | Some x, Some y => Some (inject_Z x, inject_Z y)
      | _, _ => None
      end
  | _ => None
  end.

(** The points of a [Coords] attribute; none when it is malformed. *)
Definition parse_points (s : string) : list point :=
  default [] (mapM parse_point (split_on (Ascii.ascii_of_nat 32) s)).

#[export] Instance identity_utils : OcrdUtils := {|
  polygon_from_points := parse_points;
  points_from_polygon := format_points;
  coordinates_of_segment := fun coords => parse_points (points coords);
  coordinates_for_segment := round_coords
|}.

(** A page of 10 by 10 pixels whose image was deskewed: the image is the
    page turned by the angle of cosine 4/5 and sine 3/5 about its centre,
    so it has 14 by 14 pixels, and its corners show no part of the page.
    [to_image] and [to_page] are the transform and its inverse. *)
Definition to_image (c : point) : point :=
  let x := (fst c - 5)%Q in
  let y := (snd c - 5)%Q in
  ((4 # 5) * x - (3 # 5) * y + 7, (3 # 5) * x + (4 # 5) * y + 7)%Q.

Definition to_page (c : point) : point :=
  let x := (fst c - 7)%Q in
  let y := (snd c - 7)%Q in
  ((4 # 5) * x + (3 # 5) * y + 5, (4 # 5) * y - (3 # 5) * x + 5)%Q.

Definition deskewed_utils : OcrdUtils := {|
  polygon_from_points := parse_points;
  points_from_polygon := format_points;
  coordinates_of_segment := fun coords =>
    round_coords (map to_image (parse_points (points coords)));
  coordinates_for_segment := fun polygon => round_coords (map to_page polygon)
|}.

(** The pixels of a mask that are set, as (column, row). *)
Definition set_pixels (m : Raster bool) : list (Z * Z) :=
  concat (imap (fun r row =>
                  omap (fun x => x)
                       (imap (fun c (b : bool) =>
                                if b then Some (Z.of_nat c, Z.of_nat r) else None) row))
               m).

Definition Zmin_list (d : Z) (l : list Z) : Z := fold_left Z.min l d.
Definition Zmax_list (d : Z) (l : list Z) : Z := fold_left Z.max l d.

Definition rect_boundingRect (m : Raster bool) : Z * Z * Z * Z :=
  match set_pixels m with
  | [] => (0, 0, 0, 0)%Z
  | (x, y) :: rest =>
      let xs := map fst rest in
      let ys := map snd rest in
      let x0 := Zmin_list x xs in
      let y0 := Zmin_list y ys in
      (x0, y0, Zmax_list x xs - x0 + 1, Zmax_list y ys - y0 + 1)%Z
  end.

(** The outer contour of a filled rectangle: its corner pixels. *)
Definition rect_findContours (m : Raster bool) : list (list point) :=
  match set_pixels m with
  | [] => []
  | _ =>
      let '(x0, y0, w, h) := rect_boundingRect m in
      let x1 := (x0 + w - 1)%Z in
      let y1 := (y0 + h - 1)%Z in
      [ [ (inject_Z x0, inject_Z y0); (inject_Z x0, inject_Z y1);
          (inject_Z x1, inject_Z y1); (inject_Z x1, inject_Z y0) ] ]
  end.

#[export] Instance rect_opencv : OpenCV := {|
  boundingRect := rect_boundingRect;
  (* a 1x1 kernel: masks below 400 pixels have scale 1 *)
  dilate := fun m _ => m;
  findContours := rect_findContours
|}.

(** Top-level text regions, each followed by its text regions. *)
Definition document_order (h : gmap addr TextRegionType) (p : PageType) : list addr :=
  flat_map (fun a => a :: match h !! a with
                         | Some r => region_TextRegion r
                         | None => []
                         end)
           (page_TextRegion p).

#[export] Instance document_models : OcrdModels := {|
  get_AllRegions := document_order
|}.

(** A mask of [w] by [h] pixels, set on columns [x0..x1] of rows [y0..y1]. *)
Definition rect_mask (w h x0 y0 x1 y1 : nat) : Raster bool :=
  map (fun r => map (fun c => (x0 <=? c)%nat && (c <=? x1)%nat &&
                              (y0 <=? r)%nat && (r <=? y1)%nat)
                    (seq 0 w))
      (seq 0 h).

(** A page image without foreground: every pixel is background. *)
Definition blank_image (w h : nat) : PageImage :=
  mkPageImage (Z.of_nat w) (Z.of_nat h) (repeat (repeat 0%Z w) h).

End Collaborators.

(** * Concrete pages, polygons and detections *)

Module Scenarios.
Import Collaborators.

(** A page of 20 by 20 pixels without Border, and one with a Border. *)
Definition page20 : PageType := mkPage 20 20 None None [].

Definition bordered_page : PageType :=
  mkPage 20 20 (Some (mkBorder (mkCoords "1,1 1,19 19,19 19,1" None))) None [].

(** A rectangle that sticks out of the page on the left. *)
Definition overhang : list point := [ (-2, 3); (10, 3); (10, 8); (-2, 8) ]%Q.

Definition overhang_clipped : list point := [ (0, 3); (0, 8); (10, 8); (10, 3) ]%Q.

(** The same, but only 0.4 pixels high. *)
Definition sliver : list point := [ (-1, 1); (10, 1); (10, 7 # 5); (-1, 7 # 5) ]%Q.

Definition flat_ring : list point := [ (0, 1); (0, 1); (10, 1); (10, 1); (0, 1) ]%Q.

(** A rectangle 0.4 pixels wide that sticks out of the page at the top,
    and what it is clipped to. *)
Definition thin : list point := [ (3, -1); (17 # 5, -1); (17 # 5, 10); (3, 10) ]%Q.

Definition thin_clipped : list point := [ (3, 0); (3, 0); (3, 10); (3, 10) ]%Q.

(** A rectangle inside the page whose coordinate list ends with its
    closing point, twice. *)
Definition twice_closed : list point :=
  [ (2, 2); (2, 5); (6, 5); (6, 2); (2, 2); (2, 2) ]%Q.

Definition dot : Raster bool := [ [ true; false ] ].
Definition other_dot : Raster bool := [ [ false; true ] ].

(** Three detections of the same pixels, scoring 0.7, 0.8 and 0.9. *)
Definition triplets : list Instance :=
  [ mkInstance 1 (7 # 10) [] dot; mkInstance 1 (8 # 10) [] dot;
    mkInstance 1 (9 # 10) [] dot ].

(** A duplicate in the middle: instance 1 repeats instance 0 with a lower
    score, instance 2 is elsewhere. *)
Definition middle_duplicate : list Instance :=
  [ mkInstance 1 (9 # 10) [] dot; mkInstance 1 (6 # 10) [] dot;
    mkInstance 2 (8 # 10) [] other_dot ].

(** Two recipient detections in different places, scoring 0.8 and 0.5. *)
Definition two_recipients : list Instance :=
  [ mkInstance 1 (8 # 10) [] dot; mkInstance 1 (5 # 10) [] other_dot ].

(** A page of 10 by 10 pixels with its deskewed image of 14 by 14: the
    first detection sits in the top left corner of the image, which is
    not part of the page; the second sits in the middle. *)
Definition page10 : PageType := mkPage 10 10 None None [].

Definition outside : Instance := mkInstance 1 (9 # 10) [] (rect_mask 14 14 0 0 1 1).
Definition inside : Instance := mkInstance 2 (9 # 10) [] (rect_mask 14 14 6 6 8 8).

Definition line (id pts : string) (custom : option string) : TextLineType :=
  mkTextLine id custom (mkCoords pts None) [ mkTextEquiv id ].

Definition paragraph1 (custom : option string) : TextRegionType :=
  mkTextRegion "r1" (mkCoords "2,2 2,5 5,5 5,2" None) "paragraph" None
    [ line "r1_l1" "3,3 3,4 4,4 4,3" None; line "r1_l2" "3,4 3,5 4,5 4,4" custom ]
    [] [] OfPage.

Definition paragraph2 : TextRegionType :=
  mkTextRegion "r2" (mkCoords "7,2 7,5 10,5 10,2" None) "paragraph" None
    [ line "r2_l1" "8,3 8,4 9,4 9,3" None ] [] [] OfPage.

(** Both paragraphs are in the reading order. *)
Definition reading : ROElem :=
  OrderedGroup false 0 "" [ RegionRef true 1 "r1"; RegionRef true 2 "r2" ].

Definition two_paragraphs (custom : option string) : gmap addr TextRegionType :=
  <[1%nat := paragraph1 custom]> (<[2%nat := paragraph2]> ∅).

Definition page12 : PageType := mkPage 12 8 None (Some reading) [1; 2]%nat.

(** One detection that covers both paragraphs. *)
Definition cover : Instance := mkInstance 1 (9 # 10) [] (rect_mask 12 8 1 1 10 6).

(** The polygons of the two paragraphs, as [allpolys] holds them. *)
Definition paragraph_polygons : list (addr * Polygon) :=
  [ (1%nat, mkPolygon [ (2, 2); (2, 5); (5, 5); (5, 2); (2, 2) ]%Q);
    (2%nat, mkPolygon [ (7, 2); (7, 5); (10, 5); (10, 2); (7, 2) ]%Q) ].

(** The custom attribute of a line classified as a postal code. *)
Definition zip_custom : option string := Some "subtype: ADDRESS_ZIP".

(** A page of 12 by 8 pixels without any region. *)
Definition bare_page12 : PageType := mkPage 12 8 None None [].

(** A rectangle inside the page between pixel centres. *)
Definition half_pixel_ring : list point :=
  [ (1 # 2, 1 # 2); (1 # 2, 3); (3, 3); (3, 1 # 2) ]%Q.

(** Both paragraphs with an address line, and one detection over each. *)
Definition paragraph2_zip : TextRegionType :=
  mkTextRegion "r2" (mkCoords "7,2 7,5 10,5 10,2" None) "paragraph" None
    [ line "r2_l1" "8,3 8,4 9,4 9,3" zip_custom ] [] [] OfPage.

Definition two_addresses : gmap addr TextRegionType :=
  <[1%nat := paragraph1 zip_custom]> (<[2%nat := paragraph2_zip]> ∅).

Definition left_cover : Instance := mkInstance 1 (9 # 10) [] (rect_mask 12 8 1 1 5 6).
Definition right_cover : Instance := mkInstance 2 (8 # 10) [] (rect_mask 12 8 6 1 11 6).

(** Two recipient detections, over the first paragraph with score 0.9 and
    over the second with score 0.5. *)
Definition weaker_right : Instance := mkInstance 1 (5 # 10) [] (rect_mask 12 8 6 1 11 6).

Definition recipients : list Instance := [ left_cover; weaker_right ].

(** The detection over the first paragraph, a weaker duplicate of it, and
    the detection over the second paragraph. *)
Definition duplicate_between : list Instance :=
  [ left_cover; mkInstance 1 (6 # 10) [] (rect_mask 12 8 1 1 5 6); right_cover ].

(** The two paragraphs with a region of their own each: one inside the
    first paragraph, one of the second paragraph that lies elsewhere on
    the page. *)
Definition inner (id pts : string) (pa : addr) : TextRegionType :=
  mkTextRegion id (mkCoords pts None) "paragraph" None [] [] [] (OfRegion pa).

Definition nested : gmap addr TextRegionType :=
  <[1%nat := set_region_TextRegion [5%nat] (paragraph1 zip_custom)]>
  (<[5%nat := inner "r1a" "3,3 3,4 4,4 4,3" 1]>
  (<[2%nat := set_region_TextRegion [6%nat] paragraph2_zip]>
  (<[6%nat := inner "r2a" "1,6 1,7 2,7 2,6" 2]> ∅))).

(** A page that was processed before: its second paragraph has the id of
    an address region. *)
Definition paragraph2_old : TextRegionType :=
  mkTextRegion "addressregion01" (mkCoords "7,2 7,5 10,5 10,2" None) "paragraph" None
    [ line "r2_l1" "8,3 8,4 9,4 9,3" zip_custom ] [] [] OfPage.

Definition processed_before : gmap addr TextRegionType :=
  <[1%nat := paragraph1 zip_custom]> (<[2%nat := paragraph2_old]> ∅).

(** A blank page as an 8-bit image: every pixel is white. *)
Definition white_image : Raster Z := [ [ 255; 255; 255 ]; [ 255; 255; 255 ] ]%Z.

End Scenarios.

(** * Properties *)

(** ** The error monad *)

Lemma bind_Ok {A B} (m : result A) (f : A -> result B) (b : B) :
  bind m f = Ok b -> exists a, m = Ok a /\ f a = Ok b.
Proof. destruct m as [a|e]; simpl; [eauto | discriminate]. Qed.

Lemma bind_ret_l {A B} (a : A) (f : A -> result B) : bind (Ok a) f = f a.
Proof. reflexivity. Qed.

Lemma foldM_app {A S} (f : S -> A -> result S) (l1 l2 : list A) (s : S) :
  foldM f (l1 ++ l2) s = bind (foldM f l1 s) (foldM f l2).
Proof.
  revert s; induction l1 as [|x l1 IH]; intros s; simpl; [reflexivity|].
  destruct (f s x) as [s'|e]; simpl; [apply IH | reflexivity].
Qed.

Lemma foldM_raise {A S} (f : S -> A -> result S) (l1 l2 : list A) (x : A)
      (s s1 : S) (e : exn) :
  foldM f l1 s = Ok s1 -> f s1 x = Raise e -> foldM f (l1 ++ x :: l2) s = Raise e.
Proof.
  intros H1 Hx. rewrite foldM_app, H1. simpl. rewrite Hx. reflexivity.
Qed.

Ltac inv_bind H :=
  let a := fresh "a" in
  let Ha := fresh "Ha" in
  apply bind_Ok in H; destruct H as (a & Ha & H).

(** ** Name resolution *)

Lemma polygon_from_points_unbound :
  load_global "polygon_from_points" = Raise (NameError "polygon_from_points").
Proof. reflexivity. Qed.

Lemma category_unbound : load_global "category" = Raise (NameError "category").
Proof. reflexivity. Qed.

Lemma parent_polygon_outline `{U : OcrdUtils} (parent : Parent) :
  has_outline parent ->
  parent_polygon parent = Raise (NameError "polygon_from_points").
Proof.
  destruct parent as [pg|r]; simpl; intros H.
  - destruct (Border pg); [reflexivity | contradiction].
  - reflexivity.
Qed.

(** C10. Against a page with an explicit Border, or against a region,
    [polygon_for_parent] never returns: for every coordinate list it ends
    in an exception, and for every child polygon that [Polygon] accepts
    (no coordinates, or at least three) the exception is the [NameError]
    of the unbound name [polygon_from_points], raised before the child
    is repaired, compared or clipped. *)
Theorem polygon_for_parent_outline_NameError
        `{K : Shapely} `{U : OcrdUtils} (polygon : list point) (parent : Parent) :
  has_outline parent ->
  (forall r, polygon_for_parent polygon parent <> Ok r) /\
  (is_Ok (Polygon_of polygon) = true ->
   polygon_for_parent polygon parent = Raise (NameError "polygon_from_points")).
Proof.
  intros H. unfold polygon_for_parent.
  rewrite (parent_polygon_outline parent H).
  destruct (Polygon_of polygon) as [childp|e]; simpl.
  - split; [intros r; discriminate | reflexivity].
  - split; [intros r; discriminate | discriminate].
Qed.

(** ** The driver on a candidate whose clip is null *)

(** C2. When [polygon_for_parent] returns [None] for a candidate, the body
    of the instance loop does not log and continue: evaluating the
    arguments of [LOG.warning] reads the unbound name [category], so the
    candidate's iteration raises [NameError], and with it the whole loop
    over the page's instances, whatever candidates were still to come. *)
Theorem null_clip_raises_NameError
        `{K : Shapely} `{U : OcrdUtils} `{CV : OpenCV}
        (image : PageImage) (worse : list nat) (best : list Q)
        (allregions : list (addr * Polygon)) (st : State)
        (i : nat) (inst : Instance) (cat : nat) (contour : list point) :
  instance_category worse best i inst = Ok (Some cat) ->
  is_Ok (category_name cat) = true ->
  mask_contour image (mask inst) = Ok contour ->
  polygon_for_parent (coordinates_for_segment contour) (ParentPage (page st)) = Ok None ->
  process_instance image worse best allregions st (i, inst) = Raise (NameError "category")
  /\ forall before after st0,
      foldM (process_instance image worse best allregions) before st0 = Ok st ->
      foldM (process_instance image worse best allregions)
            (before ++ (i, inst) :: after) st0 = Raise (NameError "category").
Proof.
  intros Hcat Hname Hcontour Hclip.
  assert (Hstep : process_instance image worse best allregions st (i, inst)
                  = Raise (NameError "category")).
  { unfold process_instance, process_candidate. rewrite Hcat. simpl.
    destruct (category_name cat) as [name|e]; [simpl | discriminate].
    rewrite Hcontour. simpl.
    destruct (degrading best inst); simpl; rewrite Hclip; reflexivity. }
  split; [exact Hstep|].
  intros before after st0 Hbefore.
  eapply foldM_raise; eassumption.
Qed.

(** ** Suppression *)

Lemma suppress_row_eq (preds : list Instance) (i : nat) (js : list nat)
      (worse worse' : list nat) :
  foldM (suppress_pair preds i) js worse = Ok worse' ->
  worse' = worse ++ omap (suppressed_by preds i) js.
Proof.
  revert worse; induction js as [|j js IH]; intros worse H; simpl in *.
  - injection H as <-. rewrite app_nil_r. reflexivity.
  - inv_bind H. apply IH in H. subst worse'.
    unfold suppress_pair in Ha. inv_bind Ha. unfold suppressed_by.
    rewrite Ha0. destruct a0.
    + inv_bind Ha. injection Ha as <-. rewrite Ha1. rewrite <- app_assoc. reflexivity.
    + injection Ha as <-. reflexivity.
Qed.

Lemma suppression_rows_eq (preds : list Instance) (is_ : list nat)
      (worse worse' : list nat) :
  foldM (suppress_row preds) is_ worse = Ok worse' ->
  worse' = worse ++
    flat_map (fun i => omap (suppressed_by preds i) (seq (S i) (length preds - S i))) is_.
Proof.
  revert worse; induction is_ as [|i is_ IH]; intros worse H; simpl in *.
  - injection H as <-. rewrite app_nil_r. reflexivity.
  - inv_bind H. apply IH in H. subst worse'.
    apply suppress_row_eq in Ha. subst a. rewrite <- app_assoc. reflexivity.
Qed.

Lemma suppression_eq (preds : list Instance) (worse : list nat) :
  suppression preds = Ok worse ->
  worse = flat_map (fun i => omap (suppressed_by preds i)
                                  (seq (S i) (length preds - S i)))
                   (seq 0 (length preds)).
Proof. intros H. apply suppression_rows_eq in H. exact H. Qed.

Lemma elem_of_suppression (preds : list Instance) (worse : list nat) (k : nat) :
  suppression preds = Ok worse ->
  k ∈ worse <->
  exists i j, (i < j < length preds)%nat /\ suppressed_by preds i j = Some k.
Proof.
  intros H. rewrite (suppression_eq _ _ H) at 1.
  rewrite list_elem_of_In, in_flat_map. split.
  - intros (i & Hi & Hk). apply list_elem_of_In, list_elem_of_omap in Hk.
    destruct Hk as (j & Hj & Hk). exists i, j. split; [|exact Hk].
    apply list_elem_of_In, in_seq in Hj. lia.
  - intros (i & j & Hij & Hk). exists i. split.
    + apply in_seq. lia.
    + apply list_elem_of_In, list_elem_of_omap. exists j. split; [|exact Hk].
      apply list_elem_of_In, in_seq. lia.
Qed.

Lemma Qltb_lt (x y : Q) : Qltb x y = true <-> (x < y)%Q.
Proof.
  unfold Qltb. rewrite negb_true_iff. split.
  - intros H. apply Qnot_le_lt. intros Hle. apply Qle_bool_iff in Hle. congruence.
  - intros H. destruct (Qle_bool y x) eqn:E; [|reflexivity].
    apply Qle_bool_iff in E. exfalso. eapply Qlt_not_le; eassumption.
Qed.

Lemma Qltb_ge (x y : Q) : Qltb x y = false <-> (y <= x)%Q.
Proof.
  unfold Qltb. rewrite negb_false_iff. apply Qle_bool_iff.
Qed.

(** C5 (amended). After the suppression pass, for every pair [i < j] of
    instances whose masks have IoU above 0.5, the pair's own step appends
    exactly one index to [worse]: [i] when it scores strictly lower than
    [j], and otherwise [j], so a tie is decided against the higher index.
    Conversely every entry of [worse] is the loser of some such pair, and
    [worse] holds one entry per overlapping pair, in loop order.  The
    winner of a pair is therefore suppressed exactly when it loses another
    pair. *)
Theorem suppression_marks_losers (preds : list Instance) (worse : list nat) :
  suppression preds = Ok worse ->
  (forall i j pi pj,
      (i < j)%nat -> preds !! i = Some pi -> preds !! j = Some pj ->
      overlapping (mask pi) (mask pj) = Ok true ->
      ((score pi < score pj)%Q -> i ∈ worse) /\
      ((score pj <= score pi)%Q -> j ∈ worse)) /\
  (forall k, k ∈ worse ->
      exists i j pi pj,
        (i < j)%nat /\ preds !! i = Some pi /\ preds !! j = Some pj /\
        overlapping (mask pi) (mask pj) = Ok true /\
        k = if Qltb (score pi) (score pj) then i else j) /\
  worse = flat_map (fun i => omap (suppressed_by preds i)
                                  (seq (S i) (length preds - S i)))
                   (seq 0 (length preds)).
Proof.
  intros H. split; [|split].
  - intros i j pi pj Hij Hi Hj Ho.
    assert (Hlen : (i < j < length preds)%nat).
    { split; [exact Hij|]. eapply lookup_lt_Some; eassumption. }
    assert (Hs : suppressed_by preds i j
                 = Some (if Qltb (score pi) (score pj) then i else j)).
    { unfold suppressed_by, masks_overlap, loser. rewrite Hi, Hj, Ho. reflexivity. }
    split; intros Hsc.
    + apply (elem_of_suppression _ _ _ H). exists i, j. split; [exact Hlen|].
      rewrite Hs. apply Qltb_lt in Hsc. rewrite Hsc. reflexivity.
    + apply (elem_of_suppression _ _ _ H). exists i, j. split; [exact Hlen|].
      rewrite Hs. apply Qltb_ge in Hsc. rewrite Hsc. reflexivity.
  - intros k Hk. apply (elem_of_suppression _ _ _ H) in Hk.
    destruct Hk as (i & j & Hij & Hs).
    unfold suppressed_by, masks_overlap, loser in Hs.
    destruct (preds !! i) as [pi|] eqn:Hi; [|discriminate].
    destruct (preds !! j) as [pj|] eqn:Hj; [|discriminate].
    destruct (overlapping (mask pi) (mask pj)) as [[|]|] eqn:Ho; try discriminate.
    injection Hs as <-. exists i, j, pi, pj.
    repeat split; try assumption; try reflexivity; lia.
  - apply suppression_eq, H.
Qed.

(** ** Best scores and demotion *)

Lemma track_best_step (worse : list nat) (best : list Q) (i : nat) (inst : Instance)
      (c : nat) (b0 : Q) :
  best !! c = Some b0 ->
  exists b1,
    track_best worse best (i, inst) !! c = Some b1 /\
    (b0 <= b1)%Q /\
    (i ∉ worse -> class_id inst = c -> c = 1%nat \/ c = 2%nat -> (score inst <= b1)%Q) /\
    (b1 = b0 \/ ((i ∉ worse) /\ class_id inst = c /\ (c = 1%nat \/ c = 2%nat) /\ b1 = score inst)).
Proof.
  intros Hc. unfold track_best.
  case_bool_decide as Hw.
  { exists b0. split; [exact Hc|]. split; [apply Qle_refl|]. split; [tauto | auto]. }
  case_bool_decide as Hcat; simpl.
  2:{ exists b0. split; [exact Hc|]. split; [apply Qle_refl|]. split; [|auto].
      intros _ <- Hor. exfalso. apply Hcat.
      destruct Hor as [-> | ->]; repeat constructor. }
  assert (Hcat' : class_id inst = 1%nat \/ class_id inst = 2%nat).
  { apply elem_of_cons in Hcat. destruct Hcat as [?|Hcat]; [auto|].
    apply list_elem_of_singleton in Hcat. auto. }
  destruct (best !! class_id inst) as [b|] eqn:Hb.
  2:{ exists b0. split; [exact Hc|]. split; [apply Qle_refl|]. split; [|auto].
      intros _ He. rewrite He in Hb. congruence. }
  destruct (Qltb b (score inst)) eqn:Hlt.
  - destruct (decide (class_id inst = c)) as [He|Hne].
    + subst c. exists (score inst). split.
      { apply list_lookup_insert_eq. eapply lookup_lt_Some; eassumption. }
      assert (b0 = b) by congruence. subst b0.
      split; [apply Qlt_le_weak, Qltb_lt, Hlt|].
      split; [intros; apply Qle_refl|]. right. auto.
    + exists b0. split; [rewrite list_lookup_insert_ne; auto|].
      split; [apply Qle_refl|]. split; [intros; congruence | auto].
  - exists b0. split; [exact Hc|]. split; [apply Qle_refl|]. split; [|auto].
    intros _ He _. subst c. assert (b0 = b) by congruence. subst b0.
    apply Qltb_ge, Hlt.
Qed.

Lemma track_best_fold (worse : list nat) (es : list (nat * Instance)) (best : list Q)
      (c : nat) (b0 : Q) :
  best !! c = Some b0 ->
  exists b,
    fold_left (track_best worse) es best !! c = Some b /\
    (b0 <= b)%Q /\
    (forall j instj, (j, instj) ∈ es -> j ∉ worse -> class_id instj = c ->
                     c = 1%nat \/ c = 2%nat -> (score instj <= b)%Q) /\
    (b = b0 \/ exists j instj, (j, instj) ∈ es /\ (j ∉ worse) /\ class_id instj = c /\
                               (c = 1%nat \/ c = 2%nat) /\ b = score instj).
Proof.
  revert best b0; induction es as [|[i inst] es IH]; intros best b0 Hc; simpl.
  - exists b0. split; [exact Hc|]. split; [apply Qle_refl|].
    split; [intros j instj Hin; inversion Hin | auto].
  - destruct (track_best_step worse best i inst c b0 Hc) as (b1 & H1 & Hle1 & Hub1 & Hat1).
    destruct (IH _ _ H1) as (b & Hb & Hle & Hub & Hat).
    exists b. split; [exact Hb|]. split; [eapply Qle_trans; eassumption|]. split.
    + intros j instj Hin Hw Hcl Hor. apply elem_of_cons in Hin.
      destruct Hin as [Heq | Hin].
      * injection Heq as -> ->. eapply Qle_trans; [apply Hub1; assumption | exact Hle].
      * eapply Hub; eassumption.
    + destruct Hat as [-> | (j & instj & Hin & Hrest)].
      * destruct Hat1 as [-> | (Hw & Hcl & Hor & ->)]; [auto|].
        right. exists i, inst. split; [apply elem_of_cons; auto | auto].
      * right. exists j, instj. split; [apply elem_of_cons; auto | exact Hrest].
Qed.

Lemma elem_of_enumerate (preds : list Instance) (j : nat) (instj : Instance) :
  (j, instj) ∈ imap (fun i inst => (i, inst)) preds <-> preds !! j = Some instj.
Proof.
  rewrite elem_of_lookup_imap. split.
  - intros (i & y & Heq & Hl). injection Heq as -> ->. exact Hl.
  - intros Hl. exists j, instj. auto.
Qed.

(** [best[c]] after the tracking loop: an upper bound of the scores of the
    non-suppressed instances of a unique-role category [c], and either
    zero or the score of one of them. *)
Lemma best_scores_spec (preds : list Instance) (worse : list nat) (c : nat) :
  (c < 4)%nat ->
  exists b,
    best_scores preds worse !! c = Some b /\
    (forall j instj, preds !! j = Some instj -> j ∉ worse -> class_id instj = c ->
                     c = 1%nat \/ c = 2%nat -> (score instj <= b)%Q) /\
    (b = 0%Q \/ exists j instj, preds !! j = Some instj /\ (j ∉ worse) /\
                                class_id instj = c /\ (c = 1%nat \/ c = 2%nat) /\
                                b = score instj).
Proof.
  intros Hc. unfold best_scores.
  assert (H0 : [0; 0; 0; 0]%Q !! c = Some 0%Q).
  { destruct c as [|[|[|[|c]]]]; try reflexivity. lia. }
  destruct (track_best_fold worse (imap (fun i inst => (i, inst)) preds) _ c _ H0)
    as (b & Hb & _ & Hub & Hat).
  exists b. split; [exact Hb|]. split.
  - intros j instj Hl. apply Hub, elem_of_enumerate, Hl.
  - destruct Hat as [-> | (j & instj & Hin & Hrest)]; [auto|].
    right. exists j, instj. split; [apply elem_of_enumerate, Hin | exact Hrest].
Qed.

(** The class an instance goes on with: a non-suppressed recipient or
    sender instance whose score is strictly below the score of another
    non-suppressed instance of its category is given class 3,
    ['address-contact'], and the loop body goes on with the candidate under
    that class; one that no instance of its category outscores keeps its
    class; and a class-3 instance stays class 3. *)
Lemma demotion_decided
        `{K : Shapely} `{U : OcrdUtils} `{CV : OpenCV} `{M : OcrdModels}
        (preds : list Instance) (worse : list nat) (i : nat) (inst : Instance) :
  preds !! i = Some inst -> i ∉ worse ->
  let best := best_scores preds worse in
  (class_id inst = 1%nat \/ class_id inst = 2%nat ->
   (exists j instj, preds !! j = Some instj /\ (j ∉ worse) /\
                    class_id instj = class_id inst /\ (score inst < score instj)%Q) ->
   instance_category worse best i inst = Ok (Some 3%nat) /\
   category_name 3 = Ok "address-contact" /\
   forall image allregions st,
     process_instance image worse best allregions st (i, inst)
     = process_candidate image allregions
         (LOG "debug" "Degrading instance with non-maximum score to class 3" st)
         i inst 3) /\
  (class_id inst = 1%nat \/ class_id inst = 2%nat -> (0 <= score inst)%Q ->
   (forall j instj, preds !! j = Some instj -> j ∉ worse ->
                    class_id instj = class_id inst -> (score instj <= score inst)%Q) ->
   instance_category worse best i inst = Ok (Some (class_id inst))) /\
  (class_id inst = 3%nat -> instance_category worse best i inst = Ok (Some 3%nat)).
Proof.
  intros Hi Hw best. split; [|split].
  - intros Hcat (j & instj & Hj & Hjw & Hjc & Hlt).
    destruct (best_scores_spec preds worse (class_id inst)) as (b & Hb & Hub & _).
    { destruct Hcat as [-> | ->]; lia. }
    assert (Hsb : Qltb (score inst) b = true).
    { apply Qltb_lt. eapply Qlt_le_trans; [exact Hlt|]. apply (Hub j instj); assumption. }
    assert (Hic : instance_category worse best i inst = Ok (Some 3%nat)).
    { unfold instance_category. rewrite bool_decide_eq_false_2 by exact Hw.
      destruct Hcat as [Hc | Hc]; rewrite Hc in *; simpl;
        unfold best_at, best; rewrite Hb; simpl; rewrite Hsb; reflexivity. }
    split; [exact Hic|]. split; [reflexivity|].
    intros image allregions st. unfold process_instance. rewrite Hic. simpl.
    unfold degrading, best. rewrite Hb, Hsb. reflexivity.
  - intros Hcat Hpos Hmax.
    destruct (best_scores_spec preds worse (class_id inst)) as (b & Hb & _ & Hat).
    { destruct Hcat as [-> | ->]; lia. }
    assert (Hsb : Qltb (score inst) b = false).
    { apply Qltb_ge. destruct Hat as [-> | (j & instj & Hj & Hjw & Hjc & _ & ->)].
      - exact Hpos.
      - apply (Hmax j instj); assumption. }
    unfold instance_category. rewrite bool_decide_eq_false_2 by exact Hw.
    destruct Hcat as [Hc | Hc]; rewrite Hc in *; simpl;
      unfold best_at, best; rewrite Hb; simpl; rewrite Hsb; reflexivity.
  - intros Hc.
    destruct (best_scores_spec preds worse 3) as (b & Hb & _ & _); [lia|].
    unfold instance_category. rewrite bool_decide_eq_false_2 by exact Hw.
    rewrite Hc. simpl. unfold best_at, best. rewrite Hb. simpl.
    destruct (Qltb (score inst) b); reflexivity.
Qed.

(** ** Region ids *)

Lemma append_cons (a : Ascii.ascii) (s t : string) :
  String a s +:+ t = String a (s +:+ t).
Proof. reflexivity. Qed.

Lemma append_empty (t : string) : "" +:+ t = t.
Proof. reflexivity. Qed.

Lemma append_inj_l (p x y : string) : p +:+ x = p +:+ y -> x = y.
Proof.
  induction p as [|a p IH]; intros H.
  - exact H.
  - rewrite !append_cons in H. injection H as H. exact (IH H).
Qed.

Lemma parse_fmt_02d (n : nat) : parse_number (fmt_02d n) = Some n.
Proof.
  unfold parse_number, fmt_02d.
  destruct (String.length _ <? 2)%nat.
  - rewrite append_cons, append_empty. cbn [NilEmpty.uint_of_string].
    rewrite NilEmpty.usu.
    change (Some (Nat.of_uint (Nat.to_uint n)) = Some n).
    rewrite DecimalNat.Unsigned.of_to. reflexivity.
  - rewrite NilEmpty.usu. simpl. rewrite DecimalNat.Unsigned.of_to. reflexivity.
Qed.

Lemma fmt_02d_inj (n m : nat) : fmt_02d n = fmt_02d m -> n = m.
Proof.
  intros H. apply (f_equal parse_number) in H.
  rewrite !parse_fmt_02d in H. congruence.
Qed.

Lemma fmt_02d_padded (n : nat) :
  (n < 10)%nat -> fmt_02d n = "0" +:+ NilEmpty.string_of_uint (Nat.to_uint n).
Proof.
  intros H. do 10 (destruct n as [|n]; [reflexivity|]). lia.
Qed.

Lemma address_region_id_inj (i j : nat) :
  address_region_id i = address_region_id j -> i = j.
Proof.
  unfold address_region_id. intros H.
  apply append_inj_l, fmt_02d_inj in H. lia.
Qed.

(** The [k]-th element of a filtered range. *)
Lemma filter_seq_lookup (P : nat -> Prop) {Hdec : forall x, Decision (P x)} (n k i : nat) :
  filter P (seq 0 n) !! k = Some i ->
  P i /\ (i < n)%nat /\ k = length (filter P (seq 0 i)).
Proof.
  induction n as [|n IH]; [discriminate|].
  rewrite seq_S, filter_app. simpl. intros H.
  destruct (decide (k < length (filter P (seq 0 n)))%nat) as [Hk|Hk].
  - rewrite lookup_app_l in H by exact Hk.
    destruct (IH H) as (? & ? & ?). repeat split; auto.
  - rewrite lookup_app_r in H by lia.
    rewrite filter_cons in H. destruct (decide (P n)) as [HP|HP].
    + rewrite filter_nil in H.
      destruct (k - length (filter P (seq 0 n)))%nat as [|d] eqn:E; [|discriminate].
      injection H as <-. repeat split; [exact HP | lia | lia].
    + rewrite filter_nil in H. discriminate.
Qed.

Lemma filter_seq_split (P : nat -> Prop) {Hdec : forall x, Decision (P x)} (n : nat) :
  (length (filter P (seq 0 n)) + length (filter (fun x => ~ P x) (seq 0 n)) = n)%nat.
Proof.
  rewrite <- length_app, (filter_app_complement P (seq 0 n)), length_seq. reflexivity.
Qed.

Lemma filter_not_not_elem (worse : list nat) (l : list nat) :
  filter (fun j : nat => ~ (j ∉ worse)) l = filter (fun j => j ∈ worse) l.
Proof.
  induction l as [|x l IH]; [reflexivity|].
  rewrite !filter_cons, IH.
  destruct (decide (~ (x ∉ worse))) as [H|H], (decide (x ∈ worse)) as [H'|H'];
    try reflexivity; exfalso; tauto.
Qed.

(** The id built from the index of the [k]-th surviving instance: its
    number is [k + 1] plus the number of suppressed instances before it,
    written with at least two digits, and no other index gives this id. *)
Lemma survivor_number (preds : list Instance) (worse : list nat) (k i : nat) :
  filter (fun i => i ∉ worse) (seq 0 (length preds)) !! k = Some i ->
  address_region_id i
  = "addressregion" +:+
      fmt_02d (k + 1 + length (filter (fun j => j ∈ worse) (seq 0 i))) /\
  parse_number (fmt_02d (i + 1)) = Some (i + 1)%nat /\
  ((i + 1 < 10)%nat ->
   fmt_02d (i + 1) = "0" +:+ NilEmpty.string_of_uint (Nat.to_uint (i + 1))) /\
  (forall j, address_region_id i = address_region_id j -> i = j).
Proof.
  intros H. apply filter_seq_lookup in H. destruct H as (_ & _ & Hk).
  split; [|split; [|split]].
  - unfold address_region_id. f_equal. f_equal.
    pose proof (filter_seq_split (fun i => i ∉ worse) i) as Hs.
    cbv beta in Hs. rewrite filter_not_not_elem in Hs. lia.
  - apply parse_fmt_02d.
  - apply fmt_02d_padded.
  - intros j. apply address_region_id_inj.
Qed.

(** ** Polygon repair *)

Section Repair.
Context `{K : Shapely}.

Lemma make_valid_rotate_valid (splits : list Z) (polygon : Polygon) :
  is_valid polygon = true -> make_valid_rotate splits polygon = Ok polygon.
Proof. intros H. destruct splits; simpl; [|rewrite H]; reflexivity. Qed.

Lemma make_valid_simplify_valid (tolerances : list Z) (polygon : Polygon) :
  is_valid polygon = true -> make_valid_simplify tolerances polygon = polygon.
Proof. intros H. destruct tolerances; simpl; [|rewrite H]; reflexivity. Qed.

(** A valid polygon is returned as it is, by both loops. *)
Lemma make_valid_valid (polygon : Polygon) :
  is_valid polygon = true -> make_valid polygon = Ok polygon.
Proof.
  intros H. unfold make_valid. rewrite make_valid_rotate_valid by exact H. simpl.
  rewrite make_valid_simplify_valid by exact H. reflexivity.
Qed.

End Repair.

(** ** Containment lemmas *)

Lemma coords_in_subset (b : box) (l l' : list point) :
  l' ⊆ l -> coords_in b l -> coords_in b l'.
Proof.
  unfold coords_in. rewrite !Forall_forall. intros Hsub H x Hx. apply H, Hsub, Hx.
Qed.

Lemma close_ring_subset (coords : list point) : close_ring coords ⊆ coords.
Proof.
  unfold close_ring. destruct coords as [|c0 l]; [done|].
  destruct (_ || _); [|done].
  intros x Hx. apply elem_of_app in Hx. destruct Hx as [Hx|Hx]; [exact Hx|].
  apply list_elem_of_singleton in Hx. subst x. apply elem_of_cons. auto.
Qed.

Lemma rotate_coords_subset {A} (k : nat) (l : list A) : rotate_coords k l ⊆ l.
Proof.
  unfold rotate_coords. intros x Hx. apply elem_of_app in Hx.
  destruct Hx as [Hx|Hx].
  - rewrite <- (take_drop (length l - k) l). apply elem_of_app. right. exact Hx.
  - rewrite <- (take_drop (length l - k) l). apply elem_of_app. left. exact Hx.
Qed.

Lemma Polygon_of_coords (coords : list point) (p : Polygon) :
  Polygon_of coords = Ok p -> exterior_coords p = close_ring coords.
Proof.
  unfold Polygon_of. intros H. destruct coords as [|c0 l].
  - injection H as <-. reflexivity.
  - destruct (_ <? 3)%nat; [discriminate|]. injection H as <-. reflexivity.
Qed.

Lemma Polygon_of_in (b : box) (coords : list point) (p : Polygon) :
  Polygon_of coords = Ok p -> coords_in b coords -> poly_in b p.
Proof.
  intros H Hin. unfold poly_in. rewrite (Polygon_of_coords _ _ H).
  eapply coords_in_subset; [apply close_ring_subset | exact Hin].
Qed.

Lemma drop_last_subset {A} (l : list A) : drop_last l ⊆ l.
Proof.
  unfold drop_last. intros x Hx. apply list_elem_of_In in Hx.
  apply list_elem_of_In. induction l as [|a l IH]; [exact Hx|].
  simpl in Hx. destruct l as [|a' l]; [destruct Hx|].
  destruct Hx as [->|Hx]; [left; reflexivity | right; apply IH, Hx].
Qed.

(** Rounding keeps a coordinate between integer bounds. *)
Lemma np_round_bounds (lo hi : Z) (x : Q) :
  (inject_Z lo <= x)%Q -> (x <= inject_Z hi)%Q ->
  (inject_Z lo <= inject_Z (np_round x))%Q /\ (inject_Z (np_round x) <= inject_Z hi)%Q.
Proof.
  intros Hlo Hhi.
  assert (Hf : (lo <= Qfloor x)%Z).
  { rewrite <- (Qfloor_Z lo). apply Qfloor_resp_le, Hlo. }
  assert (Hc : (Qfloor x <= hi)%Z).
  { rewrite <- (Qfloor_Z hi). apply Qfloor_resp_le, Hhi. }
  assert (Hup : ((1 # 2) <= x - inject_Z (Qfloor x))%Q -> (Qfloor x + 1 <= hi)%Z).
  { intros Hr. destruct (Z.eq_dec (Qfloor x) hi) as [E|E]; [|lia].
    exfalso. rewrite E in Hr.
    assert (x - inject_Z hi <= 0)%Q.
    { apply (Qplus_le_l _ _ (inject_Z hi)). ring_simplify. exact Hhi. }
    assert (Hbad : ((1 # 2) <= 0)%Q) by (eapply Qle_trans; eassumption).
    unfold Qle in Hbad. simpl in Hbad. lia. }
  unfold np_round. rewrite <- !Zle_Qle.
  destruct (Qcompare_spec (x - inject_Z (Qfloor x)) (1 # 2)) as [E|E|E].
  - destruct (Z.even (Qfloor x)); [lia|].
    split; [lia|]. apply Hup. rewrite E. apply Qle_refl.
  - lia.
  - split; [lia|]. apply Hup, Qlt_le_weak, E.
Qed.

Lemma round_coords_in (w h : Z) (coords : list point) :
  coords_in (page_box w h) coords -> coords_in (page_box w h) (round_coords coords).
Proof.
  unfold coords_in, round_coords. intros H. apply Forall_map.
  eapply Forall_impl; [exact H|]. intros [x y] (Hx0 & Hx1 & Hy0 & Hy1); simpl in *.
  destruct (np_round_bounds 0 w x Hx0 Hx1), (np_round_bounds 0 h y Hy0 Hy1).
  repeat split; assumption.
Qed.

Section Clipping.
Context `{K : Shapely} `{U : OcrdUtils} {L : ShapelyLaws K}.

Lemma Forall_subseteq {A} (P : A -> Prop) (l l' : list A) :
  l' ⊆ l -> Forall P l -> Forall P l'.
Proof. rewrite !Forall_forall. intros Hsub H x Hx. apply H, Hsub, Hx. Qed.

Lemma make_valid_rotate_in (b : box) (splits : list Z) (p p' : Polygon) :
  make_valid_rotate splits p = Ok p' -> poly_in b p -> poly_in b p'.
Proof.
  revert p; induction splits as [|split rest IH]; intros p H Hin; simpl in H.
  - injection H as <-. exact Hin.
  - destruct (_ || _).
    + injection H as <-. exact Hin.
    + inv_bind H. apply (IH a); [exact H|].
      eapply Polygon_of_in; [exact Ha|].
      eapply coords_in_subset; [apply rotate_coords_subset | exact Hin].
Qed.

Lemma make_valid_simplify_in (b : box) (tolerances : list Z) (p : Polygon) :
  poly_in b p -> poly_in b (make_valid_simplify tolerances p).
Proof.
  revert p; induction tolerances as [|t rest IH]; intros p Hin; simpl; [exact Hin|].
  destruct (is_valid p); [exact Hin|]. apply IH, simplify_contained, Hin.
Qed.

(** Repair never leaves a box that holds the polygon. *)
Lemma make_valid_in (b : box) (p p' : Polygon) :
  make_valid p = Ok p' -> poly_in b p -> poly_in b p'.
Proof.
  unfold make_valid. intros H Hin. inv_bind H. injection H as <-.
  apply make_valid_simplify_in. eapply make_valid_rotate_in; eassumption.
Qed.

Lemma canvas_in (w h : Z) :
  (0 <= w)%Z -> (0 <= h)%Z -> coords_in (page_box w h) (canvas_of w h).
Proof.
  intros Hw Hh. rewrite Zle_Qle in Hw, Hh.
  unfold coords_in, canvas_of, page_box.
  repeat constructor; simpl; try apply Qle_refl; assumption.
Qed.

Lemma clip_postprocess_connect (interp : Geometry) :
  clip_postprocess interp
  = (q <- connect_pieces interp;;
     p <- (if clearance_below_1 q
           then (p' <- Polygon_of (round_coords (exterior_coords q));; make_valid p')
           else Ok q);;
     Ok (Some (drop_last (exterior_coords p)))).
Proof.
  unfold clip_postprocess, connect_pieces.
  destruct (match interp with
            | GeometryCollection geoms =>
                unary_union (filter (fun g => positive_area g = true) geoms)
            | _ => Ok interp
            end) as [interp1|e]; [|reflexivity].
  simpl. destruct interp1 as [[q| |]|ps|gs|gs]; reflexivity.
Qed.

Lemma connect_pieces_spec (b : box) (interp : Geometry) (q : Polygon) :
  connect_pieces interp = Ok q -> geom_in b interp ->
  poly_in b q /\ (geom_valid interp -> is_valid q = true).
Proof.
  unfold connect_pieces. intros H Hin. inv_bind H.
  assert (Hin1 : geom_in b a /\ (geom_valid interp -> geom_valid a)).
  { destruct interp as [g|ps|gs|gs]; try (injection Ha as <-; split; [exact Hin | auto]).
    split.
    - eapply unary_union_contained; [exact Ha|].
      eapply Forall_subseteq; [apply list_subseteq_filter | exact Hin].
    - intros Hv. eapply unary_union_valid; [|exact Ha].
      eapply Forall_subseteq; [apply list_subseteq_filter | exact Hv]. }
  destruct Hin1 as [Hin1 Hv1].
  destruct a as [[p| |]|ps|gs|gs]; try discriminate; injection H as <-.
  - split; [exact Hin1 | exact Hv1].
  - split; [apply convex_hull_contained, Hin1|].
    intros Hv. apply convex_hull_valid, Hv1, Hv.
Qed.

(** The run against a page without a Border, by its exits: the child is
    within the page rectangle and returned; or it is clipped to [q],
    which is returned, or rounded, repaired and returned. *)
Lemma polygon_for_parent_run (polygon : list point) (page : PageType) (r : list point) :
  Border page = None ->
  polygon_for_parent polygon (ParentPage page) = Ok (Some r) ->
  exists childp0 parentp0 childp parentp,
    Polygon_of polygon = Ok childp0 /\ Polygon_of (canvas page) = Ok parentp0 /\
    make_valid childp0 = Ok childp /\ make_valid parentp0 = Ok parentp /\
    ((within childp parentp = Ok true /\ r = drop_last (exterior_coords childp)) \/
     (within childp parentp = Ok false /\
      exists interp q,
        intersection childp parentp = Ok interp /\
        connect_pieces interp = Ok q /\
        clipped polygon page = Ok (Some q) /\
        ((clearance_below_1 q = false /\ r = drop_last (exterior_coords q)) \/
         (clearance_below_1 q = true /\
          exists p p', Polygon_of (round_coords (exterior_coords q)) = Ok p /\
                       make_valid p = Ok p' /\ r = drop_last (exterior_coords p'))))).
Proof.
  intros HB H. unfold polygon_for_parent in H.
  inv_bind H. rename a into childp0, Ha into Hc0.
  inv_bind H. rename a into parentp0, Ha into Hp0.
  unfold parent_polygon in Hp0. rewrite HB in Hp0.
  inv_bind H. rename a into childp, Ha into Hc.
  inv_bind H. rename a into parentp, Ha into Hp.
  inv_bind H. rename a into inside, Ha into Hin.
  exists childp0, parentp0, childp, parentp.
  split; [exact Hc0|]. split; [exact Hp0|]. split; [exact Hc|]. split; [exact Hp|].
  destruct inside.
  - injection H as <-. left. auto.
  - right. split; [exact Hin|].
    inv_bind H. rename a into interp, Ha into Hi.
    destruct (geom_is_empty interp || Qeq_bool (geom_area interp) 0) eqn:He; [discriminate|].
    rewrite clip_postprocess_connect in H. inv_bind H. rename a into q, Ha into Hq.
    exists interp, q. split; [exact Hi|]. split; [exact Hq|].
    split.
    { unfold clipped. rewrite Hc0, bind_ret_l, Hp0, bind_ret_l, Hc, bind_ret_l, Hp,
        bind_ret_l, Hin, bind_ret_l, Hi, bind_ret_l, He, Hq. reflexivity. }
    inv_bind H. injection H as <-.
    destruct (clearance_below_1 q).
    + right. split; [reflexivity|]. inv_bind Ha. eauto.
    + left. injection Ha as <-. auto.
Qed.

(** Against a page without a Border, a non-null result lies within the
    page rectangle, whichever exit the run took. *)
Lemma clip_in_page (polygon : list point) (page : PageType) (r : list point) :
  Border page = None ->
  (0 <= imageWidth page)%Z -> (0 <= imageHeight page)%Z ->
  polygon_for_parent polygon (ParentPage page) = Ok (Some r) ->
  coords_in (page_box (imageWidth page) (imageHeight page)) r.
Proof.
  intros HB Hw Hh H.
  set (b := page_box (imageWidth page) (imageHeight page)).
  destruct (polygon_for_parent_run polygon page r HB H)
    as (childp0 & parentp0 & childp & parentp & Hc0 & Hp0 & Hc & Hp & Hrun).
  assert (Hpin : poly_in b parentp).
  { eapply make_valid_in; [exact Hp|]. eapply Polygon_of_in; [exact Hp0|].
    apply canvas_in; assumption. }
  destruct Hrun as [(Hin & ->) | (Hin & interp & q & Hi & Hq & _ & Hend)].
  - eapply coords_in_subset; [apply drop_last_subset|].
    eapply within_contained; eassumption.
  - destruct (connect_pieces_spec b interp q Hq) as (Hqin & _).
    { eapply intersection_contained; eassumption. }
    destruct Hend as [(_ & ->) | (_ & p & p' & Hp1 & Hp2 & ->)].
    + eapply coords_in_subset; [apply drop_last_subset | exact Hqin].
    + eapply coords_in_subset; [apply drop_last_subset|].
      eapply make_valid_in; [exact Hp2|]. eapply Polygon_of_in; [exact Hp1|].
      apply round_coords_in, Hqin.
Qed.


Lemma Polygon_of_open_ring (r : list point) :
  open_ring r ->
  exists c0, c0 ∈ r /\ Polygon_of r = Ok (mkPolygon (r ++ [c0])).
Proof.
  intros [Hlen Hopen]. destruct r as [|c0 l]; [simpl in Hlen; lia|].
  exists c0. split; [apply elem_of_cons; auto|].
  unfold Polygon_of.
  destruct (length (c0 :: l) <? 3)%nat eqn:E; [apply Nat.ltb_lt in E; lia|].
  unfold close_ring. destruct Hopen as [H3 | Hne].
  - rewrite H3. reflexivity.
  - rewrite (Hne c0 eq_refl). rewrite orb_true_r. reflexivity.
Qed.

(** A valid polygon whose coordinates lie in the page rectangle is within
    it, and is returned as it is. *)
Lemma clip_of_valid_in_page (page : PageType) (r : list point) (p : Polygon) :
  Border page = None ->
  (0 < imageWidth page)%Z -> (0 < imageHeight page)%Z ->
  Polygon_of r = Ok p -> is_valid p = true -> exterior_coords p <> [] ->
  coords_in (page_box (imageWidth page) (imageHeight page)) r ->
  polygon_for_parent r (ParentPage page) = Ok (Some (drop_last (exterior_coords p))).
Proof.
  intros HB Hw Hh Hp Hv Hne Hin.
  assert (Hp0 : Polygon_of (canvas page) = Ok (mkPolygon (close_ring (canvas page))))
    by reflexivity.
  assert (Hvp : is_valid (mkPolygon (close_ring (canvas page))) = true).
  { apply (canvas_valid (imageWidth page) (imageHeight page)); [lia | lia | exact Hp0]. }
  unfold polygon_for_parent. rewrite Hp, bind_ret_l.
  unfold parent_polygon. rewrite HB, Hp0, bind_ret_l.
  rewrite (make_valid_valid _ Hv), bind_ret_l.
  rewrite (make_valid_valid _ Hvp), bind_ret_l.
  rewrite (within_complete _ (imageWidth page) (imageHeight page) _ Hp0 Hv Hne).
  - reflexivity.
  - eapply Polygon_of_in; eassumption.
Qed.

Lemma drop_last_shorter {A} (l : list A) : l <> [] -> drop_last l <> l.
Proof.
  intros Hne E. apply (f_equal (@length A)) in E.
  destruct l as [|a l]; [congruence|].
  rewrite (app_removelast_last a Hne) in E at 2.
  rewrite length_app in E. unfold drop_last in E. simpl in E. lia.
Qed.


End Clipping.

(** ** The box model keeps the contracts *)

Module BoxLaws.
Import BoxWorld.

Lemma box_leb_le (a b : box) : box_leb a b = true <-> box_le a b.
Proof.
  destruct a as [[[x0 y0] x1] y1], b as [[[u0 v0] u1] v1]. unfold box_leb, box_le.
  rewrite !andb_true_iff, !Qle_bool_iff. tauto.
Qed.

Lemma box_le_trans (a b c : box) : box_le a b -> box_le b c -> box_le a c.
Proof.
  destruct a as [[[x0 y0] x1] y1], b as [[[u0 v0] u1] v1], c as [[[s0 t0] s1] t1].
  unfold box_le. intros (? & ? & ? & ?) (? & ? & ? & ?).
  repeat split; eapply Qle_trans; eassumption.
Qed.

Lemma in_box_le (a b : box) (c : point) : box_le a b -> in_box a c -> in_box b c.
Proof.
  destruct a as [[[x0 y0] x1] y1], b as [[[u0 v0] u1] v1].
  unfold box_le, in_box. intros (? & ? & ? & ?) (? & ? & ? & ?).
  repeat split; eapply Qle_trans; eassumption.
Qed.

Lemma Qmin_l (x y : Q) : (Qmin x y <= x)%Q.
Proof.
  unfold Qmin. destruct (Qle_bool x y) eqn:E; [apply Qle_refl|].
  apply Qlt_le_weak, Qltb_lt. unfold Qltb. rewrite E. reflexivity.
Qed.

Lemma Qmin_r (x y : Q) : (Qmin x y <= y)%Q.
Proof.
  unfold Qmin. destruct (Qle_bool x y) eqn:E; [apply Qle_bool_iff, E | apply Qle_refl].
Qed.

Lemma Qmin_glb (x y z : Q) : (z <= x)%Q -> (z <= y)%Q -> (z <= Qmin x y)%Q.
Proof. unfold Qmin. destruct (Qle_bool x y); auto. Qed.

Lemma Qmax_l (x y : Q) : (x <= Qmax x y)%Q.
Proof.
  unfold Qmax. destruct (Qle_bool x y) eqn:E; [apply Qle_bool_iff, E | apply Qle_refl].
Qed.

Lemma Qmax_r (x y : Q) : (y <= Qmax x y)%Q.
Proof.
  unfold Qmax. destruct (Qle_bool x y) eqn:E; [apply Qle_refl|].
  apply Qlt_le_weak, Qltb_lt. unfold Qltb. rewrite E. reflexivity.
Qed.

Lemma Qmax_lub (x y z : Q) : (x <= z)%Q -> (y <= z)%Q -> (Qmax x y <= z)%Q.
Proof. unfold Qmax. destruct (Qle_bool x y); auto. Qed.

Lemma extend_le (b : box) (c : point) : box_le b (extend b c).
Proof.
  destruct b as [[[x0 y0] x1] y1]. unfold extend, box_le.
  repeat split; first [apply Qmin_l | apply Qmax_l].
Qed.

Lemma extend_in (b : box) (c : point) : in_box (extend b c) c.
Proof.
  destruct b as [[[x0 y0] x1] y1]. unfold extend, in_box.
  repeat split; first [apply Qmin_r | apply Qmax_r].
Qed.

Lemma extend_least (b b' : box) (c : point) :
  box_le b b' -> in_box b' c -> box_le (extend b c) b'.
Proof.
  destruct b as [[[x0 y0] x1] y1], b' as [[[u0 v0] u1] v1].
  unfold extend, box_le, in_box. intros (? & ? & ? & ?) (? & ? & ? & ?).
  repeat split; first [apply Qmin_glb | apply Qmax_lub]; assumption.
Qed.

Lemma hull_box_le (l : list point) (b : box) : box_le b (hull_box b l).
Proof.
  revert b; induction l as [|c l IH]; intros b; simpl.
  - destruct b as [[[x0 y0] x1] y1]. repeat split; apply Qle_refl.
  - eapply box_le_trans; [apply extend_le | apply IH].
Qed.

Lemma hull_box_in (l : list point) (b : box) : coords_in (hull_box b l) l.
Proof.
  revert b; induction l as [|c l IH]; intros b; simpl; constructor.
  - eapply in_box_le; [apply hull_box_le | apply extend_in].
  - apply IH.
Qed.

Lemma hull_box_least (l : list point) (b b' : box) :
  box_le b b' -> coords_in b' l -> box_le (hull_box b l) b'.
Proof.
  revert b; induction l as [|c l IH]; intros b Hb Hl; simpl; [exact Hb|].
  inversion Hl; subst. apply IH; [apply extend_least; assumption | assumption].
Qed.

Lemma point_box_in (c : point) : in_box (fst c, snd c, fst c, snd c) c.
Proof. repeat split; apply Qle_refl. Qed.

Lemma point_box_le (c : point) (b : box) :
  in_box b c -> box_le (fst c, snd c, fst c, snd c) b.
Proof.
  destruct b as [[[u0 v0] u1] v1]. unfold in_box, box_le. tauto.
Qed.

(** The bounding box holds its points, and lies in every box that does. *)
Lemma bbox_in (coords : list point) (a : box) :
  bbox coords = Some a -> coords_in a coords.
Proof.
  destruct coords as [|c l]; [discriminate|]. intros H. injection H as <-.
  constructor; [|apply hull_box_in].
  eapply in_box_le; [apply hull_box_le | apply point_box_in].
Qed.

Lemma bbox_least (coords : list point) (a b : box) :
  bbox coords = Some a -> coords_in b coords -> box_le a b.
Proof.
  destruct coords as [|c l]; [discriminate|]. intros H Hin. injection H as <-.
  inversion Hin; subst. apply hull_box_least; [apply point_box_le|]; assumption.
Qed.

Lemma bbox_Some (coords : list point) :
  coords <> [] -> exists a, bbox coords = Some a.
Proof. destruct coords; [congruence | eauto]. Qed.

Lemma proper_inhabited (b : box) :
  proper b = true ->
  let '(x0, y0, x1, y1) := b in (x0 < x1)%Q /\ (y0 < y1)%Q.
Proof.
  destruct b as [[[x0 y0] x1] y1]. unfold proper.
  rewrite andb_true_iff, !Qltb_lt. tauto.
Qed.

Lemma Qle_bool_refl (x : Q) : Qle_bool x x = true.
Proof. apply Qle_bool_iff, Qle_refl. Qed.

Lemma Qle_bool_lt (x y : Q) : (x < y)%Q -> Qle_bool x y = true /\ Qle_bool y x = false.
Proof.
  intros H. split; [apply Qle_bool_iff, Qlt_le_weak, H|].
  apply Qltb_lt in H. unfold Qltb in H. apply negb_true_iff in H. exact H.
Qed.

Lemma bbox_box_ring (b : box) : proper b = true -> bbox (box_ring b) = Some b.
Proof.
  intros H. apply proper_inhabited in H. destruct b as [[[x0 y0] x1] y1].
  destruct H as [Hx Hy].
  destruct (Qle_bool_lt _ _ Hx) as [Hx1 Hx2], (Qle_bool_lt _ _ Hy) as [Hy1 Hy2].
  unfold bbox, box_ring, hull_box. cbn [fold_left extend fst snd].
  unfold Qmin, Qmax.
  repeat first [ rewrite Qle_bool_refl | rewrite Hx1 | rewrite Hy1
               | rewrite Hx2 | rewrite Hy2 ].
  reflexivity.
Qed.

Lemma box_ring_in (o b : box) :
  proper o = true -> box_le o b -> coords_in b (box_ring o).
Proof.
  intros Hp Hle. eapply Forall_impl; [apply bbox_in, bbox_box_ring, Hp|].
  intros c. apply in_box_le, Hle.
Qed.

Lemma box_ring_valid (o : box) : proper o = true -> box_is_valid (mkPolygon (box_ring o)) = true.
Proof.
  intros H. unfold box_is_valid, box_of. cbn [exterior_coords].
  rewrite bbox_box_ring by exact H. exact H.
Qed.

Lemma meet_le_r (a b : box) : box_le (meet a b) b.
Proof.
  destruct a as [[[x0 y0] x1] y1], b as [[[u0 v0] u1] v1]. unfold meet, box_le.
  repeat split; first [apply Qmax_r | apply Qmin_r].
Qed.

Lemma polygons_of_in (b : box) (gs : list Part) :
  Forall (part_in b) gs -> Forall (poly_in b) (polygons_of gs).
Proof.
  unfold polygons_of. induction 1 as [|g gs Hg _ IH]; [constructor|].
  destruct g; simpl; [constructor; assumption | assumption | assumption].
Qed.

Lemma polygons_of_valid (gs : list Part) :
  Forall part_valid gs -> Forall (fun p => is_valid p = true) (polygons_of gs).
Proof.
  unfold polygons_of. induction 1 as [|g gs Hg _ IH]; [constructor|].
  destruct g; simpl; [constructor; assumption | assumption | assumption].
Qed.

Lemma canvas_ring (w h : Z) (p : Polygon) :
  (0 < w)%Z -> Polygon_of (canvas_of w h) = Ok p ->
  exterior_coords p = box_ring (page_box w h).
Proof.
  intros Hw H. rewrite (Polygon_of_coords _ _ H).
  unfold close_ring, canvas_of, page_box, box_ring, point_eqb.
  cbn [length Nat.eqb orb List.last fst snd].
  assert (E : Qeq_bool 0 (inject_Z w) = false).
  { destruct (Qeq_bool 0 (inject_Z w)) eqn:E; [|reflexivity].
    apply Qeq_bool_iff in E. unfold Qeq in E. simpl in E. lia. }
  rewrite E. reflexivity.
Qed.

#[export] Instance box_laws : ShapelyLaws box_shapely.
Proof.
  constructor.
  - (* within_contained *)
    intros c p b H Hp. cbn in H. injection H as H. unfold box_within, box_of in H.
    destruct (bbox (exterior_coords c)) as [a|] eqn:Ea; [|discriminate].
    destruct (bbox (exterior_coords p)) as [bp|] eqn:Eb; [|discriminate].
    apply box_leb_le in H.
    eapply Forall_impl; [apply (bbox_in _ _ Ea)|].
    intros x. apply in_box_le. eapply box_le_trans; [exact H|].
    eapply bbox_least; eassumption.
  - (* intersection_contained *)
    intros c p g b H Hp. cbn in H. injection H as <-. unfold box_intersection, box_of.
    destruct (bbox (exterior_coords c)) as [a|] eqn:Ea; [|constructor].
    destruct (bbox (exterior_coords p)) as [bp|] eqn:Eb; [|constructor].
    destruct (proper (meet a bp)) eqn:Ep.
    + apply box_ring_in; [exact Ep|].
      eapply box_le_trans; [apply meet_le_r | eapply bbox_least; eassumption].
    + destruct (inhabited (meet a bp)); [|constructor].
      destruct (meet a bp) as [[[x0 y0] x1] y1]. exact I.
  - (* unary_union_contained *)
    intros gs g b H Hin. cbn in H. injection H as <-. unfold box_unary_union.
    apply polygons_of_in in Hin.
    destruct (polygons_of gs) as [|p [|p' ps]]; [constructor | | exact Hin].
    inversion Hin; assumption.
  - (* convex_hull_contained *)
    intros ps b Hin. cbn. unfold box_convex_hull.
    destruct (bbox (concat (map exterior_coords ps))) as [o|] eqn:Eo; [|constructor].
    destruct (proper o) eqn:Ep; [|constructor].
    apply box_ring_in; [exact Ep|]. eapply bbox_least; [exact Eo|].
    unfold coords_in. apply Forall_concat, Forall_map. exact Hin.
  - (* simplify_contained *)
    intros p tolerance b H. exact H.
  - (* intersection_valid *)
    intros c p g _ _ H. cbn in H. injection H as <-. unfold box_intersection.
    destruct (box_of c) as [a|]; [|constructor].
    destruct (box_of p) as [bp|]; [|constructor].
    destruct (proper (meet a bp)) eqn:Ep.
    + apply box_ring_valid, Ep.
    + destruct (inhabited (meet a bp)); [|constructor].
      destruct (meet a bp) as [[[x0 y0] x1] y1]. exact I.
  - (* unary_union_valid *)
    intros gs g Hv H. cbn in H. injection H as <-. unfold box_unary_union.
    apply polygons_of_valid in Hv.
    destruct (polygons_of gs) as [|p [|p' ps]]; [constructor | | exact Hv].
    inversion Hv; assumption.
  - (* convex_hull_valid *)
    intros ps _. cbn. unfold box_convex_hull.
    destruct (bbox (concat (map exterior_coords ps))) as [o|]; [|reflexivity].
    destruct (proper o) eqn:Ep; [apply box_ring_valid, Ep | reflexivity].
  - (* canvas_valid *)
    intros w h p Hw Hh H. cbn. unfold box_is_valid, box_of.
    rewrite (canvas_ring w h p Hw H).
    assert (Hp : proper (page_box w h) = true).
    { unfold proper, page_box. apply andb_true_iff.
      split; apply Qltb_lt; rewrite <- (Zlt_Qlt 0); assumption. }
    rewrite bbox_box_ring by exact Hp. exact Hp.
  - (* within_complete *)
    intros c w h p Hp Hv Hne Hin. cbn in Hv |- *. f_equal.
    unfold box_within, box_is_valid, box_of in *.
    destruct (bbox_Some _ Hne) as [a Ea]. rewrite Ea in *.
    assert (Hcanvas : canvas_of w h ⊆ exterior_coords p).
    { rewrite (Polygon_of_coords _ _ Hp). unfold close_ring, canvas_of.
      destruct (_ || _); [|done]. intros x Hx. apply elem_of_app. auto. }
    assert (Hpne : exterior_coords p <> []).
    { intros E. rewrite E in Hcanvas.
      specialize (Hcanvas (0%Q, 0%Q)). unfold canvas_of in Hcanvas.
      assert (Hbad : (0%Q, 0%Q) ∈ @nil point) by (apply Hcanvas, elem_of_cons; auto).
      inversion Hbad. }
    destruct (bbox_Some _ Hpne) as [bp Eb]. rewrite Eb.
    apply box_leb_le.
    eapply box_le_trans; [eapply bbox_least; eassumption|].
    pose proof (bbox_in _ _ Eb) as Hall. unfold coords_in in Hall.
    rewrite Forall_forall in Hall.
    assert (H0 : in_box bp (0%Q, 0%Q)).
    { apply Hall, Hcanvas. unfold canvas_of. apply elem_of_cons. auto. }
    assert (H1 : in_box bp (inject_Z w, inject_Z h)).
    { apply Hall, Hcanvas. unfold canvas_of. do 2 (apply elem_of_cons; right).
      apply elem_of_cons. auto. }
    destruct bp as [[[u0 v0] u1] v1]. unfold in_box, page_box, box_le in *.
    simpl in *. tauto.
Qed.

(** In the box model a ring on one line has a box without height. *)
Lemma flat_bbox (coords : list point) (k : Z) (x0 y0 x1 y1 : Q) :
  on_line k coords -> bbox coords = Some (x0, y0, x1, y1) ->
  (y0 == inject_Z k)%Q /\ (y1 == inject_Z k)%Q.
Proof.
  intros Hline Hb.
  pose proof (bbox_in _ _ Hb) as Hin.
  assert (Hin' : coords_in (x0, inject_Z k, x1, inject_Z k) coords).
  { unfold coords_in, on_line in *. rewrite Forall_forall in *.
    intros c Hc. specialize (Hin c Hc). specialize (Hline c Hc).
    simpl in *. destruct Hin as (? & ? & _ & _).
    repeat split; try assumption; rewrite Hline; apply Qle_refl. }
  pose proof (bbox_least _ _ _ Hb Hin') as (_ & Hlo & _ & Hhi).
  destruct coords as [|c l]; [discriminate|].
  unfold coords_in, on_line in *.
  apply Forall_cons in Hin, Hline. destruct Hin as ((_ & _ & Hy0 & Hy1) & _).
  destruct Hline as (Hc & _). simpl in *. rewrite Hc in Hy0, Hy1.
  split; apply Qle_antisym; assumption.
Qed.

#[export] Instance box_flat_laws : FlatLaws box_shapely.
Proof.
  split.
  - intros p k Hline. simpl. unfold box_area, box_of.
    destruct (bbox (exterior_coords p)) as [[[[x0 y0] x1] y1]|] eqn:Hb; [|reflexivity].
    destruct (flat_bbox _ _ _ _ _ _ Hline Hb) as (E0 & E1).
    rewrite E0, E1. ring.
  - intros p k Hne Hline. simpl. unfold box_is_valid, box_of.
    destruct (bbox_Some _ Hne) as ([[[x0 y0] x1] y1] & Hb). rewrite Hb.
    destruct (flat_bbox _ _ _ _ _ _ Hline Hb) as (E0 & E1).
    unfold proper. apply andb_false_iff. right.
    unfold Qltb. apply negb_false_iff, Qle_bool_iff. rewrite E0, E1. apply Qle_refl.
Qed.

End BoxLaws.

(** ** Reading-order references of a removed neighbour *)

(** One retargeting (lines 344-348): the element the dictionary holds for
    the neighbour's id is made to refer to the new id, no other element is
    touched or dropped, and the neighbour's id is no longer a key; the new
    id is a key unless it is the neighbour's id, and an element that
    referred to another id before is one more element referring to the
    new id. *)
Lemma retarget_step
        (st : State) (neighbour_id new_id : string) (roelem : addr) :
  reading_order st !! neighbour_id = Some roelem ->
  let st' := retarget_reading_order neighbour_id new_id st in
  ro_regionRef st' !! roelem = Some new_id /\
  (forall a, a <> roelem -> ro_regionRef st' !! a = ro_regionRef st !! a) /\
  (forall a, is_Some (ro_regionRef st !! a) -> is_Some (ro_regionRef st' !! a)) /\
  reading_order st' !! neighbour_id = None /\
  (neighbour_id <> new_id -> reading_order st' !! new_id = Some roelem) /\
  (forall old, ro_regionRef st !! roelem = Some old -> old <> new_id ->
               referring (ro_regionRef st') new_id
               = S (referring (ro_regionRef st) new_id)).
Proof.
  intros H st'. subst st'. unfold retarget_reading_order. rewrite H.
  cbn [set_reading_order ro_regionRef reading_order].
  split; [apply lookup_insert_eq|].
  split; [intros a Ha; apply lookup_insert_ne; congruence|].
  split.
  { intros a Ha. destruct (decide (a = roelem)) as [->|Hne].
    - rewrite lookup_insert_eq. eauto.
    - rewrite lookup_insert_ne by congruence. exact Ha. }
  split; [apply lookup_delete_eq|].
  split.
  { intros Hne. rewrite lookup_delete_ne by exact Hne. apply lookup_insert_eq. }
  intros old Hold Hne. unfold referring.
  rewrite map_filter_insert_True by reflexivity.
  apply map_size_insert_None.
  destruct (filter _ (ro_regionRef st) !! roelem) as [x|] eqn:E; [|reflexivity].
  pose proof (map_lookup_filter_Some_1_1 _ _ _ _ E) as E1.
  pose proof (map_lookup_filter_Some_1_2 _ _ _ _ E) as E2.
  simpl in E2. congruence.
Qed.

(** When the neighbour already has the id of the new region, its element
    keeps its reference and the dictionary loses the entry. *)
Lemma retarget_same_id (st : State) (id : string) (roelem : addr) :
  reading_order st !! id = Some roelem ->
  ro_regionRef (retarget_reading_order id id st) !! roelem = Some id /\
  reading_order (retarget_reading_order id id st) !! id = None.
Proof.
  intros H. unfold retarget_reading_order. rewrite H.
  cbn [set_reading_order ro_regionRef reading_order].
  split; [apply lookup_insert_eq | apply lookup_delete_eq].
Qed.

(** * Runs on concrete pages *)

Section ClipRuns.
Import BoxWorld Collaborators BoxLaws Scenarios.

Lemma outline_witness :
  has_outline (ParentPage bordered_page) /\
  polygon_for_parent overhang (ParentPage bordered_page)
  = Raise (NameError "polygon_from_points").
Proof.
  assert (H : has_outline (ParentPage bordered_page)) by (simpl; discriminate).
  split; [exact H|].
  exact (proj2 (polygon_for_parent_outline_NameError overhang
                  (ParentPage bordered_page) H) eq_refl).
Defined.


(** On this run it is the repair of the rounded clip that came back
    invalid. *)
Example sliver_unrepaired :
  exists q p p',
    clipped sliver page20 = Ok (Some q) /\ clearance_below_1 q = true /\
    Polygon_of (round_coords (exterior_coords q)) = Ok p /\
    make_valid p = Ok p' /\ is_valid p' = false /\
    flat_ring = drop_last (exterior_coords p').
Proof.
  do 3 eexists. split; [vm_compute; reflexivity|].
  split; [vm_compute; reflexivity|]. split; [vm_compute; reflexivity|].
  split; [vm_compute; reflexivity|]. split; vm_compute; reflexivity.
Qed.



End ClipRuns.

Section DriverRuns.
Import BoxWorld Collaborators BoxLaws Scenarios.

(** *** Suppression and numbering *)

Lemma suppression_witness :
  suppression triplets = Ok [0; 0; 1]%nat /\
  (forall k, k ∈ [0; 0; 1]%nat ->
     exists i j pi pj,
       (i < j)%nat /\ triplets !! i = Some pi /\ triplets !! j = Some pj /\
       overlapping (mask pi) (mask pj) = Ok true /\
       k = if Qltb (score pi) (score pj) then i else j).
Proof.
  assert (H : suppression triplets = Ok [0; 0; 1]%nat) by (vm_compute; reflexivity).
  split; [exact H|].
  exact (proj1 (proj2 (suppression_marks_losers triplets _ H))).
Defined.

(** C5, as stated, fails with three mutual duplicates: the masks of
    instances 0 and 1 coincide, and both end up suppressed, instance 0 by
    this pair and instance 1 by its pair with instance 2. *)
Lemma suppression_both_of_pair :
  suppression triplets = Ok [0; 0; 1]%nat /\
  masks_overlap triplets 0 1 = Ok true /\
  0%nat ∈ [0; 0; 1]%nat /\ 1%nat ∈ [0; 0; 1]%nat.
Proof.
  split; [vm_compute; reflexivity|]. split; [vm_compute; reflexivity|].
  split; set_solver.
Qed.

End DriverRuns.

Section PageRuns.
Import BoxWorld Collaborators BoxLaws Scenarios.

(** *** A candidate outside the page *)

Lemma null_clip_witness :
  mask_contour (blank_image 14 14) (mask outside)
  = Ok [ (0, 0); (0, 1); (1, 1); (1, 0) ]%Q /\
  @coordinates_for_segment deskewed_utils [ (0, 0); (0, 1); (1, 1); (1, 0) ]%Q
  = [ (-5, 4); (-4, 4); (-3, 4); (-4, 3) ]%Q /\
  @polygon_for_parent box_shapely deskewed_utils
    [ (-5, 4); (-4, 4); (-3, 4); (-4, 3) ]%Q (ParentPage page10) = Ok None /\
  @process_instance box_shapely deskewed_utils rect_opencv
    (blank_image 14 14) [] (best_scores [outside; inside] []) []
    (initial_state ∅ page10) (0%nat, outside)
  = Raise (NameError "category").
Proof.
  assert (Hc : mask_contour (blank_image 14 14) (mask outside)
               = Ok [ (0, 0); (0, 1); (1, 1); (1, 0) ]%Q) by (vm_compute; reflexivity).
  assert (H : @polygon_for_parent box_shapely deskewed_utils
                (@coordinates_for_segment deskewed_utils
                   [ (0, 0); (0, 1); (1, 1); (1, 0) ]%Q)
                (ParentPage (page (initial_state ∅ page10))) = Ok None)
    by (vm_compute; reflexivity).
  split; [exact Hc|]. split; [vm_compute; reflexivity|]. split; [exact H|].
  refine (proj1 (@null_clip_raises_NameError box_shapely deskewed_utils rect_opencv
                   (blank_image 14 14) []
                   (best_scores [outside; inside] []) [] (initial_state ∅ page10)
                   0 outside 1 [ (0, 0); (0, 1); (1, 1); (1, 0) ]%Q _ _ Hc H));
    vm_compute; reflexivity.
Defined.

(** The page's pass ends in that [NameError]; the second detection, which
    lies inside the page, is never looked at. *)
Example null_clip_aborts_page :
  @process_page box_shapely deskewed_utils rect_opencv document_models
    ∅ page10 (blank_image 14 14) [outside; inside]
  = Raise (NameError "category").
Proof. vm_compute. reflexivity. Qed.

(** Without the first detection the pass completes. *)
Example inside_alone_completes :
  is_Ok (@process_page box_shapely deskewed_utils rect_opencv document_models
           ∅ page10 (blank_image 14 14) [inside]) = true.
Proof. vm_compute. reflexivity. Qed.

(** *** A candidate over two paragraphs *)

(** C6. None of the three lines is an address line: the candidate is not
    added, and yet both paragraphs are gone from the page, their lines
    were renamed, and their reading-order references point at a region
    that is not there. *)
Theorem ghost_candidate_removes_siblings :
  exists st,
    process_page (two_paragraphs None) page12 (blank_image 12 8) [cover] = Ok st /\
    page_TextRegion page12 = [1; 2]%nat /\
    page_TextRegion (page st) = [] /\
    oldregions st = [1; 2]%nat /\
    (line_id <$> region_TextLine (paragraph1 None)) = [ "r1_l1"; "r1_l2" ] /\
    (map line_id ∘ region_TextLine <$> heap st !! 1%nat)
    = Some [ "addressregion01_line00"; "addressregion01_line01" ] /\
    ro_regionRef st !! 1%nat = Some "addressregion01" /\
    List.last (log st) ("", "") = ("info", "Ignoring region without any address lines").
Proof.
  eexists. split; [vm_compute; reflexivity|].
  repeat split; vm_compute; reflexivity.
Qed.


End PageRuns.

(** * More of the pass *)

(** ** The reading-order dictionary (lines 191-197 and 431-450) *)

Lemma ROElem_nested_ind (P : ROElem -> Prop) :
  (forall i a r, P (RegionRef i a r)) ->
  (forall i a r cs, Forall P cs -> P (OrderedGroup i a r cs)) ->
  (forall i a r cs, Forall P cs -> P (UnorderedGroup i a r cs)) ->
  forall e, P e.
Proof.
  intros H1 H2 H3. fix IH 1. intros [i a r|i a r cs|i a r cs].
  - apply H1.
  - apply H2. induction cs as [|c cs IHcs]; constructor; [apply IH | exact IHcs].
  - apply H3. induction cs as [|c cs IHcs]; constructor; [apply IH | exact IHcs].
Qed.

Lemma fold_left_flat_map {A B S} (f : S -> B -> S) (g : A -> list B) (l : list A) (s : S) :
  fold_left f (flat_map g l) s = fold_left (fun s x => fold_left f (g x) s) l s.
Proof.
  revert s; induction l as [|x l IH]; intros s; simpl; [reflexivity|].
  rewrite fold_left_app. apply IH.
Qed.

(** The recursive traversal enters the elements below the group one
    after the other, in the order of [ro_descendants]. *)
Lemma page_get_reading_order_flat (g : ROElem) (ro : gmap string addr) :
  page_get_reading_order ro g = fold_left ro_enter (ro_descendants g) ro.
Proof.
  revert ro. induction g as [i a r|i a r cs IH|i a r cs IH] using ROElem_nested_ind;
    intros ro; [reflexivity| |].
  - simpl. rewrite fold_left_flat_map. revert ro.
    induction IH as [|c cs Hc _ IHcs]; intros ro; [reflexivity|].
    simpl. rewrite <- IHcs. f_equal. rewrite <- Hc.
    destruct c; reflexivity.
  - simpl. rewrite fold_left_flat_map. revert ro.
    induction IH as [|c cs Hc _ IHcs]; intros ro; [reflexivity|].
    simpl. rewrite <- IHcs. f_equal. rewrite <- Hc.
    destruct c; reflexivity.
Qed.

Lemma ro_attributes_children (cs : list ROElem) :
  Forall (fun c => forall s, ro_attributes s c
                             = fold_left ro_store (c :: ro_descendants c) s) cs ->
  forall s, fold_left ro_attributes cs s
            = fold_left ro_store (flat_map (fun c => c :: ro_descendants c) cs) s.
Proof.
  intros IH. induction IH as [|c cs Hc _ IHcs]; intros s; [reflexivity|].
  cbn [flat_map fold_left]. rewrite Hc, fold_left_app. apply IHcs.
Qed.

Lemma ro_attributes_flat (g : ROElem) (store : gmap addr string) :
  ro_attributes store g = fold_left ro_store (g :: ro_descendants g) store.
Proof.
  revert store. induction g as [i a r|i a r cs IH|i a r cs IH] using ROElem_nested_ind;
    intros store; [reflexivity| |].
  - cbn [ro_attributes ro_descendants fold_left].
    rewrite (ro_attributes_children cs IH). reflexivity.
  - cbn [ro_attributes ro_descendants fold_left].
    rewrite (ro_attributes_children cs IH). reflexivity.
Qed.

(** Lookups in a map built by entering the elements of a list one after
    the other. *)
Section FoldInsert.
Context {Key : Type} `{Countable Key} {V E : Type} (key : E -> Key) (val : E -> V).

Lemma fold_insert_snoc (l : list E) (x : E) (m : gmap Key V) :
  fold_left (fun m e => <[key e := val e]> m) (l ++ [x]) m
  = <[key x := val x]> (fold_left (fun m e => <[key e := val e]> m) l m).
Proof. rewrite fold_left_app. reflexivity. Qed.

Lemma fold_insert_frame (l : list E) (m : gmap Key V) (k : Key) :
  k ∉ map key l -> fold_left (fun m e => <[key e := val e]> m) l m !! k = m !! k.
Proof.
  induction l as [|x l IH] using rev_ind; intros Hk; [reflexivity|].
  rewrite fold_insert_snoc. rewrite map_app, elem_of_app in Hk.
  rewrite lookup_insert_ne.
  - apply IH. tauto.
  - intros Heq. apply Hk. right. simpl. rewrite Heq. apply list_elem_of_singleton. reflexivity.
Qed.

Lemma fold_insert_Some (l : list E) (m : gmap Key V) (k : Key) (v : V) :
  fold_left (fun m e => <[key e := val e]> m) l m !! k = Some v ->
  m !! k = Some v \/ exists e, e ∈ l /\ key e = k /\ val e = v.
Proof.
  induction l as [|x l IH] using rev_ind; intros Hk; [left; exact Hk|].
  rewrite fold_insert_snoc in Hk.
  destruct (decide (key x = k)) as [Heq|Hne].
  - subst k. rewrite lookup_insert_eq in Hk. injection Hk as <-.
    right. exists x.
    split; [apply elem_of_app; right; apply list_elem_of_singleton; reflexivity | auto].
  - rewrite lookup_insert_ne in Hk by exact Hne.
    destruct (IH Hk) as [?|(e & He & ?)]; [left; assumption|].
    right. exists e. split; [apply elem_of_app; left; exact He | assumption].
Qed.

Lemma fold_insert_covered (l : list E) (m : gmap Key V) (e : E) :
  e ∈ l ->
  exists e', e' ∈ l /\ key e' = key e /\
             fold_left (fun m e => <[key e := val e]> m) l m !! key e = Some (val e').
Proof.
  induction l as [|x l IH] using rev_ind; intros He; [inversion He|].
  rewrite fold_insert_snoc.
  destruct (decide (key x = key e)) as [Heq|Hne].
  - exists x. split; [apply elem_of_app; right; apply list_elem_of_singleton; reflexivity|].
    split; [exact Heq|]. rewrite <- Heq. apply lookup_insert_eq.
  - apply elem_of_app in He. destruct He as [He|He].
    + destruct (IH He) as (e' & He' & Hk & Hl). exists e'.
      split; [apply elem_of_app; left; exact He'|]. split; [exact Hk|].
      rewrite lookup_insert_ne by exact Hne. exact Hl.
    + apply list_elem_of_singleton in He. subst x. congruence.
Qed.

Lemma fold_insert_NoDup (l : list E) (m : gmap Key V) (e : E) :
  NoDup (map key l) -> e ∈ l ->
  fold_left (fun m e => <[key e := val e]> m) l m !! key e = Some (val e).
Proof.
  induction l as [|x l IH] using rev_ind; intros Hnd He; [inversion He|].
  rewrite fold_insert_snoc. rewrite map_app in Hnd.
  apply NoDup_app in Hnd. destruct Hnd as (Hl & Hdisj & _).
  apply elem_of_app in He. destruct He as [He|He].
  - rewrite lookup_insert_ne; [apply IH; assumption|].
    intros Heq. apply (Hdisj (key e)).
    + apply list_elem_of_fmap. exists e. auto.
    + simpl. rewrite Heq. apply list_elem_of_singleton. reflexivity.
  - apply list_elem_of_singleton in He. subst x. apply lookup_insert_eq.
Qed.

End FoldInsert.

(** X1. After [page_get_reading_order(ro, rogroup)] the dictionary has an
    entry for the [regionRef] of every element below the group, at any
    depth, and the entry is an element with that [regionRef]; every entry
    is one of those or was in [ro] before; and the keys that are no
    [regionRef] below the group are as they were.  The group itself is
    not entered. *)
Theorem reading_order_entries (ro : gmap string addr) (rogroup : ROElem) :
  (forall e, e ∈ ro_descendants rogroup ->
     exists e', e' ∈ ro_descendants rogroup /\ get_regionRef e' = get_regionRef e /\
                page_get_reading_order ro rogroup !! get_regionRef e = Some (ro_addr e')) /\
  (forall id a, page_get_reading_order ro rogroup !! id = Some a ->
     ro !! id = Some a \/
     exists e, e ∈ ro_descendants rogroup /\ get_regionRef e = id /\ ro_addr e = a) /\
  (forall id, id ∉ map get_regionRef (ro_descendants rogroup) ->
     page_get_reading_order ro rogroup !! id = ro !! id).
Proof.
  rewrite page_get_reading_order_flat. split; [|split].
  - intros e He. apply (fold_insert_covered get_regionRef ro_addr _ _ _ He).
  - intros id a. apply (fold_insert_Some get_regionRef ro_addr).
  - intros id. apply (fold_insert_frame get_regionRef ro_addr).
Qed.

(** X2. When no two elements below the group refer to the same region,
    the dictionary maps the [regionRef] of each of them to that very
    element. *)
Theorem reading_order_distinct_refs (ro : gmap string addr) (rogroup e : ROElem) :
  NoDup (map get_regionRef (ro_descendants rogroup)) ->
  e ∈ ro_descendants rogroup ->
  page_get_reading_order ro rogroup !! get_regionRef e = Some (ro_addr e).
Proof.
  intros Hnd He. rewrite page_get_reading_order_flat.
  apply (fold_insert_NoDup get_regionRef ro_addr _ _ _ Hnd He).
Qed.

(** The dictionary of lines 191-197 agrees with the tree it was read
    from, the elements of the tree being distinct objects. *)
Lemma initial_reading_order_consistent (h : gmap addr TextRegionType) (p : PageType) :
  (forall g, ReadingOrder p = Some g -> NoDup (map ro_addr (g :: ro_descendants g))) ->
  ro_consistent (ro_regionRef (initial_state h p)) (reading_order (initial_state h p)).
Proof.
  intros Hnd id a. unfold initial_state. simpl.
  destruct (ReadingOrder p) as [g|]; [|rewrite lookup_empty; discriminate].
  specialize (Hnd g eq_refl).
  rewrite page_get_reading_order_flat, ro_attributes_flat. intros Hl.
  apply (fold_insert_Some get_regionRef ro_addr) in Hl.
  destruct Hl as [Hl|(e & He & <- & <-)]; [rewrite lookup_empty in Hl; discriminate|].
  apply (fold_insert_NoDup ro_addr get_regionRef _ _ _ Hnd).
  apply elem_of_cons. right. exact He.
Qed.

Lemma retarget_consistent (refs : gmap addr string) (ro : gmap string addr)
      (nid rid : string) (a : addr) :
  ro_consistent refs ro -> ro !! nid = Some a ->
  ro_consistent (<[a := rid]> refs) (delete nid (<[rid := a]> ro)).
Proof.
  intros Hc Ha id b Hl.
  destruct (decide (id = nid)) as [->|Hne]; [rewrite lookup_delete_eq in Hl; discriminate|].
  rewrite lookup_delete_ne in Hl by congruence.
  destruct (decide (id = rid)) as [->|Hne'].
  - rewrite lookup_insert_eq in Hl. injection Hl as <-. apply lookup_insert_eq.
  - rewrite lookup_insert_ne in Hl by congruence.
    pose proof (Hc _ _ Hl) as Hb. pose proof (Hc _ _ Ha) as Ha'.
    rewrite lookup_insert_ne; [exact Hb|]. intros ->. congruence.
Qed.

(** ** The steps of the driver *)

Lemma same_but_log_refl (st : State) : same_but_log st st.
Proof. repeat split. Qed.

Lemma same_but_log_trans (st1 st2 st3 : State) :
  same_but_log st1 st2 -> same_but_log st2 st3 -> same_but_log st1 st3.
Proof.
  intros (?&?&?&?&?) (?&?&?&?&?). repeat split; congruence.
Qed.

Lemma same_but_log_LOG (level message : string) (st : State) :
  same_but_log st (LOG level message st).
Proof. repeat split. Qed.

Lemma same_attributes_refl (r : TextRegionType) : same_attributes r r.
Proof. repeat split. Qed.

Lemma same_attributes_trans (r1 r2 r3 : TextRegionType) :
  same_attributes r1 r2 -> same_attributes r2 r3 -> same_attributes r1 r3.
Proof.
  intros (?&?&?&?&?&?) (?&?&?&?&?&?). repeat split; congruence.
Qed.

Section DriverSteps.
Context `{K : Shapely} `{U : OcrdUtils} `{CV : OpenCV}.

Lemma steal_line_inv (c : Candidate) (n : nat) (st : State) (line : TextLineType)
      (c' : Candidate) (n' : nat) (st' : State) :
  steal_line (c, n, st) line = Ok (c', n', st') ->
  n' = S n /\ st' = LOG "debug" "stealing text line" st /\
  same_attributes (region c) (region c') /\
  region_TextEquiv (region c') = region_TextEquiv (region c) /\
  region_TextLine (region c')
  = region_TextLine (region c)
    ++ [set_line_id (region_id (region c) +:+ "_line" +:+ fmt_02d n) line] /\
  has_address c' = is_address_line line || has_address c.
Proof.
  unfold steal_line. intros H.
  inv_bind H. inv_bind H. destruct a0.
  - injection H as <- <- <-. cbn.
    destruct (is_address_line line); repeat split.
  - inv_bind H. inv_bind H. injection H as <- <- <-. cbn.
    destruct (is_address_line line); repeat split.
Qed.

Lemma steal_lines_inv (lines : list TextLineType) (c : Candidate) (n : nat) (st : State)
      (c' : Candidate) (n' : nat) (st' : State) :
  foldM steal_line lines (c, n, st) = Ok (c', n', st') ->
  n' = (n + length lines)%nat /\ same_but_log st st' /\
  same_attributes (region c) (region c') /\
  region_TextEquiv (region c') = region_TextEquiv (region c) /\
  region_TextLine (region c')
  = region_TextLine (region c) ++ stolen_lines (region_id (region c)) n lines /\
  has_address c' = existsb is_address_line lines || has_address c.
Proof.
  revert c n st. induction lines as [|line lines IH]; intros c n st H.
  - injection H as <- <- <-. unfold stolen_lines. simpl. rewrite app_nil_r.
    repeat split. lia.
  - simpl in H. inv_bind H. destruct a as [[c1 n1] st1].
    apply steal_line_inv in Ha. destruct Ha as (-> & -> & Hattr & Hte & Hl & Hh).
    apply IH in H. destruct H as (-> & Hlog & Hattr' & Hte' & Hl' & Hh').
    split; [simpl; lia|].
    split; [eapply same_but_log_trans; [apply same_but_log_LOG | exact Hlog]|].
    split; [eapply same_attributes_trans; eassumption|].
    split; [congruence|]. split.
    + rewrite Hl', Hl. destruct Hattr as (Hid & _). rewrite Hid.
      rewrite <- app_assoc. f_equal. unfold stolen_lines. simpl.
      rewrite Nat.add_0_r. f_equal. apply imap_ext. intros k x _. simpl.
      replace (n + S k)%nat with (S (n + k)) by lia. reflexivity.
    + rewrite Hh', Hh. simpl. rewrite orb_assoc.
      f_equal. apply orb_comm.
Qed.

Lemma list_remove_inv (x : addr) (l l' : list addr) :
  list_remove x l = Ok l' ->
  x ∈ l /\ (forall a, a ∈ l' -> a ∈ l) /\ (forall a, a ∈ l -> a <> x -> a ∈ l') /\
  length l = S (length l') /\ (NoDup l -> NoDup l' /\ x ∉ l').
Proof.
  revert l'; induction l as [|y l IH]; intros l' H; simpl in H; [discriminate|].
  destruct (x =? y)%nat eqn:E.
  - apply Nat.eqb_eq in E. subst y. injection H as <-.
    split; [apply elem_of_cons; auto|]. split; [intros a Ha; apply elem_of_cons; auto|].
    split; [|split; [reflexivity|]].
    + intros a Ha Hne. apply elem_of_cons in Ha. tauto.
    + intros Hnd. apply NoDup_cons in Hnd. tauto.
  - apply Nat.eqb_neq in E.
    inv_bind H. injection H as <-. destruct (IH _ Ha) as (Hx & Hsub & Hkeep & Hlen & Hnd).
    split; [apply elem_of_cons; auto|]. split; [|split; [|split]].
    + intros b Hb. apply elem_of_cons in Hb. apply elem_of_cons.
      destruct Hb as [?|Hb]; [auto | right; apply Hsub, Hb].
    + intros b Hb Hne. apply elem_of_cons in Hb. apply elem_of_cons.
      destruct Hb as [?|Hb]; [auto | right; apply Hkeep; assumption].
    + simpl. lia.
    + intros Hnd'. apply NoDup_cons in Hnd'. destruct Hnd' as (Hy & Hl).
      destruct (Hnd Hl) as (Hnd1 & Hx1). split.
      * apply NoDup_cons. split; [intros Hy'; apply Hy, Hsub, Hy' | exact Hnd1].
      * intros Hx'. apply elem_of_cons in Hx'. destruct Hx' as [?|?]; [congruence | auto].
Qed.

Lemma remove_from_parent_inv (neighbour : addr) (n : TextRegionType) (st st' : State) :
  remove_from_parent neighbour n st = Ok st' ->
  ro_regionRef st' = ro_regionRef st /\ reading_order st' = reading_order st /\
  oldregions st' = oldregions st /\
  dom (heap st') = dom (heap st) /\
  ((parent_object_ n = OfPage /\
    list_remove neighbour (page_TextRegion (page st)) = Ok (page_TextRegion (page st'))) \/
   (parent_object_ n <> OfPage /\ page st' = page st)) /\
  (forall a, lines_of (heap st') a = lines_of (heap st) a) /\
  (forall a, parent_object_ <$> heap st' !! a = parent_object_ <$> heap st !! a) /\
  (forall a, region_id <$> heap st' !! a = region_id <$> heap st !! a).
Proof.
  unfold remove_from_parent. intros H.
  destruct (parent_object_ n) as [| |pa] eqn:Hp; [discriminate| |].
  - inv_bind H. injection H as <-. cbn.
    split; [reflexivity|]. split; [reflexivity|]. split; [reflexivity|].
    split; [reflexivity|]. split; [left; auto | auto].
  - destruct (heap st !! pa) as [parent|] eqn:Hpa; [|discriminate].
    inv_bind H. injection H as <-. cbn.
    split; [reflexivity|]. split; [reflexivity|]. split; [reflexivity|].
    split; [|split; [|split; [|split]]].
    + apply set_eq. intros x. rewrite dom_insert, elem_of_union, elem_of_singleton.
      split; [|auto]. intros [->|?]; [|assumption]. apply elem_of_dom. eauto.
    + right. split; [discriminate | reflexivity].
    + intros b. unfold lines_of. destruct (decide (b = pa)) as [->|Hne].
      * rewrite lookup_insert_eq, Hpa. reflexivity.
      * rewrite lookup_insert_ne by congruence. reflexivity.
    + intros b. destruct (decide (b = pa)) as [->|Hne].
      * rewrite lookup_insert_eq, Hpa. reflexivity.
      * rewrite lookup_insert_ne by congruence. reflexivity.
    + intros b. destruct (decide (b = pa)) as [->|Hne].
      * rewrite lookup_insert_eq, Hpa. reflexivity.
      * rewrite lookup_insert_ne by congruence. reflexivity.
Qed.

Lemma retarget_reading_order_fields (nid rid : string) (st : State) :
  heap (retarget_reading_order nid rid st) = heap st /\
  page (retarget_reading_order nid rid st) = page st /\
  oldregions (retarget_reading_order nid rid st) = oldregions st.
Proof. unfold retarget_reading_order. destruct (reading_order st !! nid); repeat split. Qed.

Lemma retarget_reading_order_ext (nid rid : string) (st1 st2 : State) :
  ro_regionRef st1 = ro_regionRef st2 -> reading_order st1 = reading_order st2 ->
  ro_regionRef (retarget_reading_order nid rid st1)
  = ro_regionRef (retarget_reading_order nid rid st2) /\
  reading_order (retarget_reading_order nid rid st1)
  = reading_order (retarget_reading_order nid rid st2).
Proof.
  intros H1 H2. unfold retarget_reading_order. rewrite H2.
  destruct (reading_order st2 !! nid); cbn; rewrite ?H1, ?H2; auto.
Qed.

Lemma subsume_inv (c : Candidate) (neighbour : addr) (n : TextRegionType) (st : State)
      (c' : Candidate) (st' : State) :
  subsume c neighbour n st = Ok (c', st') ->
  same_attributes (region c) (region c') /\
  region_TextLine (region c')
  = region_TextLine (region c)
    ++ stolen_lines (region_id (region c)) (length (region_TextLine (region c)))
                    (region_TextLine n) /\
  region_TextEquiv (region c') = joined_text (region c') /\
  has_address c' = existsb is_address_line (region_TextLine n) || has_address c /\
  oldregions st' = oldregions st ++ [neighbour] /\
  ro_regionRef st'
  = ro_regionRef (retarget_reading_order (region_id n) (region_id (region c)) st) /\
  reading_order st'
  = reading_order (retarget_reading_order (region_id n) (region_id (region c)) st) /\
  dom (heap st') = {[neighbour]} ∪ dom (heap st) /\
  ((parent_object_ n = OfPage /\
    list_remove neighbour (page_TextRegion (page st)) = Ok (page_TextRegion (page st'))) \/
   (parent_object_ n <> OfPage /\ page st' = page st)) /\
  (forall a, a <> neighbour -> lines_of (heap st') a = lines_of (heap st) a) /\
  (heap st !! neighbour = Some n ->
   forall a, parent_object_ <$> heap st' !! a = parent_object_ <$> heap st !! a /\
             region_id <$> heap st' !! a = region_id <$> heap st !! a).
Proof.
  unfold subsume. intros H. inv_bind H. destruct a as [[c1 n1] st1].
  apply steal_lines_inv in Ha.
  destruct Ha as (_ & Hlog & Hattr & Hte & Hl & Hh).
  inv_bind H. injection H as <- <-.
  apply remove_from_parent_inv in Ha.
  destruct Ha as (Hrefs & Hro & Hold & Hdom & Hpage & Hlines & Hparent & Hids).
  destruct Hlog as (Hheap1 & Hpage1 & Hrefs1 & Hro1 & Hold1).
  cbn in Hrefs, Hro, Hold, Hdom, Hpage, Hlines, Hparent, Hids,
         Hheap1, Hpage1, Hrefs1, Hro1, Hold1.
  destruct (retarget_reading_order_fields (region_id n) (region_id (region c1)) a)
    as (Hh2 & Hp2 & Ho2).
  assert (Hid : region_id (region c1) = region_id (region c)) by apply Hattr.
  split.
  { destruct Hattr as (?&?&?&?&?&?). repeat split; cbn; assumption. }
  split; [cbn; exact Hl|].
  split; [reflexivity|].
  split; [cbn; exact Hh|].
  split; [rewrite Ho2, Hold; cbn; rewrite Hold1; reflexivity|].
  cbn [region set_TextEquiv region_id].
  destruct (retarget_reading_order_ext (region_id n) (region_id (region c1)) a st)
    as (He1 & He2); [congruence | congruence |].
  split; [rewrite He1, Hid; reflexivity|].
  split; [rewrite He2, Hid; reflexivity|].
  split.
  { rewrite Hh2, Hdom. rewrite dom_insert_L, Hheap1. reflexivity. }
  rewrite Hp2, Hh2. rewrite Hpage1 in Hpage.
  split; [exact Hpage|]. split.
  - intros b Hb. rewrite Hlines. unfold lines_of.
    rewrite lookup_insert_ne by congruence. rewrite Hheap1. reflexivity.
  - intros Hn b. rewrite Hparent, Hids, Hheap1.
    destruct (decide (b = neighbour)) as [->|Hne].
    + rewrite !lookup_insert_eq, Hn. split; reflexivity.
    + rewrite !lookup_insert_ne by congruence. split; reflexivity.
Qed.

(** What a subsumption does to the page's own list of regions. *)
Lemma subsume_page (c : Candidate) (neighbour : addr) (n : TextRegionType) (st : State)
      (c' : Candidate) (st' : State) :
  subsume c neighbour n st = Ok (c', st') ->
  (forall a, a ∈ page_TextRegion (page st') -> a ∈ page_TextRegion (page st)) /\
  (forall a, a ∈ page_TextRegion (page st) -> a <> neighbour ->
             a ∈ page_TextRegion (page st')) /\
  (NoDup (page_TextRegion (page st)) -> NoDup (page_TextRegion (page st'))) /\
  (parent_object_ n = OfPage -> NoDup (page_TextRegion (page st)) ->
   neighbour ∉ page_TextRegion (page st')).
Proof.
  intros H. apply subsume_inv in H.
  destruct H as (_ & _ & _ & _ & _ & _ & _ & _ & Hpage & _).
  destruct Hpage as [(Hp & Hr) | (Hp & ->)].
  - apply list_remove_inv in Hr. destruct Hr as (_ & Hsub & Hkeep & _ & Hnd).
    split; [exact Hsub|]. split; [exact Hkeep|].
    split; [intros H; apply Hnd, H | intros _ H; apply Hnd, H].
  - split; [auto|]. split; [auto|]. split; [auto | intros; contradiction].
Qed.

(** What a subsumption does to the other objects of the heap: nothing,
    or, to the neighbour's parent region, the removal of the neighbour
    from its list of regions. *)
Lemma remove_from_parent_others (neighbour : addr) (n : TextRegionType) (st st' : State)
      (a : addr) :
  remove_from_parent neighbour n st = Ok st' ->
  heap st' !! a = heap st !! a \/
  exists parent l,
    heap st !! a = Some parent /\ heap st' !! a = Some (set_region_TextRegion l parent) /\
    list_remove neighbour (region_TextRegion parent) = Ok l.
Proof.
  unfold remove_from_parent. intros H.
  destruct (parent_object_ n) as [| |pa]; [discriminate| |].
  - inv_bind H. injection H as <-. left. reflexivity.
  - destruct (heap st !! pa) as [parent|] eqn:Hpa; [|discriminate].
    inv_bind H. injection H as <-. cbn.
    destruct (decide (a = pa)) as [->|Hne].
    + right. exists parent, a0. rewrite lookup_insert_eq. auto.
    + left. apply lookup_insert_ne. congruence.
Qed.

Lemma subsume_others (c : Candidate) (neighbour : addr) (n : TextRegionType) (st : State)
      (c' : Candidate) (st' : State) (a : addr) :
  subsume c neighbour n st = Ok (c', st') -> a <> neighbour ->
  heap st' !! a = heap st !! a \/
  exists parent l,
    heap st !! a = Some parent /\ heap st' !! a = Some (set_region_TextRegion l parent) /\
    list_remove neighbour (region_TextRegion parent) = Ok l.
Proof.
  unfold subsume. intros H Hne. inv_bind H. destruct a0 as [[c1 n1] st1].
  apply steal_lines_inv in Ha. destruct Ha as (_ & (Hheap1 & _) & _).
  inv_bind H. injection H as <- <-.
  rewrite (proj1 (retarget_reading_order_fields _ _ _)).
  apply (remove_from_parent_others _ _ _ _ a) in Ha. cbn in Ha, Hheap1.
  rewrite lookup_insert_ne in Ha by congruence. rewrite Hheap1 in Ha. exact Ha.
Qed.

Lemma reconcile_cases (scale : Z) (c : Candidate) (st : State) (neighbour : addr)
      (neighpoly : Polygon) (c' : Candidate) (st' : State) :
  reconcile scale (c, st) (neighbour, neighpoly) = Ok (c', st') ->
  (c' = c /\ same_but_log st st') \/
  (exists n, (neighbour ∉ oldregions st) /\ heap st !! neighbour = Some n /\
             classify neighpoly (region_poly c) scale = Ok Redundant /\
             subsume c neighbour n st = Ok (c', st')).
Proof.
  unfold reconcile. intros H. case_bool_decide as Hold.
  - injection H as <- <-. left. split; [reflexivity | apply same_but_log_refl].
  - inv_bind H. destruct a.
    + destruct (heap st !! neighbour) as [n|] eqn:Hn; [|discriminate].
      right. exists n. auto.
    + injection H as <- <-. left. split; [reflexivity | apply same_but_log_LOG].
    + injection H as <- <-. left. split; [reflexivity | apply same_but_log_LOG].
    + injection H as <- <-. left. split; [reflexivity | apply same_but_log_refl].
Qed.

Lemma reconcile_fold_ind (P : Candidate -> State -> Prop) (scale : Z)
      (regions : list addr) :
  (forall c st st', same_but_log st st' -> P c st -> P c st') ->
  (forall c st neighbour n c' st',
      P c st -> neighbour ∈ regions -> neighbour ∉ oldregions st ->
      heap st !! neighbour = Some n ->
      subsume c neighbour n st = Ok (c', st') -> P c' st') ->
  forall allregions c st c' st',
    map fst allregions ⊆ regions ->
    P c st -> foldM (reconcile scale) allregions (c, st) = Ok (c', st') -> P c' st'.
Proof.
  intros Hlog Hsub allregions.
  induction allregions as [|[neighbour neighpoly] rest IH]; intros c st c' st' Hin HP H.
  - injection H as <- <-. exact HP.
  - simpl in H. inv_bind H. destruct a as [c1 st1].
    assert (Hrest : map fst rest ⊆ regions).
    { intros x Hx. apply Hin. simpl. apply elem_of_cons. auto. }
    assert (Hn : neighbour ∈ regions).
    { apply Hin. simpl. apply elem_of_cons. auto. }
    apply reconcile_cases in Ha.
    destruct Ha as [(-> & Hl) | (n & Hold & Hhn & _ & Hs)].
    + eapply IH; [exact Hrest| |exact H]. eapply Hlog; eassumption.
    + eapply IH; [exact Hrest| |exact H]. eapply Hsub; eassumption.
Qed.

Lemma map_result_region_polygon_of (h : gmap addr TextRegionType) (l : list addr)
      (allregions : list (addr * Polygon)) :
  map_result (region_polygon_of h) l = Ok allregions -> map fst allregions = l.
Proof.
  revert allregions; induction l as [|a l IH]; intros allregions H; simpl in H.
  - injection H as <-. reflexivity.
  - apply bind_Ok in H as (y & Hy & H). apply bind_Ok in H as (ys & Hys & H).
    injection H as <-. simpl. rewrite (IH _ Hys). f_equal.
    unfold region_polygon_of in Hy. destruct (h !! a); [|discriminate].
    apply bind_Ok in Hy as (q & _ & Hy). injection Hy as <-. reflexivity.
Qed.

Context `{M : OcrdModels}.

Lemma process_candidate_inv (image : PageImage) (allregions : list (addr * Polygon))
      (st : State) (i : nat) (inst : Instance) (cat : nat) (st' : State) :
  process_candidate image allregions st i inst cat = Ok st' ->
  exists name region_polygon new_poly c st0 st1,
    category_name cat = Ok name /\ same_but_log st st0 /\
    foldM (reconcile (mask_scale (mask inst))) allregions
          (mkCandidate (candidate_region i inst name region_polygon) new_poly false, st0)
    = Ok (c, st1) /\
    ((has_address c = true /\ st' = add_TextRegion (region c) st1) \/
     (has_address c = false /\ same_but_log st1 st')).
Proof.
  unfold process_candidate. intros H.
  inv_bind H. rename a into name. inv_bind H. inv_bind H.
  destruct a0 as [region_polygon|]; [|inv_bind H; discriminate].
  inv_bind H. rename a0 into new_poly. inv_bind H. destruct a0 as [c st1].
  exists name, region_polygon, new_poly, c.
  eexists. exists st1. split; [exact Ha|]. split; [|split; [exact Ha3|]].
  - eapply same_but_log_trans; apply same_but_log_LOG.
  - destruct (has_address c); injection H as <-.
    + left. auto.
    + right. split; [reflexivity | apply same_but_log_LOG].
Qed.

Lemma process_instance_inv (image : PageImage) (worse : list nat) (best : list Q)
      (allregions : list (addr * Polygon)) (st : State) (i : nat) (inst : Instance)
      (st' : State) :
  process_instance image worse best allregions st (i, inst) = Ok st' ->
  (instance_category worse best i inst = Ok None /\ same_but_log st st') \/
  exists cat name region_polygon new_poly c st0 st1,
    instance_category worse best i inst = Ok (Some cat) /\
    category_name cat = Ok name /\ same_but_log st st0 /\
    foldM (reconcile (mask_scale (mask inst))) allregions
          (mkCandidate (candidate_region i inst name region_polygon) new_poly false, st0)
    = Ok (c, st1) /\
    ((has_address c = true /\ st' = add_TextRegion (region c) st1) \/
     (has_address c = false /\ same_but_log st1 st')).
Proof.
  unfold process_instance. intros H. inv_bind H. destruct a as [cat|].
  - right. apply process_candidate_inv in H.
    destruct H as (name & region_polygon & new_poly & c & st0 & st1 & Hn & Hl & Hf & Hend).
    exists cat, name, region_polygon, new_poly, c, st0, st1.
    split; [exact Ha|]. split; [exact Hn|]. split; [|auto].
    eapply same_but_log_trans; [|exact Hl].
    destruct (degrading best inst); [apply same_but_log_LOG | apply same_but_log_refl].
  - injection H as <-. left. split; [exact Ha | apply same_but_log_LOG].
Qed.

Lemma map_result_region_polygon_of_Some (h : gmap addr TextRegionType) (l : list addr)
      (allregions : list (addr * Polygon)) :
  map_result (region_polygon_of h) l = Ok allregions -> forall a, a ∈ l -> is_Some (h !! a).
Proof.
  revert allregions; induction l as [|x l IH]; intros allregions H a Ha; simpl in H.
  - inversion Ha.
  - apply bind_Ok in H as (y & Hy & H). apply bind_Ok in H as (ys & Hys & _).
    apply elem_of_cons in Ha. destruct Ha as [->|Ha]; [|eapply IH; eassumption].
    unfold region_polygon_of in Hy. destruct (h !! x); [eauto | discriminate].
Qed.

Lemma process_page_inv (h : gmap addr TextRegionType) (p : PageType)
      (image : PageImage) (preds : list Instance) (st : State) :
  process_page h p image preds = Ok st ->
  exists allregions worse st0,
    map_result (region_polygon_of h) (get_AllRegions h p) = Ok allregions /\
    suppression preds = Ok worse /\ same_but_log (initial_state h p) st0 /\
    foldM (process_instance image worse (best_scores preds worse) allregions)
          (imap (fun i inst => (i, inst)) preds) st0 = Ok st.
Proof.
  unfold process_page. intros H. inv_bind H. inv_bind H.
  exists a, a0. eexists. split; [exact Ha|]. split; [exact Ha0|]. split; [|exact H].
  destruct (forallb _ _); [apply same_but_log_LOG | apply same_but_log_refl].
Qed.

(** The regions the pass looks at are objects of the document. *)
Lemma allregions_on_heap (h : gmap addr TextRegionType) (p : PageType)
      (image : PageImage) (preds : list Instance) (st : State) :
  process_page h p image preds = Ok st ->
  forall a, a ∈ get_AllRegions h p -> is_Some (h !! a).
Proof.
  intros H. apply process_page_inv in H. destruct H as (allregions & _ & _ & Hall & _).
  eapply map_result_region_polygon_of_Some. exact Hall.
Qed.

(** An invariant of the page's pass: kept by logging, by every
    subsumption under the id of a detected instance, and by adding a
    region once something was subsumed. *)
Lemma process_page_invariant (P : State -> Prop) (h : gmap addr TextRegionType)
      (p : PageType) (image : PageImage) (preds : list Instance) (st : State) :
  (forall st st', same_but_log st st' -> P st -> P st') ->
  (forall i c neighbour n st c' st',
      (i < length preds)%nat -> region_id (region c) = address_region_id i ->
      P st -> neighbour ∈ get_AllRegions h p -> neighbour ∉ oldregions st ->
      heap st !! neighbour = Some n ->
      subsume c neighbour n st = Ok (c', st') -> P st') ->
  (forall r st, P st -> oldregions st <> [] -> P (add_TextRegion r st)) ->
  P (initial_state h p) -> process_page h p image preds = Ok st -> P st.
Proof.
  intros Hlog Hsub Hadd H0 H.
  apply process_page_inv in H.
  destruct H as (allregions & worse & st0 & Hall & _ & Hl0 & H).
  apply map_result_region_polygon_of in Hall.
  assert (HP0 : P st0) by (eapply Hlog; eassumption).
  clear H0 Hl0.
  assert (Hin : forall e, e ∈ imap (fun i inst => (i, inst)) preds ->
                          (e.1 < length preds)%nat).
  { intros [i inst] He. apply elem_of_enumerate in He. simpl.
    eapply lookup_lt_Some; eassumption. }
  revert st0 HP0 H Hin. generalize (imap (fun i inst => (i, inst)) preds) as entries.
  induction entries as [|[i inst] entries IH]; intros st0 HP0 H Hin.
  - injection H as <-. exact HP0.
  - simpl in H. inv_bind H.
    apply IH in H; [exact H| |intros e He; apply Hin, elem_of_cons; auto].
    assert (Hi : (i < length preds)%nat) by (apply (Hin (i, inst)), elem_of_cons; auto).
    apply process_instance_inv in Ha.
    destruct Ha as [(_ & Hl) | (cat & name & rp & np & c & s0 & s1 & _ & _ & Hl & Hf & Hend)].
    + eapply Hlog; eassumption.
    + assert (HP : region_id (region c) = address_region_id i /\ P s1 /\
                   (has_address c = true -> oldregions s1 <> [])).
      { refine (reconcile_fold_ind
                  (fun c s => region_id (region c) = address_region_id i /\ P s /\
                              (has_address c = true -> oldregions s <> []))
                  _ (get_AllRegions h p) _ _ _ _ _ _ _ _ _ Hf).
        - intros c1 st1 st1' Hl1 (Hid & HP1 & Hh). split; [exact Hid|].
          split; [eapply Hlog; eassumption|].
          destruct Hl1 as (_ & _ & _ & _ & Ho). rewrite Ho. exact Hh.
        - intros c1 st1 neighbour n c1' st1' (Hid & HP1 & Hh) Hreg Hold Hn Hs.
          pose proof (subsume_inv _ _ _ _ _ _ Hs) as (Hattr & _ & _ & _ & Ho & _).
          split; [destruct Hattr as (-> & _); exact Hid|].
          split; [eapply Hsub; eassumption|].
          intros _. rewrite Ho. intros E. apply app_eq_nil in E. destruct E; discriminate.
        - rewrite Hall. reflexivity.
        - split; [reflexivity|]. split; [eapply Hlog; eassumption | discriminate]. }
      destruct HP as (_ & HP1 & Hh).
      destruct Hend as [(Ht & ->) | (_ & Hl1)].
      * apply Hadd; auto.
      * eapply Hlog; eassumption.
Qed.

Lemma foldM_enumerate_from {A St} (f : St -> nat * A -> result St) (Inv : nat -> St -> Prop)
      (l : list A) (k : nat) (s s' : St) :
  foldM f (imap (fun i x => ((k + i)%nat, x)) l) s = Ok s' ->
  Inv k s ->
  (forall i x s1 s2, l !! i = Some x -> Inv (k + i)%nat s1 -> f s1 ((k + i)%nat, x) = Ok s2 ->
                     Inv (S (k + i)) s2) ->
  Inv (k + length l)%nat s'.
Proof.
  revert k s; induction l as [|x l IH]; intros k s H H0 Hstep.
  - injection H as <-. simpl. rewrite Nat.add_0_r. exact H0.
  - simpl in H. inv_bind H.
    rewrite (imap_ext _ (fun i x => ((S k + i)%nat, x))) in H
      by (intros i y _; simpl; f_equal; lia).
    replace (k + length (x :: l))%nat with (S k + length l)%nat by (simpl; lia).
    apply (IH (S k) a H).
    + pose proof (Hstep 0%nat x s a eq_refl) as H1.
      rewrite Nat.add_0_r in H1, Ha. apply H1; assumption.
    + intros i y s1 s2 Hy H1 H2.
      replace (S k + i)%nat with (k + S i)%nat in * by lia.
      apply (Hstep (S i) y s1 s2 Hy H1 H2).
Qed.

Lemma foldM_enumerate_ind {A St} (f : St -> nat * A -> result St) (Inv : nat -> St -> Prop)
      (l : list A) (s s' : St) :
  foldM f (imap (fun i x => (i, x)) l) s = Ok s' ->
  Inv 0%nat s ->
  (forall i x s1 s2, l !! i = Some x -> Inv i s1 -> f s1 (i, x) = Ok s2 -> Inv (S i) s2) ->
  Inv (length l) s'.
Proof.
  intros H H0 Hstep.
  apply (foldM_enumerate_from f Inv l 0 s s'); [exact H | exact H0 | exact Hstep].
Qed.

Lemma instance_category_worse (worse : list nat) (best : list Q) (i : nat) (inst : Instance) :
  (instance_category worse best i inst = Ok None -> i ∈ worse) /\
  (forall cat, instance_category worse best i inst = Ok (Some cat) -> i ∉ worse).
Proof.
  unfold instance_category. case_bool_decide as Hw.
  - split; [auto | discriminate].
  - split; [|auto]. destruct (class_id inst =? 0)%nat; [discriminate|].
    destruct (best_at best (class_id inst)); discriminate.
Qed.

(** An invariant of the page's pass that follows the instances: [Inv k]
    holds before the instance of index [k] is looked at, and [Q i] of the
    candidate of instance [i] while its neighbours are reconciled. *)
Lemma process_page_instances (Inv : nat -> State -> Prop)
      (Q : nat -> Candidate -> State -> Prop)
      (h : gmap addr TextRegionType) (p : PageType) (image : PageImage)
      (preds : list Instance) (worse : list nat) (st : State) :
  suppression preds = Ok worse ->
  process_page h p image preds = Ok st ->
  (forall k st st', same_but_log st st' -> Inv k st -> Inv k st') ->
  (forall i c st st', same_but_log st st' -> Q i c st -> Q i c st') ->
  Inv 0%nat (initial_state h p) ->
  (forall i st, (i < length preds)%nat -> i ∈ worse -> Inv i st -> Inv (S i) st) ->
  (forall i inst cat name region_polygon new_poly st,
      preds !! i = Some inst -> i ∉ worse ->
      instance_category worse (best_scores preds worse) i inst = Ok (Some cat) ->
      category_name cat = Ok name ->
      Inv i st ->
      Q i (mkCandidate (candidate_region i inst name region_polygon) new_poly false) st) ->
  (forall i c neighbour n st c' st',
      (i < length preds)%nat -> Q i c st ->
      neighbour ∈ get_AllRegions h p -> is_Some (h !! neighbour) ->
      neighbour ∉ oldregions st -> heap st !! neighbour = Some n ->
      subsume c neighbour n st = Ok (c', st') -> Q i c' st') ->
  (forall i c st, (i < length preds)%nat -> Q i c st ->
      Inv (S i) (if has_address c then add_TextRegion (region c) st else st)) ->
  Inv (length preds) st.
Proof.
  intros Hw H HlogI HlogQ H0 Hskip Hnew Hsub Hend.
  apply process_page_inv in H.
  destruct H as (allregions & worse' & st0 & Hall & Hw' & Hl0 & H).
  assert (worse' = worse) by congruence. subst worse'.
  pose proof (map_result_region_polygon_of_Some _ _ _ Hall) as Hheap.
  apply map_result_region_polygon_of in Hall.
  refine (foldM_enumerate_ind _ Inv preds st0 st H _ _).
  { eapply HlogI; eassumption. }
  intros i inst s1 s2 Hi HI Hstep.
  assert (Hlt : (i < length preds)%nat) by (eapply lookup_lt_Some; eassumption).
  apply process_instance_inv in Hstep.
  destruct Hstep as [(Hc & Hl) | (cat & name & rp & np & c & s0 & s1' & Hc & Hn & Hl & Hf & Hfin)].
  - eapply HlogI; [exact Hl|]. apply Hskip; [exact Hlt| |exact HI].
    apply (instance_category_worse worse (best_scores preds worse) i inst), Hc.
  - assert (Hnw : i ∉ worse).
    { apply (proj2 (instance_category_worse worse (best_scores preds worse) i inst) cat Hc). }
    assert (HQ : Q i c s1').
    { refine (reconcile_fold_ind (Q i) _ (get_AllRegions h p) _ _ _ _ _ _ _ _ _ Hf).
      - intros c1 st1 st1' Hl1 HQ1. eapply HlogQ; eassumption.
      - intros c1 st1 neighbour n c1' st1' HQ1 Hreg Hold Hn1 Hs.
        eapply Hsub; try eassumption. apply Hheap, Hreg.
      - rewrite Hall. reflexivity.
      - eapply HlogQ; [exact Hl|]. eapply Hnew; eassumption. }
    pose proof (Hend i c s1' Hlt HQ) as HE.
    destruct Hfin as [(Ht & ->) | (Hf0 & Hl1)].
    + rewrite Ht in HE. exact HE.
    + rewrite Hf0 in HE. eapply HlogI; eassumption.
Qed.

End DriverSteps.

(** ** Invariants of a page pass *)

Section PageInvariants.
Context `{K : Shapely} `{U : OcrdUtils} `{CV : OpenCV} `{M : OcrdModels}.

(** X3. Over a whole page pass the dictionary stays in step with the
    reading-order tree: every key is the [regionRef] of the element it
    maps to.  No reading-order element is added or removed, and each
    [regionRef] is either what the document had or the id of a region
    built for one of the detector's instances. *)
Theorem reading_order_kept_consistent (h : gmap addr TextRegionType) (p : PageType)
        (image : PageImage) (preds : list Instance) (st : State) :
  (forall g, ReadingOrder p = Some g -> NoDup (map ro_addr (g :: ro_descendants g))) ->
  process_page h p image preds = Ok st ->
  ro_consistent (ro_regionRef st) (reading_order st) /\
  dom (ro_regionRef st) = dom (ro_regionRef (initial_state h p)) /\
  (forall a id, ro_regionRef st !! a = Some id ->
     ro_regionRef (initial_state h p) !! a = Some id \/
     exists i, (i < length preds)%nat /\ id = address_region_id i).
Proof.
  intros Hnd H.
  refine (process_page_invariant
            (fun s => ro_consistent (ro_regionRef s) (reading_order s) /\
                      dom (ro_regionRef s) = dom (ro_regionRef (initial_state h p)) /\
                      (forall a id, ro_regionRef s !! a = Some id ->
                         ro_regionRef (initial_state h p) !! a = Some id \/
                         exists i, (i < length preds)%nat /\ id = address_region_id i))
            h p image preds st _ _ _ _ H).
  - intros s s' (_ & _ & Hr & Ho & _) HP. rewrite Hr, Ho. exact HP.
  - intros i c neighbour n s c' s' Hi Hid (Hc & Hd & Hv) _ _ _ Hs.
    apply subsume_inv in Hs.
    destruct Hs as (_ & _ & _ & _ & _ & Hr & Ho & _). rewrite Hr, Ho, Hid.
    unfold retarget_reading_order.
    destruct (reading_order s !! region_id n) as [a|] eqn:Ha; [|auto].
    unfold set_reading_order. cbn [ro_regionRef reading_order].
    split; [apply retarget_consistent; assumption|]. split.
    + rewrite dom_insert_L, <- Hd. apply (Hc _ _) in Ha.
      apply subseteq_union_1_L, singleton_subseteq_l, elem_of_dom. eauto.
    + intros b id Hl. destruct (decide (b = a)) as [->|Hne].
      * rewrite lookup_insert_eq in Hl. injection Hl as <-. right. eauto.
      * rewrite lookup_insert_ne in Hl by congruence. auto.
  - intros r s HP _. exact HP.
  - split; [apply initial_reading_order_consistent, Hnd|]. split; [reflexivity | auto].
Qed.

Lemma referring_insert_new (refs : gmap addr string) (e : addr) (old id : string) :
  refs !! e = Some old -> old <> id ->
  referring (<[e := id]> refs) id = S (referring refs id).
Proof.
  intros He Hne. unfold referring.
  rewrite map_filter_insert_True by reflexivity.
  apply map_size_insert_None.
  apply map_lookup_filter_None. right. intros x Hx. simpl. congruence.
Qed.

Lemma referring_insert_other (refs : gmap addr string) (e : addr) (old v id : string) :
  refs !! e = Some old -> old <> id -> v <> id ->
  referring (<[e := v]> refs) id = referring refs id.
Proof.
  intros He Ho Hv. unfold referring.
  rewrite map_filter_insert_not'; [reflexivity | simpl; congruence |].
  intros y Hy. simpl. congruence.
Qed.

Lemma filter_ext_elem {A} (P1 P2 : A -> Prop)
      {H1 : forall x, Decision (P1 x)} {H2 : forall x, Decision (P2 x)} (l : list A) :
  (forall x, x ∈ l -> P1 x <-> P2 x) -> filter P1 l = filter P2 l.
Proof.
  induction l as [|a l IH]; intros H; [reflexivity|].
  assert (Ha : P1 a <-> P2 a) by (apply H, elem_of_cons; auto).
  assert (E : filter P1 l = filter P2 l).
  { apply IH. intros x Hx. apply H, elem_of_cons. auto. }
  destruct (decide (P1 a)).
  - rewrite !filter_cons_True by tauto. rewrite E. reflexivity.
  - rewrite !filter_cons_False by tauto. exact E.
Qed.


(** X4. No region is subsumed twice, over all candidates of the page;
    every subsumed region is one of [get_AllRegions]; and a region of the
    page that was not subsumed is still on the page afterwards. *)
Theorem subsumed_once_others_kept (h : gmap addr TextRegionType) (p : PageType)
        (image : PageImage) (preds : list Instance) (st : State) :
  process_page h p image preds = Ok st ->
  NoDup (oldregions st) /\
  (forall a, a ∈ oldregions st -> a ∈ get_AllRegions h p) /\
  (forall a, a ∈ page_TextRegion p -> a ∉ oldregions st ->
             a ∈ page_TextRegion (page st)).
Proof.
  intros H.
  refine (process_page_invariant
            (fun s => NoDup (oldregions s) /\
                      (forall a, a ∈ oldregions s -> a ∈ get_AllRegions h p) /\
                      (forall a, a ∈ page_TextRegion p -> a ∉ oldregions s ->
                                 a ∈ page_TextRegion (page s)))
            h p image preds st _ _ _ _ H).
  - intros s s' (_ & Hp & _ & _ & Ho) HP. rewrite Hp, Ho. exact HP.
  - intros i c neighbour n s c' s' _ _ (Hnd & Hall & Hkeep) Hreg Hold _ Hs.
    pose proof (subsume_page _ _ _ _ _ _ Hs) as (_ & Hk & _).
    apply subsume_inv in Hs.
    destruct Hs as (_ & _ & _ & _ & Ho & _). rewrite Ho.
    split; [|split].
    + apply NoDup_app. split; [exact Hnd|]. split; [|apply NoDup_singleton].
      intros x Hx Hx'. apply list_elem_of_singleton in Hx'. subst x. contradiction.
    + intros a Ha. apply elem_of_app in Ha. destruct Ha as [Ha|Ha]; [auto|].
      apply list_elem_of_singleton in Ha. subst a. exact Hreg.
    + intros a Ha Hn. rewrite elem_of_app, list_elem_of_singleton in Hn.
      apply Hk; [apply Hkeep; tauto | tauto].
  - intros r s (Hnd & Hall & Hkeep) _. cbn. split; [exact Hnd|]. split; [exact Hall|].
    intros a Ha Hn. apply elem_of_app. left. auto.
  - cbn. split; [constructor|]. split; [intros a Ha; inversion Ha | auto].
Qed.

Lemma subsumed_of_allregions (h : gmap addr TextRegionType) (p : PageType)
      (image : PageImage) (preds : list Instance) (st : State) :
  process_page h p image preds = Ok st ->
  forall a, a ∈ oldregions st -> a ∈ get_AllRegions h p.
Proof.
  intros H.
  refine (process_page_invariant
            (fun s => forall a, a ∈ oldregions s -> a ∈ get_AllRegions h p)
            h p image preds st _ _ _ _ H).
  - intros s s' (_ & _ & _ & _ & Ho) HP. rewrite Ho. exact HP.
  - intros i c neighbour n s c' s' _ _ Hall Hreg _ _ Hs.
    apply subsume_inv in Hs.
    destruct Hs as (_ & _ & _ & _ & Ho & _). rewrite Ho.
    intros a Ha. apply elem_of_app in Ha. destruct Ha as [Ha|Ha]; [auto|].
    apply list_elem_of_singleton in Ha. subst a. exact Hreg.
  - intros r s HP _. exact HP.
  - cbn. intros a Ha. inversion Ha.
Qed.

(** X6. The pass changes the document only by subsuming: when no region
    was subsumed, regions, page and reading order are exactly as parsed
    (only the log has grown), whatever the detector returned; and a page
    without text regions has nothing to subsume, so no address region is
    ever added to it. *)
Theorem nothing_subsumed_nothing_changed (h : gmap addr TextRegionType) (p : PageType)
        (image : PageImage) (preds : list Instance) (st : State) :
  process_page h p image preds = Ok st ->
  (get_AllRegions h p = [] -> oldregions st = []) /\
  (oldregions st = [] ->
   heap st = h /\ page st = p /\
   ro_regionRef st = ro_regionRef (initial_state h p) /\
   reading_order st = reading_order (initial_state h p)).
Proof.
  intros H. split.
  - intros Hall. pose proof (subsumed_of_allregions h p image preds st H) as Hsub.
    rewrite Hall in Hsub. destruct (oldregions st) as [|a l]; [reflexivity|].
    exfalso. specialize (Hsub a). rewrite elem_of_nil in Hsub. apply Hsub.
    apply elem_of_cons. auto.
  - refine (process_page_invariant
              (fun s => oldregions s = [] -> heap s = h /\ page s = p /\
                        ro_regionRef s = ro_regionRef (initial_state h p) /\
                        reading_order s = reading_order (initial_state h p))
              h p image preds st _ _ _ _ H).
    + intros s s' (Hh & Hp & Hr & Ho & Hold) HP. rewrite Hh, Hp, Hr, Ho, Hold. exact HP.
    + intros i c neighbour n s c' s' _ _ _ _ _ _ Hs.
      apply subsume_inv in Hs.
      destruct Hs as (_ & _ & _ & _ & Ho & _). rewrite Ho.
      intros E. apply app_eq_nil in E. destruct E; discriminate.
    + intros r s _ Hne. cbn. intros E. contradiction.
    + cbn. auto.
Qed.

Lemma stolen_lines_app (id : string) (n : nat) (l1 l2 : list TextLineType) :
  stolen_lines id n (l1 ++ l2)
  = stolen_lines id n l1 ++ stolen_lines id (n + length l1) l2.
Proof.
  unfold stolen_lines. rewrite imap_app. f_equal. apply imap_ext.
  intros k x _. simpl. rewrite Nat.add_assoc. reflexivity.
Qed.

Lemma stolen_lines_length (id : string) (n : nat) (l : list TextLineType) :
  length (stolen_lines id n l) = length l.
Proof. apply length_imap. Qed.

Lemma existsb_stolen_lines (id : string) (n : nat) (l : list TextLineType) :
  existsb is_address_line (stolen_lines id n l) = existsb is_address_line l.
Proof.
  revert n; induction l as [|x l IH]; intros n; [reflexivity|].
  change (x :: l) with ([x] ++ l). rewrite stolen_lines_app. simpl.
  rewrite IH. reflexivity.
Qed.

(** What the reconciliation of one candidate, started without lines,
    has done when it ends. *)
Lemma reconcile_fold_lines (scale : Z) (allregions : list (addr * Polygon))
      (c0 : Candidate) (st0 : State) (c : Candidate) (st1 : State) :
  region_TextLine (region c0) = [] -> has_address c0 = false ->
  foldM (reconcile scale) allregions (c0, st0) = Ok (c, st1) ->
  same_attributes (region c0) (region c) /\
  dom (heap st1) = dom (heap st0) /\
  exists subsumed,
    oldregions st1 = oldregions st0 ++ subsumed /\
    region_TextLine (region c)
    = stolen_lines (region_id (region c0)) 0 (flat_map (lines_of (heap st0)) subsumed) /\
    has_address c = existsb is_address_line (flat_map (lines_of (heap st0)) subsumed) /\
    (subsumed <> [] -> region_TextEquiv (region c) = joined_text (region c)) /\
    (subsumed = [] -> c = c0 /\ same_but_log st0 st1).
Proof.
  intros Hl0 Hh0 H.
  pose (P := fun (c : Candidate) (s : State) =>
               same_attributes (region c0) (region c) /\
               dom (heap s) = dom (heap st0) /\
               (forall a, a ∉ oldregions s -> lines_of (heap s) a = lines_of (heap st0) a) /\
               exists subsumed,
                 oldregions s = oldregions st0 ++ subsumed /\
                 region_TextLine (region c)
                 = stolen_lines (region_id (region c0)) 0
                                (flat_map (lines_of (heap st0)) subsumed) /\
                 has_address c
                 = existsb is_address_line (flat_map (lines_of (heap st0)) subsumed) /\
                 (subsumed <> [] -> region_TextEquiv (region c) = joined_text (region c)) /\
                 (subsumed = [] -> c = c0 /\ same_but_log st0 s)).
  assert (HP : P c st1); [|destruct HP as (Hattr & Hdom & _ & Hrest); auto].
  refine (reconcile_fold_ind P scale (map fst allregions) _ _ allregions c0 st0 c st1 _ _ H);
    unfold P.
  - intros c1 s s' Hl (Hattr & Hdom & Hlines & subsumed & Ho & Htl & Hh & Hte & Hnil).
    destruct Hl as (Hheap & Hp & Hr & Hro & Hold).
    split; [exact Hattr|]. split; [rewrite Hheap; exact Hdom|].
    split; [rewrite Hheap, Hold; exact Hlines|].
    exists subsumed. rewrite Hold. repeat split; try assumption; try (apply Hnil; assumption).
    all: destruct (Hnil ltac:(assumption)) as (_ & (?&?&?&?&?)); congruence.
  - intros c1 s neighbour n c1' s' (Hattr & Hdom & Hlines & subsumed & Ho & Htl & Hh & Hte & Hnil)
           _ Hold Hn Hs.
    apply subsume_inv in Hs.
    destruct Hs as (Hattr' & Htl' & Hte' & Hh' & Ho' & _ & _ & Hdom' & _ & Hlines' & _).
    assert (Hln : region_TextLine n = lines_of (heap st0) neighbour).
    { rewrite <- (Hlines _ Hold). unfold lines_of. rewrite Hn. reflexivity. }
    split; [eapply same_attributes_trans; eassumption|].
    split.
    { rewrite Hdom', <- Hdom. apply subseteq_union_1_L, singleton_subseteq_l, elem_of_dom.
      eauto. }
    split.
    { intros a Ha. rewrite Ho', elem_of_app, list_elem_of_singleton in Ha.
      rewrite Hlines' by tauto. apply Hlines. tauto. }
    exists (subsumed ++ [neighbour]).
    split; [rewrite Ho', Ho, app_assoc; reflexivity|].
    rewrite flat_map_app. simpl. rewrite app_nil_r, <- Hln.
    split.
    { rewrite Htl', Htl, stolen_lines_app. f_equal.
      rewrite stolen_lines_length. destruct Hattr as (-> & _). reflexivity. }
    split; [rewrite Hh', Hh, existsb_app; apply orb_comm|].
    split; [intros _; exact Hte'|].
    intros E. apply app_eq_nil in E. destruct E; discriminate.
  - reflexivity.
  - split; [apply same_attributes_refl|]. split; [reflexivity|]. split; [reflexivity|].
    exists []. rewrite app_nil_r. simpl. unfold stolen_lines. simpl.
    repeat split; try assumption; try apply same_but_log_refl. congruence.
Qed.

(** The object an instance's iteration puts on the heap, if any. *)
Lemma process_instance_added (image : PageImage) (worse : list nat) (best : list Q)
      (allregions : list (addr * Polygon)) (st : State) (i : nat) (inst : Instance)
      (st' : State) (a : addr) (r : TextRegionType) :
  process_instance image worse best allregions st (i, inst) = Ok st' ->
  heap st' !! a = Some r -> heap st !! a = None ->
  exists cat name region_polygon subsumed,
    instance_category worse best i inst = Ok (Some cat) /\
    category_name cat = Ok name /\
    same_attributes (candidate_region i inst name region_polygon) r /\
    (exists older, page_TextRegion (page st') = older ++ [a]) /\
    oldregions st' = oldregions st ++ subsumed /\
    region_TextLine r
    = stolen_lines (address_region_id i) 0 (flat_map (lines_of (heap st)) subsumed) /\
    existsb is_address_line (flat_map (lines_of (heap st)) subsumed) = true /\
    region_TextEquiv r = joined_text r.
Proof.
  intros H Hr Hnone. apply process_instance_inv in H.
  destruct H as [(_ & Hl) | (cat & name & rp & np & c & s0 & s1 & Hc & Hn & Hl & Hf & Hend)].
  { destruct Hl as (Hh & _). rewrite Hh in Hr. congruence. }
  apply reconcile_fold_lines in Hf; [|reflexivity|reflexivity].
  destruct Hf as (Hattr & Hdom & subsumed & Ho & Htl & Hh & Hte & _).
  destruct Hl as (Hh0 & Hp0 & _ & _ & Ho0).
  rewrite Hh0 in Hdom, Htl, Hh. rewrite Ho0 in Ho.
  assert (Hold : forall x, heap s1 !! a = Some x -> False).
  { intros x Hx. assert (Hin : a ∈ dom (heap s1)) by (apply elem_of_dom; eauto).
    rewrite Hdom in Hin. apply elem_of_dom in Hin. destruct Hin as (y & Hy). congruence. }
  destruct Hend as [(Ht & ->) | (_ & (Hh1 & _))].
  2:{ rewrite Hh1 in Hr. exfalso. eauto. }
  unfold add_TextRegion in Hr. cbn in Hr.
  destruct (decide (a = fresh (dom (heap s1)))) as [Ha|Ha].
  2:{ rewrite lookup_insert_ne in Hr by congruence. exfalso. eauto. }
  rewrite <- Ha in Hr. rewrite lookup_insert_eq in Hr. injection Hr as <-.
  exists cat, name, rp, subsumed.
  split; [exact Hc|]. split; [exact Hn|]. split; [exact Hattr|].
  unfold add_TextRegion. cbn. rewrite <- Ha.
  split; [eexists; reflexivity|].
  split; [exact Ho|]. split; [exact Htl|]. split; [congruence|].
  apply Hte. intros ->. simpl in Hh. congruence.
Qed.

(** X7. A region that an instance's iteration adds to the document has
    the id [addressregionNN] of the instance's index, type ['other'], the
    custom attribute ['subtype:'] followed by the name of the category
    the instance was processed under, the detector's score as the
    confidence of its [Coords], no regions of its own, and is the last
    region of the page. *)
Theorem added_region_attributes (image : PageImage) (worse : list nat) (best : list Q)
        (allregions : list (addr * Polygon)) (st : State) (i : nat) (inst : Instance)
        (st' : State) (a : addr) (r : TextRegionType) :
  process_instance image worse best allregions st (i, inst) = Ok st' ->
  heap st' !! a = Some r -> heap st !! a = None ->
  region_id r = address_region_id i /\ region_type r = "other" /\
  conf (region_Coords r) = Some (score inst) /\
  (exists cat name,
     instance_category worse best i inst = Ok (Some cat) /\
     category_name cat = Ok name /\
     region_custom r = Some ("subtype:" +:+ name)) /\
  region_TextRegion r = [] /\
  exists older, page_TextRegion (page st') = older ++ [a].
Proof.
  intros H Hr Hnone.
  destruct (process_instance_added _ _ _ _ _ _ _ _ _ _ H Hr Hnone)
    as (cat & name & rp & subsumed & Hc & Hn & Hattr & Hpage & _).
  destruct Hattr as (Hid & Hty & Hcu & Hco & Htr & _).
  split; [exact Hid|]. split; [exact Hty|]. split; [exact Hco|].
  split; [exists cat, name; auto|]. split; [exact Htr | exact Hpage].
Qed.

(** X8. The lines of a region that an instance's iteration adds are
    exactly the lines of the regions subsumed in that iteration, in the
    order of subsumption, renamed [id_line00], [id_line01], ... and
    otherwise unchanged; at least one of them is an address line; and the
    region's text is the lines' texts joined by newlines. *)
Theorem added_region_lines (image : PageImage) (worse : list nat) (best : list Q)
        (allregions : list (addr * Polygon)) (st : State) (i : nat) (inst : Instance)
        (st' : State) (a : addr) (r : TextRegionType) :
  process_instance image worse best allregions st (i, inst) = Ok st' ->
  heap st' !! a = Some r -> heap st !! a = None ->
  exists subsumed,
    oldregions st' = oldregions st ++ subsumed /\
    region_TextLine r
    = stolen_lines (address_region_id i) 0 (flat_map (lines_of (heap st)) subsumed) /\
    existsb is_address_line (region_TextLine r) = true /\
    region_TextEquiv r = joined_text r.
Proof.
  intros H Hr Hnone.
  destruct (process_instance_added _ _ _ _ _ _ _ _ _ _ H Hr Hnone)
    as (cat & name & rp & subsumed & _ & _ & _ & _ & Ho & Htl & Hh & Hte).
  exists subsumed. split; [exact Ho|]. split; [exact Htl|]. split; [|exact Hte].
  rewrite Htl, existsb_stolen_lines. exact Hh.
Qed.

(** X5. On a page whose top-level regions are distinct and know the page
    as their parent, the regions of the page after the pass are, without
    duplicates, the regions it had that were not subsumed and the regions
    the pass has added: every subsumed top-level region is gone, and no
    other region is. *)
Theorem page_regions_after_pass (h : gmap addr TextRegionType) (p : PageType)
        (image : PageImage) (preds : list Instance) (st : State) :
  NoDup (page_TextRegion p) ->
  (forall a, a ∈ page_TextRegion p ->
             exists r, h !! a = Some r /\ parent_object_ r = OfPage) ->
  process_page h p image preds = Ok st ->
  NoDup (page_TextRegion (page st)) /\
  forall a, a ∈ page_TextRegion (page st) <->
            (a ∈ page_TextRegion p /\ a ∉ oldregions st) \/
            (h !! a = None /\ is_Some (heap st !! a)).
Proof.
  intros Hnd Hparent H.
  pose proof (allregions_on_heap h p image preds st H) as Hheap.
  pose (P := fun s : State =>
    NoDup (page_TextRegion (page s)) /\
    dom h ⊆ dom (heap s) /\
    (forall a, a ∈ page_TextRegion (page s) -> a ∈ dom (heap s)) /\
    (forall a, parent_object_ <$> h !! a = Some OfPage ->
               parent_object_ <$> heap s !! a = Some OfPage) /\
    (forall a, a ∈ oldregions s -> a ∈ page_TextRegion p ->
               a ∉ page_TextRegion (page s)) /\
    (forall a, a ∈ page_TextRegion (page s) -> a ∈ page_TextRegion p \/ h !! a = None) /\
    (forall a, h !! a = None -> a ∈ dom (heap s) -> a ∈ page_TextRegion (page s)) /\
    (forall a, a ∈ page_TextRegion p -> a ∉ oldregions s ->
               a ∈ page_TextRegion (page s))).
  assert (HP : P st).
  2:{ destruct HP as (H1 & _ & H3 & _ & H5 & H6 & H7 & H8).
      split; [exact H1|]. intros a. split.
      - intros Ha. destruct (H6 a Ha) as [Hp | Hn].
        + left. split; [exact Hp|]. intros Ho. exact (H5 a Ho Hp Ha).
        + right. split; [exact Hn|]. apply elem_of_dom, H3, Ha.
      - intros [(Hp & Ho) | (Hn & Hs)]; [apply H8; assumption|].
        apply H7; [exact Hn | apply elem_of_dom, Hs]. }
  refine (process_page_invariant P h p image preds st _ _ _ _ H); unfold P.
  - intros s s' (Hh & Hp & _ & _ & Ho) HP. rewrite Hh, Hp, Ho. exact HP.
  - intros i c neighbour n s c' s' _ _
           (Hnd1 & Hdom & Hin & Hpar & Hgone & Horig & Hnew & Hkept) Hreg Hold Hn Hs.
    pose proof (subsume_page _ _ _ _ _ _ Hs) as (Hsub & Hkeep & Hnd' & Hrem).
    apply subsume_inv in Hs.
    destruct Hs as (_ & _ & _ & _ & Ho & _ & _ & Hd & _ & _ & Hpa).
    specialize (Hpa Hn).
    assert (Hd' : dom (heap s') = dom (heap s)).
    { rewrite Hd. apply subseteq_union_1_L, singleton_subseteq_l, elem_of_dom. eauto. }
    split; [auto|]. split; [rewrite Hd'; exact Hdom|].
    split; [intros a Ha; rewrite Hd'; auto|].
    split; [intros a Ha; rewrite (proj1 (Hpa a)); auto|].
    split; [|split; [|split]].
    + intros a Ha Hp. rewrite Ho, elem_of_app, list_elem_of_singleton in Ha.
      destruct Ha as [Ha| ->].
      * intros Ha'. apply (Hgone a Ha Hp). auto.
      * apply Hrem; [|exact Hnd1].
        destruct (Hparent _ Hp) as (r0 & Hr0 & Hp0).
        assert (Hx : parent_object_ <$> heap s !! neighbour = Some OfPage).
        { apply Hpar. rewrite Hr0. simpl. congruence. }
        rewrite Hn in Hx. simpl in Hx. congruence.
    + intros a Ha. apply Horig, Hsub, Ha.
    + intros a Ha Hin'. rewrite Hd' in Hin'. apply Hkeep; [apply Hnew; assumption|].
      intros ->. destruct (Hheap _ Hreg) as (x & Hx). congruence.
    + intros a Ha Hno. rewrite Ho, elem_of_app, list_elem_of_singleton in Hno.
      apply Hkeep; [apply Hkept; tauto | tauto].
  - intros r s (Hnd1 & Hdom & Hin & Hpar & Hgone & Horig & Hnew & Hkept) _.
    unfold add_TextRegion. cbn.
    pose proof (is_fresh (dom (heap s))) as Hf.
    assert (Hfh : h !! fresh (dom (heap s)) = None).
    { apply not_elem_of_dom. intros Hx. apply Hf, Hdom, Hx. }
    split; [|split; [|split; [|split; [|split; [|split; [|split]]]]]].
    + apply NoDup_app. split; [exact Hnd1|]. split; [|apply NoDup_singleton].
      intros x Hx Hx'. apply list_elem_of_singleton in Hx'. subst x. apply Hf, Hin, Hx.
    + rewrite dom_insert. etrans; [exact Hdom | apply union_subseteq_r].
    + intros a Ha. rewrite dom_insert, elem_of_union, elem_of_singleton.
      apply elem_of_app in Ha. rewrite list_elem_of_singleton in Ha.
      destruct Ha as [Ha|Ha]; [right; apply Hin, Ha | left; exact Ha].
    + intros a Ha. rewrite lookup_insert_ne; [auto|].
      intros <-. rewrite Hfh in Ha. discriminate.
    + intros a Ha Hp Ha'. apply elem_of_app in Ha'. destruct Ha' as [Ha'|Ha'].
      * exact (Hgone a Ha Hp Ha').
      * apply list_elem_of_singleton in Ha'. subst a.
        destruct (Hparent _ Hp) as (r0 & Hr0 & _). congruence.
    + intros a Ha. apply elem_of_app in Ha. destruct Ha as [Ha|Ha]; [auto|].
      apply list_elem_of_singleton in Ha. subst a. right. exact Hfh.
    + intros a Ha Hin'. apply elem_of_app.
      rewrite dom_insert, elem_of_union, elem_of_singleton in Hin'.
      destruct Hin' as [->|Hin']; [right; apply list_elem_of_singleton; reflexivity|].
      left. apply Hnew; assumption.
    + intros a Ha Hno. apply elem_of_app. left. auto.
  - cbn. split; [exact Hnd|]. split; [reflexivity|]. split.
    { intros a Ha. destruct (Hparent _ Ha) as (r0 & Hr0 & _). apply elem_of_dom. eauto. }
    split; [auto|]. split; [intros a Ha; inversion Ha|].
    split; [auto|]. split; [|auto].
    intros a Ha Hin'. apply not_elem_of_dom in Ha. contradiction.
Qed.

(** A region of the document that the pass does not subsume is left as
    it is, except for its own list of regions, which loses the regions
    that were subsumed and no other. *)
Lemma unsubsumed_region_fields (h : gmap addr TextRegionType) (p : PageType)
        (image : PageImage) (preds : list Instance) (st : State) :
  process_page h p image preds = Ok st ->
  forall a r, h !! a = Some r -> a ∉ oldregions st ->
    exists r',
      heap st !! a = Some r' /\
      r' = set_region_TextRegion (region_TextRegion r') r /\
      (forall b, b ∈ region_TextRegion r' -> b ∈ region_TextRegion r) /\
      (forall b, b ∈ region_TextRegion r -> b ∉ oldregions st ->
                 b ∈ region_TextRegion r').
Proof.
  intros H.
  pose (P := fun s : State =>
    forall a r, h !! a = Some r -> a ∉ oldregions s ->
      exists r',
        heap s !! a = Some r' /\
        r' = set_region_TextRegion (region_TextRegion r') r /\
        (forall b, b ∈ region_TextRegion r' -> b ∈ region_TextRegion r) /\
        (forall b, b ∈ region_TextRegion r -> b ∉ oldregions s ->
                   b ∈ region_TextRegion r')).
  assert (HP : P st); [|exact HP].
  refine (process_page_invariant P h p image preds st _ _ _ _ H); unfold P.
  - intros s s' (Hh & _ & _ & _ & Ho) HP. rewrite Hh, Ho. exact HP.
  - intros i c neighbour n s c' s' _ _ HP _ _ _ Hs a r Hr Hno.
    pose proof (subsume_inv _ _ _ _ _ _ Hs) as (_ & _ & _ & _ & Ho & _).
    rewrite Ho, elem_of_app, list_elem_of_singleton in Hno.
    destruct (HP a r Hr) as (r1 & Hr1 & Heq & Hsub & Hkeep); [tauto|].
    destruct (subsume_others _ _ _ _ _ _ a Hs) as [E | (parent & l & Hp & Hp' & Hl)];
      [tauto| |].
    + exists r1. rewrite E. split; [exact Hr1|]. split; [exact Heq|].
      split; [exact Hsub|]. intros b Hb Hnb. apply Hkeep; [exact Hb|].
      rewrite Ho, elem_of_app in Hnb. tauto.
    + assert (parent = r1) by congruence. subst parent.
      exists (set_region_TextRegion l r1). split; [exact Hp'|].
      apply list_remove_inv in Hl. destruct Hl as (_ & Hl1 & Hl2 & _).
      split; [rewrite Heq; reflexivity|]. split.
      * intros b Hb. apply Hsub, Hl1, Hb.
      * intros b Hb Hnb. rewrite Ho, elem_of_app, list_elem_of_singleton in Hnb.
        apply Hl2; [apply Hkeep; tauto | tauto].
  - intros r0 s HP _ a r Hr Hno. unfold add_TextRegion. cbn.
    destruct (HP a r Hr Hno) as (r1 & Hr1 & Hrest).
    exists r1. split; [|exact Hrest].
    rewrite lookup_insert_ne; [exact Hr1|].
    intros <-. apply (is_fresh (dom (heap s))). apply elem_of_dom. eauto.
  - cbn. intros a r Hr _. exists r. split; [exact Hr|].
    split; [destruct r; reflexivity | auto].
Qed.

(** A region of the page's own list that is not subsumed stays there. *)
Lemma unsubsumed_top_kept (h : gmap addr TextRegionType) (p : PageType)
      (image : PageImage) (preds : list Instance) (st : State) :
  process_page h p image preds = Ok st ->
  forall a, a ∈ page_TextRegion p -> a ∉ oldregions st -> a ∈ page_TextRegion (page st).
Proof.
  intros H.
  refine (process_page_invariant
            (fun s => forall a, a ∈ page_TextRegion p -> a ∉ oldregions s ->
                                a ∈ page_TextRegion (page s))
            h p image preds st _ _ _ _ H).
  - intros s s' (_ & Hp & _ & _ & Ho) HP. rewrite Hp, Ho. exact HP.
  - intros i c neighbour n s c' s' _ _ HP _ _ _ Hs a Ha Hno.
    pose proof (subsume_page _ _ _ _ _ _ Hs) as (_ & Hkeep & _).
    apply subsume_inv in Hs. destruct Hs as (_ & _ & _ & _ & Ho & _).
    rewrite Ho, elem_of_app, list_elem_of_singleton in Hno.
    apply Hkeep; [apply HP; tauto | tauto].
  - intros r s HP _ a Ha Hno. unfold add_TextRegion. cbn.
    apply elem_of_app. left. auto.
  - cbn. auto.
Qed.

(** X24. A region of the document that the pass does not subsume keeps
    every field but its own list of regions, and that list loses the
    regions that were subsumed and no other.  So a region that hung in
    the document below regions none of which was subsumed, and was not
    subsumed itself, can still be reached from the page after the pass. *)
Theorem unsubsumed_regions_untouched (h : gmap addr TextRegionType) (p : PageType)
        (image : PageImage) (preds : list Instance) (st : State) :
  process_page h p image preds = Ok st ->
  (forall a r, h !! a = Some r -> a ∉ oldregions st ->
     exists r',
       heap st !! a = Some r' /\
       r' = set_region_TextRegion (region_TextRegion r') r /\
       (forall b, b ∈ region_TextRegion r' -> b ∈ region_TextRegion r) /\
       (forall b, b ∈ region_TextRegion r -> b ∉ oldregions st ->
                  b ∈ region_TextRegion r')) /\
  (forall a, attached h p (oldregions st) a -> attached (heap st) (page st) [] a).
Proof.
  intros H. split; [exact (unsubsumed_region_fields h p image preds st H)|].
  assert (Hold : forall a, attached h p (oldregions st) a -> a ∉ oldregions st).
  { intros a Ha. destruct Ha; assumption. }
  intros a Ha. induction Ha as [a Hin Hno | pa rp a Hpa IH Hrp Hin Hno].
  - apply attached_page; [|apply not_elem_of_nil].
    eapply unsubsumed_top_kept; eassumption.
  - destruct (unsubsumed_region_fields h p image preds st H pa rp Hrp (Hold _ Hpa))
      as (rp' & Hrp' & _ & _ & Hkeep).
    eapply attached_region; [exact IH | exact Hrp' | auto | apply not_elem_of_nil].
Qed.

(** C8. A non-suppressed recipient or sender instance whose score is
    strictly below the score of another non-suppressed instance of its
    category (so below the category's page maximum) is given class 3,
    ['address-contact'], and is processed like any candidate under that
    class: its iteration is the loop body run with class 3; when it
    completes, the candidate region was built with the instance's id and
    score and the custom attribute ['subtype:address-contact'], it was
    reconciled with every region of the page, and it was added to the page
    exactly when it had taken an address line; the region it adds carries
    that attribute.  An instance that no instance of its category
    outscores keeps its class, and a class-3 instance stays class 3. *)
Theorem demotion_below_page_maximum
        (preds : list Instance) (worse : list nat) (i : nat) (inst : Instance) :
  preds !! i = Some inst -> i ∉ worse ->
  let best := best_scores preds worse in
  (class_id inst = 1%nat \/ class_id inst = 2%nat ->
   (exists j instj, preds !! j = Some instj /\ (j ∉ worse) /\
                    class_id instj = class_id inst /\ (score inst < score instj)%Q) ->
   instance_category worse best i inst = Ok (Some 3%nat) /\
   category_name 3 = Ok "address-contact" /\
   forall image allregions st,
     process_instance image worse best allregions st (i, inst)
     = process_candidate image allregions
         (LOG "debug" "Degrading instance with non-maximum score to class 3" st)
         i inst 3 /\
     (forall st',
        process_instance image worse best allregions st (i, inst) = Ok st' ->
        exists region_polygon new_poly c st0 st1,
          same_but_log st st0 /\
          foldM (reconcile (mask_scale (mask inst))) allregions
                (mkCandidate (candidate_region i inst "address-contact" region_polygon)
                             new_poly false, st0)
          = Ok (c, st1) /\
          same_attributes (candidate_region i inst "address-contact" region_polygon)
                          (region c) /\
          ((has_address c = true /\ st' = add_TextRegion (region c) st1) \/
           (has_address c = false /\ same_but_log st1 st'))) /\
     (forall st' a r,
        process_instance image worse best allregions st (i, inst) = Ok st' ->
        heap st' !! a = Some r -> heap st !! a = None ->
        region_id r = address_region_id i /\ region_type r = "other" /\
        region_custom r = Some "subtype:address-contact" /\
        conf (region_Coords r) = Some (score inst) /\
        exists older, page_TextRegion (page st') = older ++ [a])) /\
  (class_id inst = 1%nat \/ class_id inst = 2%nat -> (0 <= score inst)%Q ->
   (forall j instj, preds !! j = Some instj -> j ∉ worse ->
                    class_id instj = class_id inst -> (score instj <= score inst)%Q) ->
   instance_category worse best i inst = Ok (Some (class_id inst))) /\
  (class_id inst = 3%nat -> instance_category worse best i inst = Ok (Some 3%nat)).
Proof.
  intros Hi Hw best. subst best.
  pose proof (demotion_decided preds worse i inst Hi Hw) as HD. cbv zeta in HD.
  destruct HD as (Hlow & Hmax & Hthree).
  split; [|split; [exact Hmax | exact Hthree]].
  intros Hcat Hout. destruct (Hlow Hcat Hout) as (Hic & Hname & Heq).
  split; [exact Hic|]. split; [exact Hname|].
  intros image allregions st. split; [apply Heq|]. split.
  - intros st' H. apply process_instance_inv in H.
    destruct H as [(Hnone & _) | (cat & name & rp & np & c & s0 & s1 & Hc & Hn & Hl & Hf & Hend)].
    { congruence. }
    rewrite Hic in Hc. injection Hc as <-.
    rewrite Hname in Hn. injection Hn as <-.
    exists rp, np, c, s0, s1. split; [exact Hl|]. split; [exact Hf|].
    split; [|exact Hend].
    apply reconcile_fold_lines in Hf; [|reflexivity|reflexivity]. apply Hf.
  - intros st' a r H Hr Hnone.
    destruct (process_instance_added _ _ _ _ _ _ _ _ _ _ H Hr Hnone)
      as (cat & name & rp & subsumed & Hc & Hn & Hattr & Hpage & _).
    rewrite Hic in Hc. injection Hc as <-.
    rewrite Hname in Hn. injection Hn as <-.
    destruct Hattr as (Hid & Hty & Hcu & Hco & _).
    split; [exact Hid|]. split; [exact Hty|]. split; [exact Hcu|].
    split; [exact Hco | exact Hpage].
Qed.

(** The ids of the objects on the heap over one instance's iteration:
    they stay, and the one object that may be new has the id of the
    instance. *)
Lemma process_instance_ids (image : PageImage) (worse : list nat) (best : list Q)
      (allregions : list (addr * Polygon)) (st : State) (i : nat) (inst : Instance)
      (st' : State) (a : addr) :
  process_instance image worse best allregions st (i, inst) = Ok st' ->
  region_id <$> heap st' !! a = region_id <$> heap st !! a \/
  (a = fresh (dom (heap st)) /\ heap st !! a = None /\
   region_id <$> heap st' !! a = Some (address_region_id i)).
Proof.
  intros H. apply process_instance_inv in H.
  destruct H as [(_ & Hl) | (cat & name & rp & np & c & s0 & s1 & _ & _ & Hl & Hf & Hend)].
  { left. destruct Hl as (-> & _). reflexivity. }
  destruct Hl as (Hh0 & _).
  assert (Hids : forall b, region_id <$> heap s1 !! b = region_id <$> heap st !! b).
  { rewrite <- Hh0.
    pose (P := fun (c : Candidate) (s : State) =>
                 forall b, region_id <$> heap s !! b = region_id <$> heap s0 !! b).
    assert (HP : P c s1); [|exact HP].
    refine (reconcile_fold_ind P _ (map fst allregions) _ _ allregions _ s0 c s1 _ _ Hf);
      unfold P.
    - intros c1 s s' (-> & _) HP. exact HP.
    - intros c1 s neighbour n c1' s' HP _ _ Hn Hs b.
      apply subsume_inv in Hs.
      destruct Hs as (_ & _ & _ & _ & _ & _ & _ & _ & _ & _ & Hpa).
      rewrite (proj2 (Hpa Hn b)). apply HP.
    - reflexivity.
    - reflexivity. }
  apply reconcile_fold_lines in Hf; [|reflexivity|reflexivity].
  destruct Hf as (Hattr & Hdom & _).
  destruct Hend as [(_ & ->) | (_ & (-> & _))]; [|left; apply Hids].
  unfold add_TextRegion. cbn.
  destruct (decide (a = fresh (dom (heap s1)))) as [Ha|Ha].
  - right. rewrite Hdom, Hh0 in Ha. split; [exact Ha|].
    assert (Hnone : heap st !! a = None).
    { apply not_elem_of_dom. rewrite Ha. apply is_fresh. }
    split; [exact Hnone|].
    rewrite Hdom, Hh0, <- Ha, lookup_insert_eq. simpl. f_equal. apply Hattr.
  - left. rewrite lookup_insert_ne by congruence. apply Hids.
Qed.

(** X21. The regions a page pass adds to the document have pairwise
    different ids. *)
Theorem added_region_ids_distinct (h : gmap addr TextRegionType) (p : PageType)
        (image : PageImage) (preds : list Instance) (st : State) :
  process_page h p image preds = Ok st ->
  forall a b ra rb,
    heap st !! a = Some ra -> heap st !! b = Some rb ->
    h !! a = None -> h !! b = None ->
    region_id ra = region_id rb -> a = b.
Proof.
  intros H. apply process_page_inv in H.
  destruct H as (allregions & worse & st0 & _ & _ & (Hh0 & _) & H). cbn in Hh0.
  pose (Inv := fun (used : list nat) (s : State) =>
    (forall a r, heap s !! a = Some r -> h !! a = None ->
                 exists i, i ∈ used /\ region_id r = address_region_id i) /\
    (forall a b ra rb, heap s !! a = Some ra -> heap s !! b = Some rb ->
                       h !! a = None -> h !! b = None ->
                       region_id ra = region_id rb -> a = b)).
  assert (Hfold : forall entries used s s',
             foldM (process_instance image worse (best_scores preds worse) allregions)
                   entries s = Ok s' ->
             NoDup (map fst entries) -> (forall e, e ∈ entries -> e.1 ∉ used) ->
             Inv used s -> Inv (used ++ map fst entries) s').
  { induction entries as [|[i inst] entries IH]; intros used s s' Hf Hnd Hfresh HI.
    - injection Hf as <-. simpl. rewrite app_nil_r. exact HI.
    - simpl in Hf. inv_bind Hf. rename a into s1.
      simpl in Hnd. apply NoDup_cons in Hnd. destruct Hnd as (Hi & Hnd).
      assert (Hiu : i ∉ used) by (apply (Hfresh (i, inst)), elem_of_cons; auto).
      replace (used ++ map fst ((i, inst) :: entries))
        with ((used ++ [i]) ++ map fst entries) by (rewrite <- app_assoc; reflexivity).
      apply (IH _ s1 s' Hf Hnd).
      { intros e He Hin. apply elem_of_app in Hin. destruct Hin as [Hin|Hin].
        - apply (Hfresh e); [apply elem_of_cons; auto | exact Hin].
        - apply list_elem_of_singleton in Hin. apply Hi. rewrite <- Hin.
          apply list_elem_of_fmap. exists e. auto. }
      destruct HI as (Hused & Huniq).
      assert (Hcase : forall a r, heap s1 !! a = Some r -> h !! a = None ->
                (exists r0 i0, heap s !! a = Some r0 /\ region_id r0 = region_id r /\
                               i0 ∈ used /\ region_id r = address_region_id i0) \/
                (a = fresh (dom (heap s)) /\ heap s !! a = None /\
                 region_id r = address_region_id i)).
      { intros a r Hr Hn.
        destruct (process_instance_ids _ _ _ _ _ _ _ _ a Ha) as [E | (Ea & En & E)].
        - rewrite Hr in E. simpl in E.
          destruct (heap s !! a) as [r0|] eqn:Hr0; [|discriminate].
          simpl in E. injection E as E.
          destruct (Hused a r0 Hr0 Hn) as (i0 & Hi0 & Hid0).
          left. exists r0, i0. repeat split; [congruence | exact Hi0 | congruence].
        - right. rewrite Hr in E. simpl in E. injection E as E. auto. }
      split.
      + intros a r Hr Hn. destruct (Hcase a r Hr Hn) as [(r0 & i0 & _ & _ & Hi0 & Hid) | (_ & _ & Hid)].
        * exists i0. split; [apply elem_of_app; auto | exact Hid].
        * exists i. split; [apply elem_of_app; right; apply list_elem_of_singleton; reflexivity
                           | exact Hid].
      + intros a b ra rb Hra Hrb Hna Hnb Heq.
        destruct (Hcase a ra Hra Hna) as [(ra0 & ia & Hra0 & Hida0 & Hia & Hida) | (Ea & _ & Hida)];
          destruct (Hcase b rb Hrb Hnb) as [(rb0 & ib & Hrb0 & Hidb0 & Hib & Hidb) | (Eb & _ & Hidb)].
        * apply (Huniq a b ra0 rb0); auto. congruence.
        * exfalso. apply Hiu.
          assert (ia = i); [|congruence].
          apply address_region_id_inj. congruence.
        * exfalso. apply Hiu.
          assert (ib = i); [|congruence].
          apply address_region_id_inj. congruence.
        * congruence. }
  assert (HI0 : Inv [] st0).
  { split.
    - intros a r Hr Hn. rewrite Hh0 in Hr. congruence.
    - intros a b ra rb Hra _ Hna. rewrite Hh0 in Hra. congruence. }
  specialize (Hfold (imap (fun i inst => (i, inst)) preds) [] st0 st H).
  destruct Hfold as (_ & Huniq); [| |exact HI0|exact Huniq].
  - rewrite fmap_imap. unfold compose. simpl.
    assert (E : imap (fun (i : nat) (_ : Instance) => i) preds = seq 0 (length preds)).
    { apply list_eq. intros k. rewrite list_lookup_imap.
      destruct (preds !! k) as [x|] eqn:Hk; simpl.
      - symmetry. apply lookup_seq. split; [reflexivity|]. eapply lookup_lt_Some; eassumption.
      - symmetry. apply lookup_ge_None. rewrite length_seq.
        apply lookup_ge_None in Hk. exact Hk. }
    rewrite E. apply NoDup_seq.
  - intros e _ Hin. inversion Hin.
Qed.

Lemma filter_none {A} (P : A -> Prop) {Hdec : forall x, Decision (P x)} (l : list A) :
  (forall x, x ∈ l -> ~ P x) -> filter P l = [].
Proof.
  induction l as [|x l IH]; intros H; [reflexivity|].
  rewrite filter_cons_False by (apply H, elem_of_cons; auto).
  apply IH. intros y Hy. apply H, elem_of_cons. auto.
Qed.

Lemma list_remove_filter (P : addr -> Prop) {Hdec : forall x, Decision (P x)}
      (x : addr) (l l' : list addr) :
  list_remove x l = Ok l' -> ~ P x -> filter P l' = filter P l.
Proof.
  revert l'; induction l as [|y l IH]; intros l' H Hx; simpl in H; [discriminate|].
  destruct (x =? y)%nat eqn:E.
  - apply Nat.eqb_eq in E. subst y. injection H as <-.
    rewrite filter_cons_False by exact Hx. reflexivity.
  - inv_bind H. injection H as <-. rewrite !filter_cons, (IH _ Ha Hx). reflexivity.
Qed.

Lemma survivors_next (worse : list nat) (i : nat) :
  filter (fun j => j ∉ worse) (seq 0 (S i))
  = filter (fun j => j ∉ worse) (seq 0 i) ++ filter (fun j => j ∉ worse) [i].
Proof. rewrite seq_S, filter_app. reflexivity. Qed.

(** C9 (amended). The regions a page pass adds are regions of surviving
    instances, at most one for each, listed on the page in the order of
    the detector's output, and the region of the instance of index [i]
    has the id ['addressregion'] followed by [i + 1] in at least two
    digits.  The instances are numbered before suppression: the number
    of the [k]-th survivor is [k + 1] plus the number of suppressed
    instances before it, so the numbers rise with the detector's order,
    differ from each other, and skip the suppressed instances. *)
Theorem region_id_numbering (h : gmap addr TextRegionType) (p : PageType)
        (image : PageImage) (preds : list Instance) (worse : list nat) (st : State) :
  (forall a, a ∈ page_TextRegion p -> is_Some (h !! a)) ->
  suppression preds = Ok worse ->
  process_page h p image preds = Ok st ->
  let survivors := filter (fun i => i ∉ worse) (seq 0 (length preds)) in
  (forall a, h !! a = None -> is_Some (heap st !! a) -> a ∈ added_regions h st) /\
  (exists added,
     added `sublist_of` survivors /\
     Forall2 (fun a i => region_id <$> heap st !! a = Some (address_region_id i))
             (added_regions h st) added) /\
  (forall k i, survivors !! k = Some i ->
     address_region_id i
     = "addressregion" +:+
         fmt_02d (k + 1 + length (filter (fun j => j ∈ worse) (seq 0 i))) /\
     parse_number (fmt_02d (i + 1)) = Some (i + 1)%nat /\
     ((i + 1 < 10)%nat ->
      fmt_02d (i + 1) = "0" +:+ NilEmpty.string_of_uint (Nat.to_uint (i + 1))) /\
     (forall j, address_region_id i = address_region_id j -> i = j)).
Proof.
  intros Hpage Hw H survivors.
  pose (Inv := fun (k : nat) (s : State) =>
    dom h ⊆ dom (heap s) /\
    (forall a, a ∈ page_TextRegion (page s) -> a ∈ dom (heap s)) /\
    (forall a, h !! a = None -> a ∈ dom (heap s) -> a ∈ page_TextRegion (page s)) /\
    exists added,
      added `sublist_of` filter (fun i => i ∉ worse) (seq 0 k) /\
      Forall2 (fun a i => region_id <$> heap s !! a = Some (address_region_id i))
              (added_regions h s) added).
  pose (Q := fun (i : nat) (c : Candidate) (s : State) =>
    region_id (region c) = address_region_id i /\ (i ∉ worse) /\ Inv i s).
  assert (Hnext : forall i s, Inv i s -> Inv (S i) s).
  { intros i s (H1 & H2 & H3 & added & Hsub & Hall).
    split; [exact H1|]. split; [exact H2|]. split; [exact H3|].
    exists added. split; [|exact Hall].
    rewrite survivors_next. apply sublist_inserts_r, Hsub. }
  assert (HI : Inv (length preds) st).
  { refine (process_page_instances Inv Q h p image preds worse st Hw H _ _ _ _ _ _ _).
    - intros k s s' (Hh & Hp & _) HI. unfold Inv, added_regions in *.
      rewrite Hh, Hp. exact HI.
    - intros i c s s' (Hh & Hp & _) (Hid & Hnw & HI). split; [exact Hid|].
      split; [exact Hnw|]. unfold Inv, added_regions in *. rewrite Hh, Hp. exact HI.
    - unfold Inv, added_regions. cbn. split; [reflexivity|].
      split; [intros a Ha; apply elem_of_dom, Hpage, Ha|].
      split; [intros a Ha Hd; apply not_elem_of_dom in Ha; contradiction|].
      exists []. split; [apply sublist_nil_l|].
      rewrite filter_none; [constructor|].
      intros a Ha Hn. destruct (Hpage a Ha) as (r & Hr). congruence.
    - intros i s _ _ HI. apply Hnext, HI.
    - intros i inst cat name rp np s _ Hnw _ _ HI. split; [reflexivity|]. auto.
    - intros i c neighbour n s c' s' _ (Hid & Hnw & H1 & H2 & H3 & added & Hsub & Hall)
             _ Hsome Hold Hn Hs.
      pose proof (subsume_page _ _ _ _ _ _ Hs) as (Hpsub & Hpkeep & _).
      apply subsume_inv in Hs.
      destruct Hs as (Hattr & _ & _ & _ & _ & _ & _ & Hd & Hpg & _ & Hpa).
      specialize (Hpa Hn).
      assert (Hd' : dom (heap s') = dom (heap s)).
      { rewrite Hd. apply subseteq_union_1_L, singleton_subseteq_l, elem_of_dom. eauto. }
      split; [destruct Hattr as (-> & _); exact Hid|]. split; [exact Hnw|].
      split; [rewrite Hd'; exact H1|].
      split; [intros a Ha; rewrite Hd'; auto|].
      split.
      { intros a Ha Hin. rewrite Hd' in Hin. apply Hpkeep; [auto|].
        intros ->. destruct Hsome as (x & Hx). congruence. }
      exists added. split; [exact Hsub|].
      assert (E : added_regions h s' = added_regions h s).
      { unfold added_regions. destruct Hpg as [(_ & Hr) | (_ & ->)]; [|reflexivity].
        apply (list_remove_filter _ _ _ _ Hr).
        destruct Hsome as (x & Hx). congruence. }
      rewrite E. eapply Forall2_impl; [exact Hall|].
      intros a j Ha. cbv beta in *. rewrite (proj2 (Hpa a)). exact Ha.
    - intros i c s Hlt (Hid & Hnw & HI).
      destruct (has_address c); [|apply Hnext, HI].
      destruct HI as (H1 & H2 & H3 & added & Hsub & Hall).
      pose proof (is_fresh (dom (heap s))) as Hf.
      assert (Hfh : h !! fresh (dom (heap s)) = None).
      { apply not_elem_of_dom. intros Hx. apply Hf, H1, Hx. }
      unfold Inv, added_regions, add_TextRegion.
      cbn [heap page set_page set_heap page_TextRegion set_page_TextRegion].
      split; [rewrite dom_insert; etrans; [exact H1 | apply union_subseteq_r]|].
      split.
      { intros a Ha. rewrite dom_insert, elem_of_union, elem_of_singleton.
        apply elem_of_app in Ha. rewrite list_elem_of_singleton in Ha.
        destruct Ha as [Ha|Ha]; [right; apply H2, Ha | left; exact Ha]. }
      split.
      { intros a Ha Hin. apply elem_of_app.
        rewrite dom_insert, elem_of_union, elem_of_singleton in Hin.
        destruct Hin as [->|Hin]; [right; apply list_elem_of_singleton; reflexivity|].
        left. apply H3; assumption. }
      exists (added ++ [i]). split.
      { rewrite survivors_next. apply sublist_app; [exact Hsub|].
        rewrite filter_cons_True by exact Hnw. reflexivity. }
      rewrite filter_app, filter_cons_True by exact Hfh. rewrite filter_nil.
      apply Forall2_app.
      + eapply Forall2_impl; [exact Hall|]. intros a j Ha. cbv beta in *.
        rewrite lookup_insert_ne; [exact Ha|].
        intros <-. apply Hf, elem_of_dom.
        destruct (heap s !! fresh (dom (heap s))); [eauto | discriminate].
      + constructor; [|constructor]. rewrite lookup_insert_eq. simpl. congruence. }
  destruct HI as (_ & _ & H3 & Hadded).
  split.
  { intros a Ha Hs. unfold added_regions. apply list_elem_of_filter.
    split; [exact Ha|]. apply H3; [exact Ha | apply elem_of_dom, Hs]. }
  split; [exact Hadded|].
  intros k i Hk. exact (survivor_number preds worse k i Hk).
Qed.

End PageInvariants.

(** ** Duplicate suppression (lines 225-231) *)

Lemma foldM_Raise_inv {A S} (f : S -> A -> result S) (l : list A) (s : S) (e : exn) :
  foldM f l s = Raise e -> exists s' x, x ∈ l /\ f s' x = Raise e.
Proof.
  revert s; induction l as [|x l IH]; intros s H; simpl in H; [discriminate|].
  destruct (f s x) as [s1|e1] eqn:E; simpl in H.
  - destruct (IH _ H) as (s' & y & Hy & Hf). exists s', y.
    split; [apply elem_of_cons; auto | exact Hf].
  - injection H as ->. exists s, x. split; [apply elem_of_cons; auto | exact E].
Qed.

Lemma foldM_is_Ok {A S} (f : S -> A -> result S) (g : A -> bool) (l : list A) (s : S) :
  (forall s x, x ∈ l -> is_Ok (f s x) = g x) ->
  is_Ok (foldM f l s) = forallb g l.
Proof.
  revert s; induction l as [|x l IH]; intros s H; simpl; [reflexivity|].
  rewrite <- (H s x) by (apply elem_of_cons; auto).
  destruct (f s x) as [s1|e1]; simpl; [|reflexivity].
  apply IH. intros s' y Hy. apply H, elem_of_cons. auto.
Qed.

Lemma zip_with_swap {A B C} (f : A -> B -> C) (g : B -> A -> C) (a : list A) (b : list B) :
  (forall x y, f x y = g y x) -> zip_with f a b = zip_with g b a.
Proof.
  intros H. revert b; induction a as [|x a IH]; intros [|y b]; simpl; try reflexivity.
  rewrite H, IH. reflexivity.
Qed.

Lemma raster_zip_swap {A B C} (f : A -> B -> C) (g : B -> A -> C)
      (a : Raster A) (b : Raster B) :
  (forall x y, f x y = g y x) -> raster_zip f a b = raster_zip g b a.
Proof.
  intros H. unfold raster_zip. apply zip_with_swap.
  intros x y. apply zip_with_swap, H.
Qed.

Lemma raster_zip_diag {A} (f : A -> A -> A) (a : Raster A) :
  (forall x, f x x = x) -> raster_zip f a a = a.
Proof.
  intros H. unfold raster_zip. induction a as [|row a IH]; simpl; [reflexivity|].
  rewrite IH. f_equal. induction row as [|x row IHr]; simpl; [reflexivity|].
  rewrite H, IHr. reflexivity.
Qed.

Lemma overlapping_swap (imask jmask : Raster bool) :
  overlapping imask jmask = overlapping jmask imask.
Proof.
  unfold overlapping.
  rewrite (raster_zip_swap andb andb imask jmask) by apply andb_comm.
  rewrite (raster_zip_swap orb orb imask jmask) by apply orb_comm.
  reflexivity.
Qed.

(** X9. The duplicate test of line 230 does not depend on the order of
    the two masks; a mask with at least one pixel is a duplicate of
    itself; two masks without any pixel make the test divide by zero; and
    masks that share no pixel are never duplicates. *)
Theorem overlapping_symmetric_reflexive (imask jmask : Raster bool) :
  overlapping imask jmask = overlapping jmask imask /\
  (count_nonzero imask <> 0%Z -> overlapping imask imask = Ok true) /\
  (count_nonzero (raster_zip orb imask jmask) = 0%Z ->
   overlapping imask jmask = Raise ZeroDivisionError) /\
  (count_nonzero (raster_zip orb imask jmask) <> 0%Z ->
   count_nonzero (raster_zip andb imask jmask) = 0%Z ->
   overlapping imask jmask = Ok false).
Proof.
  split; [apply overlapping_swap|]. split; [|split].
  - intros Hne. unfold overlapping.
    rewrite !raster_zip_diag by (intros []; reflexivity).
    unfold py_div. destruct (Z.eqb_spec (count_nonzero imask) 0); [contradiction|].
    simpl. f_equal. apply Qltb_lt.
    assert (E : (inject_Z (count_nonzero imask) / inject_Z (count_nonzero imask) == 1)%Q).
    { apply Qmult_inv_r. intros E. apply n.
      unfold Qeq in E. simpl in E. lia. }
    rewrite E. reflexivity.
  - intros H0. unfold overlapping, py_div. rewrite H0. reflexivity.
  - intros Hne H0. unfold overlapping, py_div. rewrite H0.
    destruct (Z.eqb_spec (count_nonzero (raster_zip orb imask jmask)) 0); [contradiction|].
    reflexivity.
Qed.

Lemma masks_overlap_is_Ok (preds : list Instance) (i j : nat) (pi pj : Instance) :
  preds !! i = Some pi -> preds !! j = Some pj ->
  is_Ok (masks_overlap preds i j)
  = negb (count_nonzero (raster_zip orb (mask pi) (mask pj)) =? 0)%Z.
Proof.
  intros Hi Hj. unfold masks_overlap, overlapping, py_div. rewrite Hi, Hj.
  destruct (_ =? 0)%Z; reflexivity.
Qed.

Lemma suppress_pair_is_Ok (preds : list Instance) (i j : nat) (worse : list nat) :
  (i < length preds)%nat -> (j < length preds)%nat ->
  is_Ok (suppress_pair preds i worse j) = is_Ok (masks_overlap preds i j).
Proof.
  intros Hi Hj. unfold suppress_pair.
  destruct (masks_overlap preds i j) as [[|]|e]; simpl; try reflexivity.
  unfold loser.
  destruct (lookup_lt_is_Some_2 _ _ Hi) as (pi & ->).
  destruct (lookup_lt_is_Some_2 _ _ Hj) as (pj & ->). reflexivity.
Qed.

Lemma suppress_pair_Raise (preds : list Instance) (i j : nat) (worse : list nat) (e : exn) :
  (i < length preds)%nat -> (j < length preds)%nat ->
  suppress_pair preds i worse j = Raise e -> e = ZeroDivisionError.
Proof.
  intros Hi Hj. unfold suppress_pair, masks_overlap, loser, overlapping, py_div.
  destruct (lookup_lt_is_Some_2 _ _ Hi) as (pi & ->).
  destruct (lookup_lt_is_Some_2 _ _ Hj) as (pj & ->).
  destruct (_ =? 0)%Z; simpl; [congruence|].
  destruct (Qltb _ _); simpl; discriminate.
Qed.

(** X10. The suppression pass completes exactly when every two instances
    have at least one mask pixel between them; otherwise it raises, and
    the only exception it can raise is [ZeroDivisionError]. *)
Theorem suppression_raises_on_empty_masks (preds : list Instance) :
  (forall e, suppression preds = Raise e -> e = ZeroDivisionError) /\
  (is_Ok (suppression preds) = true <->
   forall i j pi pj,
     (i < j)%nat -> preds !! i = Some pi -> preds !! j = Some pj ->
     count_nonzero (raster_zip orb (mask pi) (mask pj)) <> 0%Z).
Proof.
  split.
  - intros e H. unfold suppression in H.
    apply foldM_Raise_inv in H. destruct H as (worse & i & Hi & H).
    unfold suppress_row in H.
    apply foldM_Raise_inv in H. destruct H as (worse' & j & Hj & H).
    apply list_elem_of_In, in_seq in Hi. apply list_elem_of_In, in_seq in Hj.
    eapply suppress_pair_Raise; [| |exact H]; lia.
  - unfold suppression.
    rewrite (foldM_is_Ok _ (fun i => forallb (fun j => is_Ok (masks_overlap preds i j))
                                             (seq (S i) (length preds - S i)))).
    2:{ intros worse i Hi. unfold suppress_row. apply foldM_is_Ok.
        intros worse' j Hj.
        apply list_elem_of_In, in_seq in Hi. apply list_elem_of_In, in_seq in Hj.
        apply suppress_pair_is_Ok; lia. }
    rewrite forallb_forall. split.
    + intros H i j pi pj Hij Hi Hj.
      pose proof (lookup_lt_Some _ _ _ Hj) as Hlen.
      specialize (H i). rewrite forallb_forall in H.
      assert (Hin : In i (seq 0 (length preds))) by (apply in_seq; lia).
      specialize (H Hin j). rewrite (masks_overlap_is_Ok _ _ _ _ _ Hi Hj) in H.
      assert (Hjn : In j (seq (S i) (length preds - S i))) by (apply in_seq; lia).
      specialize (H Hjn). apply negb_true_iff, Z.eqb_neq in H. exact H.
    + intros H i Hi. apply forallb_forall. intros j Hj.
      apply in_seq in Hi. apply in_seq in Hj.
      destruct (lookup_lt_is_Some_2 preds i) as (pi & Hpi); [lia|].
      destruct (lookup_lt_is_Some_2 preds j) as (pj & Hpj); [lia|].
      rewrite (masks_overlap_is_Ok _ _ _ _ _ Hpi Hpj).
      apply negb_true_iff, Z.eqb_neq. apply (H i j pi pj); [lia | assumption..].
Qed.

(** X11. A suppressed instance is always a duplicate of another instance
    that scores at least as high, and strictly higher when that one comes
    later in the detector's output; so an instance that outscores all its
    duplicates is never suppressed. *)
Theorem suppressed_is_outscored (preds : list Instance) (worse : list nat) :
  suppression preds = Ok worse ->
  (forall k, k ∈ worse ->
     exists m pk pm,
       m <> k /\ preds !! k = Some pk /\ preds !! m = Some pm /\
       overlapping (mask pk) (mask pm) = Ok true /\
       (score pk <= score pm)%Q /\ ((k < m)%nat -> (score pk < score pm)%Q)) /\
  (forall k pk,
     preds !! k = Some pk ->
     (forall m pm, m <> k -> preds !! m = Some pm ->
                   overlapping (mask pk) (mask pm) = Ok true ->
                   (score pm < score pk)%Q) ->
     k ∉ worse).
Proof.
  intros H.
  assert (Hdom : forall k, k ∈ worse ->
     exists m pk pm,
       m <> k /\ preds !! k = Some pk /\ preds !! m = Some pm /\
       overlapping (mask pk) (mask pm) = Ok true /\
       (score pk <= score pm)%Q /\ ((k < m)%nat -> (score pk < score pm)%Q)).
  { intros k Hk. apply (elem_of_suppression _ _ _ H) in Hk.
    destruct Hk as (i & j & Hij & Hs).
    unfold suppressed_by, masks_overlap, loser in Hs.
    destruct (preds !! i) as [pi|] eqn:Hi; [|discriminate].
    destruct (preds !! j) as [pj|] eqn:Hj; [|discriminate].
    destruct (overlapping (mask pi) (mask pj)) as [[|]|] eqn:Ho; try discriminate.
    destruct (Qltb (score pi) (score pj)) eqn:Hlt; injection Hs as <-.
    - exists j, pi, pj. apply Qltb_lt in Hlt.
      repeat split; auto; [lia | apply Qlt_le_weak, Hlt].
    - exists i, pj, pi. apply Qltb_ge in Hlt. rewrite overlapping_swap.
      repeat split; auto; [lia | intros; lia]. }
  split; [exact Hdom|].
  intros k pk Hk Hmax Hin.
  destruct (Hdom k Hin) as (m & pk' & pm & Hne & Hk' & Hm & Ho & Hle & _).
  assert (pk' = pk) by congruence. subst pk'.
  specialize (Hmax m pm Hne Hm Ho).
  eapply Qlt_not_le; eassumption.
Qed.

(** ** Best scores and classes (lines 232-258) *)

Lemma track_best_length (worse : list nat) (best : list Q) (entry : nat * Instance) :
  length (track_best worse best entry) = length best.
Proof.
  destruct entry as [i inst]. unfold track_best.
  case_bool_decide; [reflexivity|]. destruct (negb _); [reflexivity|].
  destruct (best !! class_id inst); [|reflexivity].
  destruct (Qltb _ _); [apply length_insert | reflexivity].
Qed.

Lemma best_scores_length (preds : list Instance) (worse : list nat) :
  length (best_scores preds worse) = 4%nat.
Proof.
  unfold best_scores. generalize (imap (fun i inst => (i, inst)) preds) as es.
  assert (H : length [0; 0; 0; 0]%Q = 4%nat) by reflexivity. revert H.
  generalize [0; 0; 0; 0]%Q as best. intros best H es. revert best H.
  induction es as [|e es IH]; intros best H; simpl; [exact H|].
  apply IH. rewrite track_best_length. exact H.
Qed.

(** [best[c]] is zero or a tracked score, never negative, and bounds the
    tracked scores of its category. *)
Lemma best_scores_entry (preds : list Instance) (worse : list nat) (c : nat) :
  (c < 4)%nat ->
  exists b,
    best_scores preds worse !! c = Some b /\ (0 <= b)%Q /\
    (forall j instj, preds !! j = Some instj -> j ∉ worse -> class_id instj = c ->
                     c = 1%nat \/ c = 2%nat -> (score instj <= b)%Q) /\
    (b = 0%Q \/ exists j instj, preds !! j = Some instj /\ (j ∉ worse) /\
                                class_id instj = c /\ (c = 1%nat \/ c = 2%nat) /\
                                b = score instj).
Proof.
  intros Hc. unfold best_scores.
  assert (H0 : [0; 0; 0; 0]%Q !! c = Some 0%Q).
  { destruct c as [|[|[|[|c]]]]; try reflexivity. lia. }
  destruct (track_best_fold worse (imap (fun i inst => (i, inst)) preds) _ c _ H0)
    as (b & Hb & Hle & Hub & Hat).
  exists b. split; [exact Hb|]. split; [exact Hle|]. split.
  - intros j instj Hl. apply Hub, elem_of_enumerate, Hl.
  - destruct Hat as [-> | (j & instj & Hin & Hrest)]; [auto|].
    right. exists j, instj. split; [apply elem_of_enumerate, Hin | exact Hrest].
Qed.

(** X12. [best] is all zero, which is when the page is reported to have no
    sender or recipient address, exactly when no non-suppressed instance
    of class 1 or 2 has a positive score. *)
Theorem no_address_warning_condition (preds : list Instance) (worse : list nat) :
  forallb (fun b => Qeq_bool b 0) (best_scores preds worse) = true <->
  forall j instj,
    preds !! j = Some instj -> j ∉ worse ->
    class_id instj = 1%nat \/ class_id instj = 2%nat -> (score instj <= 0)%Q.
Proof.
  rewrite forallb_forall. split.
  - intros H j instj Hj Hw Hc.
    destruct (best_scores_entry preds worse (class_id instj)) as (b & Hb & _ & Hub & _).
    { destruct Hc as [-> | ->]; lia. }
    assert (Hz : Qeq_bool b 0 = true).
    { apply H. apply list_elem_of_In. eapply list_elem_of_lookup_2. exact Hb. }
    apply Qeq_bool_iff in Hz. rewrite <- Hz. apply (Hub j instj); auto.
  - intros H b Hb. apply list_elem_of_In, list_elem_of_lookup_1 in Hb.
    destruct Hb as (c & Hb).
    assert (Hc : (c < 4)%nat).
    { rewrite <- (best_scores_length preds worse). eapply lookup_lt_Some. exact Hb. }
    destruct (best_scores_entry preds worse c Hc) as (b' & Hb' & Hle & _ & Hat).
    assert (b' = b) by congruence. subst b'.
    apply Qeq_bool_iff.
    destruct Hat as [-> | (j & instj & Hj & Hw & Hcl & Hor & ->)]; [reflexivity|].
    apply Qle_antisym; [|exact Hle]. apply (H j instj Hj Hw). rewrite Hcl. exact Hor.
Qed.

Section InstanceErrors.
Context `{K : Shapely} `{U : OcrdUtils} `{CV : OpenCV}.

(** X13. A suppressed instance is skipped whatever its class.  Of the
    others, one of class 0 raises the exception for the background class,
    one of class 4 or above raises [IndexError] at [best[cat]], and one
    of class 1 to 3 is processed under its own class or class 3, both of
    which have a name. *)
Theorem instance_class_out_of_range
        (preds : list Instance) (worse : list nat) (i : nat) (inst : Instance)
        (image : PageImage) (allregions : list (addr * Polygon)) (st : State) :
  let best := best_scores preds worse in
  (i ∈ worse ->
   process_instance image worse best allregions st (i, inst)
   = Ok (LOG "debug" "Ignoring instance overlapping better neighbour" st)) /\
  (i ∉ worse -> class_id inst = 0%nat ->
   process_instance image worse best allregions st (i, inst)
   = Raise (PyException "detected region for background class")) /\
  (i ∉ worse -> (4 <= class_id inst)%nat ->
   process_instance image worse best allregions st (i, inst) = Raise IndexError) /\
  (i ∉ worse -> (1 <= class_id inst <= 3)%nat ->
   exists cat, instance_category worse best i inst = Ok (Some cat) /\
               (cat = class_id inst \/ cat = 3%nat) /\ is_Ok (category_name cat) = true).
Proof.
  intros best. split; [|split; [|split]].
  - intros Hw. unfold process_instance, instance_category.
    rewrite bool_decide_eq_true_2 by exact Hw. reflexivity.
  - intros Hw Hc. unfold process_instance, instance_category.
    rewrite bool_decide_eq_false_2 by exact Hw. rewrite Hc. reflexivity.
  - intros Hw Hc. unfold process_instance, instance_category.
    rewrite bool_decide_eq_false_2 by exact Hw.
    destruct (class_id inst =? 0)%nat eqn:E; [apply Nat.eqb_eq in E; lia|].
    unfold best_at. rewrite lookup_ge_None_2; [reflexivity|].
    unfold best. rewrite best_scores_length. exact Hc.
  - intros Hw Hc. unfold instance_category.
    rewrite bool_decide_eq_false_2 by exact Hw.
    destruct (class_id inst =? 0)%nat eqn:E; [apply Nat.eqb_eq in E; lia|].
    destruct (best_scores_entry preds worse (class_id inst)) as (b & Hb & _); [lia|].
    unfold best_at, best. rewrite Hb. simpl.
    eexists. split; [reflexivity|].
    destruct (Qltb (score inst) b).
    + split; [right; reflexivity | reflexivity].
    + split; [left; reflexivity|].
      destruct (class_id inst) as [|[|[|[|c]]]]; try reflexivity; lia.
Qed.

End InstanceErrors.

(** ** Mask post-processing (lines 259-289) *)

Lemma count_nonzero_nonneg (m : Raster bool) : (0 <= count_nonzero m)%Z.
Proof. unfold count_nonzero. lia. Qed.

(** X14. The kernel size computed from a mask's area is odd and at least
    1, at most one more than a tenth of the square root of the area, and
    is 1 exactly for masks of fewer than 400 pixels. *)
Theorem mask_scale_odd (m : Raster bool) :
  Z.odd (mask_scale m) = true /\ (1 <= mask_scale m)%Z /\
  (mask_scale m <= Z.sqrt (count_nonzero m) / 10 + 1)%Z /\
  (mask_scale m = 1%Z <-> (count_nonzero m < 400)%Z).
Proof.
  unfold mask_scale. pose proof (count_nonzero_nonneg m) as Hc.
  set (s := (Z.sqrt (count_nonzero m) / 10)%Z).
  assert (Hs : (0 <= s)%Z) by (apply Z.div_pos; [apply Z.sqrt_nonneg | lia]).
  assert (Hmod : ((s + 1) mod 2 = 0 \/ (s + 1) mod 2 = 1)%Z).
  { pose proof (Z.mod_pos_bound (s + 1) 2). lia. }
  split; [|split; [|split]].
  - rewrite Z.odd_add. rewrite (Zmod_odd (s + 1)).
    rewrite Z.odd_add. change (Z.odd 1) with true.
    destruct (Z.odd s); reflexivity.
  - destruct Hmod as [H|H]; rewrite H; [|lia].
    assert (s <> 0)%Z; [|lia]. intros E. rewrite E in H. discriminate.
  - lia.
  - assert (Hsq : (Z.sqrt (count_nonzero m) < 20 <-> count_nonzero m < 400)%Z).
    { change 400%Z with (20 * 20)%Z. symmetry. rewrite <- Z.pow_2_r.
      apply Z.sqrt_lt_square; lia. }
    rewrite <- Hsq.
    assert (Hdiv : (s <= 1 <-> Z.sqrt (count_nonzero m) < 20)%Z).
    { unfold s. split; intros H.
      - apply Z.nle_gt. intros Hge.
        assert (2 <= Z.sqrt (count_nonzero m) / 10)%Z; [|lia].
        apply Z.div_le_lower_bound; lia.
      - assert (Z.sqrt (count_nonzero m) / 10 < 2)%Z; [|lia].
        apply Z.div_lt_upper_bound; lia. }
    rewrite <- Hdiv. split; intros H.
    + lia.
    + assert (s = 0 \/ s = 1)%Z as [-> | ->] by lia; reflexivity.
Qed.

Lemma pixel_raster_max (m : list (list bool)) (r c : nat) :
  pixel m r c = true -> raster_max m = true.
Proof.
  unfold pixel, raster_max. intros H.
  destruct (m !! r) as [row|] eqn:Hr; [|discriminate].
  destruct (row !! c) as [b|] eqn:Hc; [|discriminate]. simpl in H. subst b.
  apply existsb_exists. exists true. split; [|reflexivity].
  apply in_concat. exists row.
  split; apply list_elem_of_In; eapply list_elem_of_lookup_2; eassumption.
Qed.

Lemma raster_max_false (m : list (list bool)) (r c : nat) :
  raster_max m = false -> pixel m r c = false.
Proof.
  intros H. destruct (pixel m r c) eqn:E; [|reflexivity].
  apply pixel_raster_max in E. congruence.
Qed.

Lemma pixel_fill_rect (m : list (list bool)) (top bottom left right : Z) (r c : nat) :
  pixel m r c = true -> pixel (fill_rect m top bottom left right true) r c = true.
Proof.
  unfold pixel, fill_rect. rewrite list_lookup_imap. intros H.
  destruct (m !! r) as [row|] eqn:Hr; [|discriminate]. simpl.
  destruct (row !! c) as [x|] eqn:Hc; [|discriminate]. simpl in H. subst x.
  case_bool_decide as Hrow; [|rewrite Hc; reflexivity].
  rewrite list_lookup_imap, Hc. simpl. case_bool_decide; reflexivity.
Qed.

Lemma fill_rect_shape (m : list (list bool)) (top bottom left right : Z) (v : bool) :
  map length (fill_rect m top bottom left right v) = map length m.
Proof.
  unfold fill_rect. apply list_eq. intros r.
  rewrite !list_lookup_fmap, list_lookup_imap.
  destruct (m !! r) as [row|]; simpl; [|reflexivity].
  case_bool_decide; [rewrite length_imap|]; reflexivity.
Qed.

Lemma fill_rect_empty (m : list (list bool)) (top bottom left right : Z) :
  raster_max m = false -> fill_rect m top bottom left right false = m.
Proof.
  intros H. unfold fill_rect. apply list_eq. intros r.
  rewrite list_lookup_imap. destruct (m !! r) as [row|] eqn:Hr; simpl; [|reflexivity].
  case_bool_decide; [|reflexivity]. f_equal. apply list_eq. intros c.
  rewrite list_lookup_imap. destruct (row !! c) as [x|] eqn:Hc; simpl; [|reflexivity].
  case_bool_decide; [|reflexivity]. f_equal.
  pose proof (raster_max_false m r c H) as Hp. unfold pixel in Hp.
  rewrite Hr, Hc in Hp. simpl in Hp. congruence.
Qed.

Section MaskFacts.
Context `{CV : OpenCV}.

Lemma fill_component_grows (image : PageImage) (m : list (list bool)) (label : Z) :
  (forall r c, pixel m r c = true -> pixel (fill_component image m label) r c = true) /\
  map length (fill_component image m label) = map length m /\
  (raster_max m = false -> fill_component image m label = m).
Proof.
  unfold fill_component. destruct (label =? 0)%Z; [auto|].
  destruct (boundingRect _) as [[[x0 y0] w] h].
  split; [|split].
  - intros r c H. rewrite (pixel_raster_max m r c H). apply pixel_fill_rect, H.
  - apply fill_rect_shape.
  - intros H. rewrite H. apply fill_rect_empty, H.
Qed.

(** X15. Filling the mask from the boxes of the connected components it
    touches only adds pixels: every pixel of the mask is still set, the
    raster keeps its shape, and a mask without pixels stays as it is. *)
Theorem fill_components_grows (image : PageImage) (m : list (list bool)) :
  (forall r c, pixel m r c = true -> pixel (fill_components image m) r c = true) /\
  map length (fill_components image m) = map length m /\
  (raster_max m = false -> fill_components image m = m).
Proof.
  unfold fill_components. cbv zeta.
  generalize (np_unique (concat (raster_zip (fun (b : bool) c => if b then c else 0%Z)
                                            m (components image)))) as labels.
  intros labels. revert m. induction labels as [|label labels IH]; intros m; simpl; [auto|].
  destruct (fill_component_grows image m label) as (Hg & Hs & He).
  destruct (IH (fill_component image m label)) as (Hg' & Hs' & He').
  split; [|split].
  - intros r c H. apply Hg', Hg, H.
  - rewrite Hs'. exact Hs.
  - intros H. rewrite (He H). rewrite (He H) in He'. apply He', H.
Qed.

Lemma dilate_loop_rounds (scale : Z) (rounds : nat) (m : Raster bool)
      (contours : list (list point)) :
  (1 <= rounds)%nat -> length contours <> 1%nat ->
  exists k,
    (1 <= k <= rounds)%nat /\
    dilate_loop rounds scale m contours = findContours (dilated scale m k) /\
    (forall j, (1 <= j < k)%nat -> length (findContours (dilated scale m j)) <> 1%nat) /\
    ((k < rounds)%nat -> length (findContours (dilated scale m k)) = 1%nat).
Proof.
  revert m contours. induction rounds as [|rounds IH]; intros m contours Hr Hc; [lia|].
  simpl. destruct (length contours =? 1)%nat eqn:E; [apply Nat.eqb_eq in E; contradiction|].
  destruct rounds as [|rounds'].
  - exists 1%nat. split; [lia|]. split; [reflexivity|]. split; intros; lia.
  - destruct (Nat.eq_dec (length (findContours (dilate m scale))) 1) as [H1|H1].
    + exists 1%nat. split; [lia|]. split.
      * simpl. rewrite H1. reflexivity.
      * split; [intros; lia | intros _; exact H1].
    + destruct (IH (dilate m scale) (findContours (dilate m scale))) as (k & Hk & Hres & Hbefore & Hstop);
        [lia | exact H1 |].
      assert (Hshift : forall j, dilated scale (dilate m scale) j = dilated scale m (S j)).
      { intros j. unfold dilated. rewrite Nat.iter_succ_r. reflexivity. }
      exists (S k). split; [lia|]. split; [rewrite Hres, Hshift; reflexivity|]. split.
      * intros j Hj. destruct j as [|j]; [lia|]. destruct j as [|j].
        -- exact H1.
        -- rewrite <- Hshift. apply Hbefore. lia.
      * intros Hlt. rewrite <- Hshift. apply Hstop. lia.
Qed.

(** X16. The contour of an instance is the first outer contour found
    after [k] dilations of the filled mask, where [k] is the first round
    from 1 to 10 that leaves exactly one contour, or 10 when none does;
    when that round finds no contour at all, [contours[0]] raises
    [IndexError]. *)
Theorem mask_contour_rounds (image : PageImage) (m : Raster bool) :
  exists k,
    (1 <= k <= 10)%nat /\
    (forall j, (1 <= j < k)%nat ->
       length (findContours (dilated (mask_scale m) (fill_components image m) j)) <> 1%nat) /\
    ((k < 10)%nat ->
       length (findContours (dilated (mask_scale m) (fill_components image m) k)) = 1%nat) /\
    mask_contour image m
    = match findContours (dilated (mask_scale m) (fill_components image m) k) with
      | contour :: _ => Ok contour
      | [] => Raise IndexError
      end.
Proof.
  destruct (dilate_loop_rounds (mask_scale m) 10 (fill_components image m) [[]; []])
    as (k & Hk & Hres & Hbefore & Hstop); [lia | simpl; lia |].
  exists k. split; [exact Hk|]. split; [exact Hbefore|]. split; [exact Hstop|].
  unfold mask_contour. rewrite Hres. reflexivity.
Qed.

End MaskFacts.

(** ** Polygon repair and clipping (lines 376-429) *)

Lemma rotate_coords_length {A} (k : nat) (l : list A) :
  length (rotate_coords k l) = length l.
Proof.
  unfold rotate_coords. rewrite length_app, length_skipn, length_firstn. lia.
Qed.

Lemma close_ring_length (coords : list point) :
  (length coords <= length (close_ring coords))%nat.
Proof.
  unfold close_ring. destruct coords as [|c0 l]; [reflexivity|].
  destruct (_ || _); [rewrite length_app; lia | reflexivity].
Qed.

Lemma Polygon_of_accepts (coords : list point) :
  (3 <= length coords)%nat ->
  exists p, Polygon_of coords = Ok p /\ (3 <= length (exterior_coords p))%nat.
Proof.
  intros H. unfold Polygon_of. destruct coords as [|c0 l]; [simpl in H; lia|].
  destruct (length (c0 :: l) <? 3)%nat eqn:E; [apply Nat.ltb_lt in E; lia|].
  eexists. split; [reflexivity|]. cbn [exterior_coords].
  pose proof (close_ring_length (c0 :: l)). lia.
Qed.

Section RepairReturns.
Context `{K : Shapely}.

Lemma make_valid_rotate_returns (splits : list Z) (polygon : Polygon) :
  (3 <= length (exterior_coords polygon))%nat ->
  exists p, make_valid_rotate splits polygon = Ok p.
Proof.
  revert polygon; induction splits as [|split rest IH]; intros polygon H; simpl; [eauto|].
  destruct (_ || _); [eauto|].
  destruct (Polygon_of_accepts (rotate_coords (Z.to_nat split) (exterior_coords polygon)))
    as (p & Hp & Hlen); [rewrite rotate_coords_length; exact H|].
  rewrite Hp. simpl. apply IH, Hlen.
Qed.

(** X17. [make_valid] returns for every polygon: rebuilding the polygon
    from its rotated coordinates never fails, as a ring of at least three
    coordinates keeps at least three. *)
Theorem make_valid_returns (polygon : Polygon) :
  exists p, make_valid polygon = Ok p.
Proof.
  unfold make_valid.
  destruct (le_lt_dec 3 (length (exterior_coords polygon))) as [H|H].
  - destruct (make_valid_rotate_returns
                (py_range 1 (Z.of_nat (length (exterior_coords polygon)) - 1)) polygon H)
      as (p & ->).
    simpl. eauto.
  - assert (E : py_range 1 (Z.of_nat (length (exterior_coords polygon)) - 1) = []).
    { unfold py_range.
      replace (Z.to_nat (Z.of_nat (length (exterior_coords polygon)) - 1 - 1)) with 0%nat by lia.
      reflexivity. }
    rewrite E. simpl. eauto.
Qed.

Lemma rotate_coords_elem {A} (k : nat) (l : list A) (c : A) :
  c ∈ rotate_coords k l <-> c ∈ l.
Proof.
  split; [apply rotate_coords_subset|]. intros H.
  rewrite <- (take_drop (length l - k) l) in H. apply elem_of_app in H.
  unfold rotate_coords. apply elem_of_app. tauto.
Qed.

Lemma close_ring_elem (coords : list point) (c : point) :
  c ∈ close_ring coords <-> c ∈ coords.
Proof.
  split; [apply close_ring_subset|].
  unfold close_ring. destruct coords as [|c0 l]; [auto|].
  destruct (_ || _); [|auto]. intros H. apply elem_of_app. auto.
Qed.

Lemma close_ring_length_le (coords : list point) :
  (length (close_ring coords) <= S (length coords))%nat.
Proof.
  unfold close_ring. destruct coords as [|c0 l]; [simpl; lia|].
  destruct (_ || _); [rewrite length_app; simpl; lia | lia].
Qed.

Lemma make_valid_rotate_vertices (splits : list Z) (polygon : Polygon) :
  (3 <= length (exterior_coords polygon))%nat ->
  exists p, make_valid_rotate splits polygon = Ok p /\
            (3 <= length (exterior_coords p))%nat /\
            forall c, c ∈ exterior_coords p <-> c ∈ exterior_coords polygon.
Proof.
  revert polygon; induction splits as [|split rest IH]; intros polygon H; simpl.
  - exists polygon. split; [reflexivity|]. split; [exact H | tauto].
  - destruct (_ || _); [exists polygon; split; [reflexivity|]; split; [exact H | tauto]|].
    destruct (Polygon_of_accepts (rotate_coords (Z.to_nat split) (exterior_coords polygon)))
      as (p1 & Hp1 & Hlen); [rewrite rotate_coords_length; exact H|].
    rewrite Hp1. simpl. destruct (IH p1 Hlen) as (p & Hp & Hl & Hv).
    exists p. split; [exact Hp|]. split; [exact Hl|].
    intros c. rewrite Hv, (Polygon_of_coords _ _ Hp1), close_ring_elem, rotate_coords_elem.
    tauto.
Qed.

(** X23. The first loop of [make_valid] only re-orders the ring: the
    polygon it ends with has exactly the vertices of the polygon it was
    given, and at most one coordinate more for each rotation (the closing
    point that [Polygon] appends to the rotated list). *)
Theorem rotation_keeps_vertices (splits : list Z) (polygon rotated : Polygon) :
  make_valid_rotate splits polygon = Ok rotated ->
  (forall c, c ∈ exterior_coords rotated <-> c ∈ exterior_coords polygon) /\
  (length (exterior_coords polygon) <= length (exterior_coords rotated)
   <= length (exterior_coords polygon) + length splits)%nat.
Proof.
  revert polygon; induction splits as [|split rest IH]; intros polygon H; simpl in H.
  - injection H as <-. split; [tauto | simpl; lia].
  - destruct (_ || _).
    + injection H as <-. split; [tauto | simpl; lia].
    + inv_bind H. rename a into p1. destruct (IH _ H) as (Hv & Hlen).
      pose proof (Polygon_of_coords _ _ Ha) as Hc.
      split.
      * intros c. rewrite Hv, Hc, close_ring_elem, rotate_coords_elem. tauto.
      * rewrite Hc in Hlen.
        pose proof (close_ring_length
                      (rotate_coords (Z.to_nat split) (exterior_coords polygon))) as H1.
        pose proof (close_ring_length_le
                      (rotate_coords (Z.to_nat split) (exterior_coords polygon))) as H2.
        rewrite rotate_coords_length in H1, H2. simpl. lia.
Qed.

Lemma py_range_small (hi : Z) : (hi <= 1)%Z -> py_range 1 hi = [].
Proof.
  intros H. unfold py_range. replace (Z.to_nat (hi - 1)) with 0%nat by lia. reflexivity.
Qed.

Lemma py_int_below (x : Q) (n : Z) : (0 < n)%Z -> (x < inject_Z n)%Q -> (py_int x < n)%Z.
Proof.
  intros Hn H. unfold py_int. unfold Qlt in H. simpl in H.
  destruct (Z.le_gt_cases 0 (Qnum x)) as [Hpos|Hneg].
  - apply Z.quot_lt_upper_bound; [exact Hpos | lia | lia].
  - assert (0 <= (- Qnum x) ÷ Z.pos (Qden x))%Z by (apply Z.quot_pos; lia).
    rewrite Z.quot_opp_l in H0 by lia. lia.
Qed.

(** X18. The tolerances of the second loop are [1 .. int(area) - 1]: a
    polygon that leaves the first loop with an area below 2 is returned as
    it is, valid or not. *)
Theorem make_valid_small_area (polygon rotated : Polygon) :
  make_valid_rotate (py_range 1 (Z.of_nat (length (exterior_coords polygon)) - 1)) polygon
  = Ok rotated ->
  (area rotated < 2)%Q ->
  make_valid polygon = Ok rotated.
Proof.
  intros H Ha. unfold make_valid. rewrite H. simpl.
  rewrite py_range_small; [reflexivity|].
  pose proof (py_int_below (area rotated) 2 ltac:(lia) Ha). lia.
Qed.

End RepairReturns.

Section ClipFixedPoints.
Context `{K : Shapely} `{U : OcrdUtils} {L : ShapelyLaws K}.

(** X19. Against a page without a Border and with a non-empty image, a
    valid polygon in open form whose vertices lie in the page rectangle is
    returned by [polygon_for_parent] exactly as it was given: it is not
    clipped, and coordinates between pixels are not rounded. *)
Theorem clip_keeps_valid_ring_in_page (page : PageType) (r : list point) :
  Border page = None ->
  (0 < imageWidth page)%Z -> (0 < imageHeight page)%Z ->
  coords_in (page_box (imageWidth page) (imageHeight page)) r ->
  open_ring r ->
  (forall p, Polygon_of r = Ok p -> is_valid p = true) ->
  polygon_for_parent r (ParentPage page) = Ok (Some r).
Proof.
  intros HB Hw Hh Hin Hopen Hvalid.
  destruct (Polygon_of_open_ring r Hopen) as (c0 & Hc0 & Hp).
  pose proof (Hvalid _ Hp) as Hv.
  destruct (Polygon_of_accepts (canvas page)) as (parentp0 & Hp0 & _); [simpl; lia|].
  assert (Hvp : is_valid parentp0 = true).
  { apply (canvas_valid (imageWidth page) (imageHeight page)); [lia | lia | exact Hp0]. }
  unfold polygon_for_parent. rewrite Hp, bind_ret_l.
  unfold parent_polygon. rewrite HB, Hp0, bind_ret_l.
  rewrite (make_valid_valid _ Hv), bind_ret_l.
  rewrite (make_valid_valid _ Hvp), bind_ret_l.
  rewrite (within_complete _ (imageWidth page) (imageHeight page) _ Hp0 Hv).
  - rewrite bind_ret_l. cbn [exterior_coords].
    unfold drop_last. rewrite removelast_last. reflexivity.
  - cbn [exterior_coords]. destruct r; discriminate.
  - unfold poly_in. cbn [exterior_coords]. apply Forall_app. split; [exact Hin|].
    constructor; [|constructor].
    unfold coords_in in Hin. rewrite Forall_forall in Hin. apply Hin, Hc0.
Qed.

End ClipFixedPoints.

Section ThinClips.
Context `{K : Shapely} `{U : OcrdUtils} {F : FlatLaws K}.

Lemma polygon_for_parent_of_clipped (polygon : list point) (page : PageType) (q : Polygon) :
  Border page = None ->
  clipped polygon page = Ok (Some q) ->
  polygon_for_parent polygon (ParentPage page)
  = (p <- (if clearance_below_1 q
           then (p' <- Polygon_of (round_coords (exterior_coords q));; make_valid p')
           else Ok q);;
     Ok (Some (drop_last (exterior_coords p)))).
Proof.
  intros HB H. unfold clipped in H.
  inv_bind H. rename a into childp0, Ha into Hc0.
  inv_bind H. rename a into parentp0, Ha into Hp0.
  inv_bind H. rename a into childp, Ha into Hc.
  inv_bind H. rename a into parentp, Ha into Hp.
  inv_bind H. rename a into inside, Ha into Hin.
  destruct inside; [discriminate|].
  inv_bind H. rename a into interp, Ha into Hi.
  destruct (geom_is_empty interp || Qeq_bool (geom_area interp) 0) eqn:He; [discriminate|].
  inv_bind H. injection H as <-. rename Ha into Hq.
  unfold polygon_for_parent, parent_polygon.
  rewrite HB, Hc0, bind_ret_l, Hp0, bind_ret_l, Hc, bind_ret_l, Hp, bind_ret_l,
    Hin, bind_ret_l, Hi, bind_ret_l, He, clip_postprocess_connect, Hq, bind_ret_l.
  reflexivity.
Qed.

Lemma round_coords_on_line (k : Z) (coords : list point) :
  (forall c, c ∈ coords -> np_round (snd c) = k) -> on_line k (round_coords coords).
Proof.
  intros H. unfold on_line, round_coords. apply Forall_map, Forall_forall.
  intros c Hc. simpl. rewrite (H c Hc). apply Qeq_refl.
Qed.

Lemma on_line_vertices (k : Z) (l l' : list point) :
  (forall c, c ∈ l' -> c ∈ l) -> on_line k l -> on_line k l'.
Proof.
  unfold on_line. rewrite !Forall_forall. intros Hsub H c Hc. apply H, Hsub, Hc.
Qed.

(** C1 (a defect of the code). When the clip of this run has a clearance
    below 1 and its coordinates all round onto one horizontal line, as
    those of a strip thinner than a pixel do, the rounded ring is given
    to [make_valid], which can only turn it, and what comes back is
    returned without a look at its validity: the result is a ring on
    that line, the open form of a polygon that is not valid. *)
Theorem rounded_clip_returned_invalid
        (polygon : list point) (page : PageType) (q : Polygon) (k : Z) :
  Border page = None ->
  clipped polygon page = Ok (Some q) ->
  clearance_below_1 q = true ->
  (3 <= length (exterior_coords q))%nat ->
  (forall c, c ∈ exterior_coords q -> np_round (snd c) = k) ->
  exists pf,
    polygon_for_parent polygon (ParentPage page)
    = Ok (Some (drop_last (exterior_coords pf))) /\
    (forall c, c ∈ exterior_coords pf <-> c ∈ round_coords (exterior_coords q)) /\
    on_line k (exterior_coords pf) /\
    is_valid pf = false.
Proof.
  intros HB Hq Hclear Hlen Hround.
  rewrite (polygon_for_parent_of_clipped polygon page q HB Hq), Hclear.
  destruct (Polygon_of_accepts (round_coords (exterior_coords q))) as (p0 & Hp0 & Hlen0).
  { unfold round_coords. rewrite length_map. exact Hlen. }
  pose proof (Polygon_of_coords _ _ Hp0) as Hc0.
  destruct (make_valid_rotate_vertices
              (py_range 1 (Z.of_nat (length (exterior_coords p0)) - 1)) p0 Hlen0)
    as (pf & Hpf & Hlenf & Hv).
  assert (Hvert : forall c, c ∈ exterior_coords pf <-> c ∈ round_coords (exterior_coords q)).
  { intros c. rewrite Hv, Hc0. apply close_ring_elem. }
  assert (Hline : on_line k (exterior_coords pf)).
  { apply (on_line_vertices k (round_coords (exterior_coords q)));
      [intros c Hc; apply Hvert, Hc|].
    apply round_coords_on_line, Hround. }
  assert (Hmv : make_valid p0 = Ok pf).
  { unfold make_valid. rewrite Hpf, bind_ret_l.
    rewrite py_range_small; [reflexivity|].
    assert (Ha : (area pf < inject_Z 1)%Q).
    { rewrite (flat_area pf k Hline). reflexivity. }
    pose proof (py_int_below (area pf) 1 ltac:(lia) Ha). lia. }
  exists pf. rewrite Hp0, bind_ret_l, Hmv, bind_ret_l.
  split; [reflexivity|]. split; [exact Hvert|]. split; [exact Hline|].
  apply (flat_invalid pf k); [|exact Hline].
  destruct (exterior_coords pf); [simpl in Hlenf; lia | discriminate].
Qed.

End ThinClips.

(** ** Marking text lines (lines 179-189) *)

Lemma prefix_append (p s : string) :
  String.prefix p s = true -> exists rest, s = p +:+ rest.
Proof.
  revert s; induction p as [|a p IH]; intros s H.
  - exists s. reflexivity.
  - destruct s as [|b s]; [discriminate|]. simpl in H.
    destruct (Ascii.ascii_dec a b) as [->|]; [|discriminate].
    destruct (IH _ H) as (rest & ->). exists rest. reflexivity.
Qed.

Lemma append_prefix (p s : string) : String.prefix p (p +:+ s) = true.
Proof.
  induction p as [|a p IH]; simpl; [destruct s; reflexivity|].
  destruct (Ascii.ascii_dec a a); [exact IH | contradiction].
Qed.

Lemma str_replace_from_skip (old new t s : string) :
  str_replace_from old new (String.length t) (t +:+ s) = str_replace_from old new 0 s.
Proof. induction t as [|a t IH]; [reflexivity | exact IH]. Qed.

Lemma str_replace_occurrence (old new s : string) :
  old <> "" -> str_replace (old +:+ s) old new = new +:+ str_replace s old new.
Proof.
  intros Hne. destruct old as [|a old]; [contradiction|].
  unfold str_replace. rewrite append_cons. cbn [str_replace_from].
  rewrite <- append_cons, append_prefix. cbn [String.length].
  replace (S (String.length old) - 1)%nat with (String.length old) by lia.
  rewrite str_replace_from_skip. reflexivity.
Qed.

Lemma str_replace_ADDRESS (rest : string) :
  str_replace ("ADDRESS_" +:+ rest) "subtype: " ""
  = "ADDRESS_" +:+ str_replace rest "subtype: " "".
Proof. unfold str_replace. cbn. reflexivity. Qed.

(** X20. A line that counts as an address line for the acceptance of a
    region has a custom attribute ['subtype: ADDRESS_...'], its class in
    [mark_line] is that attribute without ['subtype: '], and it is drawn
    with 255, the value of the address channel, unless that class is
    ['ADDRESS_NONE'] itself, which is drawn with 200. *)
Theorem address_line_marked (line : TextLineType) :
  is_address_line line = true ->
  exists rest,
    line_custom line = Some ("subtype: ADDRESS_" +:+ rest) /\
    text_class line = "ADDRESS_" +:+ str_replace rest "subtype: " "" /\
    (line_fill line = 200%Z <-> str_replace rest "subtype: " "" = "NONE").
Proof.
  unfold is_address_line. intros H.
  destruct (line_custom line) as [custom|] eqn:Hc; [|discriminate].
  apply andb_true_iff in H. destruct H as [_ H].
  apply prefix_append in H. destruct H as (rest & ->).
  exists rest. split; [reflexivity|].
  assert (Ht : text_class line = "ADDRESS_" +:+ str_replace rest "subtype: " "").
  { unfold text_class. rewrite Hc. cbv zeta. unfold default. cbn [from_option id]. unfold id.
    pose proof (str_replace_occurrence "subtype: " "" ("ADDRESS_" +:+ rest)) as E.
    rewrite append_empty in E.
    change ("subtype: " +:+ "ADDRESS_" +:+ rest) with ("subtype: ADDRESS_" +:+ rest) in E.
    rewrite E by discriminate. rewrite str_replace_ADDRESS.
    unfold startswith. rewrite append_prefix. reflexivity. }
  split; [exact Ht|].
  unfold line_fill. rewrite Ht.
  change "ADDRESS_NONE" with ("ADDRESS_" +:+ "NONE").
  split.
  - destruct (String.eqb _ _) eqn:E; [|discriminate]. intros _.
    apply String.eqb_eq in E. apply append_inj_l in E. exact E.
  - intros ->. reflexivity.
Qed.

(** ** Foreground of the binarized image (lines 171-172) *)

Lemma fold_min_two_level (t : Z) (l : list Z) (x : Z) :
  (x = 0 \/ x = t)%Z -> Forall (fun v => v = 0 \/ v = t)%Z l ->
  (fold_left Z.min l x = 0 \/ fold_left Z.min l x = t)%Z.
Proof.
  revert x; induction l as [|y l IH]; intros x Hx Hl; simpl; [exact Hx|].
  apply Forall_cons in Hl. destruct Hl as (Hy & Hl). apply IH; [|exact Hl]. lia.
Qed.

Lemma fold_max_two_level (t : Z) (l : list Z) (x : Z) :
  (x = 0 \/ x = t)%Z -> Forall (fun v => v = 0 \/ v = t)%Z l ->
  (fold_left Z.max l x = 0 \/ fold_left Z.max l x = t)%Z.
Proof.
  revert x; induction l as [|y l IH]; intros x Hx Hl; simpl; [exact Hx|].
  apply Forall_cons in Hl. destruct Hl as (Hy & Hl). apply IH; [|exact Hl]. lia.
Qed.

Lemma two_level_concat (d : dtype) (a : list (list Z)) :
  two_level d a -> Forall (fun v => v = 0 \/ v = dtype_top d)%Z (concat a).
Proof.
  unfold two_level. intros H. apply Forall_concat. exact H.
Qed.

(** X22. On an image of two levels, black and the largest value of its
    element type (booleans, or unsigned integers of at least one bit),
    the foreground is exactly the black pixels.  This includes the image
    without any black pixel: on unsigned integers the sum of minimum and
    maximum wraps around, and nothing is foreground. *)
Theorem foreground_of_two_levels (d : dtype) (a : list (list Z)) :
  match d with np_bool => True | np_uint bits => (1 <= bits)%N end ->
  two_level d a -> concat a <> [] ->
  foreground d a = Ok (map (map (fun v => (v =? 0)%Z)) a).
Proof.
  intros Hd Ha Hne. unfold foreground.
  pose proof (two_level_concat d a Ha) as Hc.
  destruct (concat a) as [|x l] eqn:E; [contradiction|].
  apply Forall_cons in Hc. destruct Hc as (Hx & Hl).
  cbn [array_min array_max]. rewrite !bind_ret_l.
  pose proof (fold_min_two_level _ l x Hx Hl) as Hlo.
  pose proof (fold_max_two_level _ l x Hx Hl) as Hhi.
  set (lo := fold_left Z.min l x) in *. set (hi := fold_left Z.max l x) in *.
  assert (Hs : (0 <= scalar_add d lo hi < 2 * dtype_top d)%Z).
  { destruct d as [|bits]; simpl in *.
    - lia.
    - assert (H2 : (2 <= 2 ^ Z.of_N bits)%Z).
      { change 2%Z with (2 ^ 1)%Z at 1. apply Z.pow_le_mono_r; lia. }
      pose proof (Z.mod_pos_bound (lo + hi) (2 ^ Z.of_N bits)). lia. }
  assert (Ht : (1 <= dtype_top d)%Z).
  { destruct d as [|bits]; simpl in *; [lia|].
    assert (H2 : (2 <= 2 ^ Z.of_N bits)%Z).
    { change 2%Z with (2 ^ 1)%Z at 1. apply Z.pow_le_mono_r; lia. }
    lia. }
  f_equal. unfold two_level in Ha.
  apply list_eq. intros r. rewrite !list_lookup_fmap.
  destruct (a !! r) as [row|] eqn:Hr; simpl; [|reflexivity]. f_equal.
  assert (Hrow : Forall (fun v => v = 0 \/ v = dtype_top d)%Z row).
  { rewrite Forall_forall in Ha. apply Ha. eapply list_elem_of_lookup_2. exact Hr. }
  apply list_eq. intros c. rewrite !list_lookup_fmap.
  destruct (row !! c) as [v|] eqn:Hv; simpl; [|reflexivity]. f_equal.
  assert (Hval : (v = 0 \/ v = dtype_top d)%Z).
  { rewrite Forall_forall in Hrow. apply Hrow. eapply list_elem_of_lookup_2. exact Hv. }
  destruct (Qle_bool _ _) eqn:Hle.
  - apply Qle_bool_iff in Hle. unfold Qle in Hle. simpl in Hle.
    symmetry. apply Z.eqb_eq. lia.
  - symmetry. apply Z.eqb_neq. intros ->.
    assert (Hle' : Qle_bool (inject_Z 0) ((1 # 2) * inject_Z (scalar_add d lo hi)) = true).
    { apply Qle_bool_iff. unfold Qle. simpl. lia. }
    congruence.
Qed.

(** * More runs on concrete pages *)

Section ReadingOrderRuns.
Import BoxWorld Collaborators BoxLaws Scenarios.

Lemma distinct_refs_witness :
  NoDup (map get_regionRef (ro_descendants reading)) /\
  RegionRef true 2 "r2" ∈ ro_descendants reading /\
  page_get_reading_order ∅ reading !! "r2" = Some 2%nat.
Proof.
  assert (Hnd : NoDup (map get_regionRef (ro_descendants reading))).
  { apply (bool_decide_unpack _). vm_compute. exact I. }
  assert (He : RegionRef true 2 "r2" ∈ ro_descendants reading).
  { simpl. apply elem_of_cons. right. apply elem_of_cons. left. reflexivity. }
  split; [exact Hnd|]. split; [exact He|].
  exact (reading_order_distinct_refs ∅ reading (RegionRef true 2 "r2") Hnd He).
Defined.

Lemma reading_objects_distinct (g : ROElem) :
  ReadingOrder page12 = Some g -> NoDup (map ro_addr (g :: ro_descendants g)).
Proof.
  intros Hg. injection Hg as <-. apply (bool_decide_unpack _). vm_compute. exact I.
Defined.

Lemma kept_consistent_witness :
  exists st,
    process_page (two_paragraphs zip_custom) page12 (blank_image 12 8) [cover] = Ok st /\
    ro_consistent (ro_regionRef st) (reading_order st) /\
    dom (ro_regionRef st)
    = dom (ro_regionRef (initial_state (two_paragraphs zip_custom) page12)) /\
    (forall a id, ro_regionRef st !! a = Some id ->
       ro_regionRef (initial_state (two_paragraphs zip_custom) page12) !! a = Some id \/
       exists i, (i < length [cover])%nat /\ id = address_region_id i).
Proof.
  eexists.
  match goal with
  | |- ?A /\ _ => assert (H : A) by (vm_compute; reflexivity)
  end.
  split; [exact H|].
  exact (reading_order_kept_consistent _ _ _ _ _ reading_objects_distinct H).
Defined.

Lemma two_paragraphs_lookup (custom : option string) (a : addr) (r : TextRegionType) :
  two_paragraphs custom !! a = Some r ->
  (a = 1%nat /\ r = paragraph1 custom) \/ (a = 2%nat /\ r = paragraph2).
Proof.
  unfold two_paragraphs. intros H.
  destruct (decide (a = 1%nat)) as [->|H1].
  - rewrite lookup_insert_eq in H. injection H as <-. auto.
  - rewrite lookup_insert_ne in H by congruence.
    destruct (decide (a = 2%nat)) as [->|H2].
    + rewrite lookup_insert_eq in H. injection H as <-. auto.
    + rewrite lookup_insert_ne in H by congruence. rewrite lookup_empty in H. discriminate.
Defined.

Lemma paragraph_ids_distinct (custom : option string) (a b : addr) (ra rb : TextRegionType) :
  two_paragraphs custom !! a = Some ra -> two_paragraphs custom !! b = Some rb ->
  region_id ra = region_id rb -> a = b.
Proof.
  intros Ha Hb E.
  destruct (two_paragraphs_lookup _ _ _ Ha) as [(-> & ->) | (-> & ->)];
    destruct (two_paragraphs_lookup _ _ _ Hb) as [(-> & ->) | (-> & ->)];
    try reflexivity; discriminate.
Defined.

Lemma paragraph_ids_old (custom : option string) (a : addr) (r : TextRegionType) (i : nat) :
  two_paragraphs custom !! a = Some r -> region_id r <> address_region_id i.
Proof.
  intros Ha. destruct (two_paragraphs_lookup _ _ _ Ha) as [(-> & ->) | (-> & ->)];
    discriminate.
Defined.


End ReadingOrderRuns.

Section SubsumptionRuns.
Import BoxWorld Collaborators BoxLaws Scenarios.

Lemma subsumed_once_witness :
  exists st,
    process_page (two_paragraphs zip_custom) page12 (blank_image 12 8) [cover] = Ok st /\
    NoDup (oldregions st) /\
    (forall a, a ∈ oldregions st -> a ∈ get_AllRegions (two_paragraphs zip_custom) page12) /\
    (forall a, a ∈ page_TextRegion page12 -> a ∉ oldregions st ->
               a ∈ page_TextRegion (page st)).
Proof.
  eexists.
  match goal with
  | |- ?A /\ _ => assert (H : A) by (vm_compute; reflexivity)
  end.
  split; [exact H|].
  exact (subsumed_once_others_kept _ _ _ _ _ H).
Defined.

Lemma paragraphs_on_page (a : addr) :
  a ∈ page_TextRegion page12 ->
  exists r, two_paragraphs zip_custom !! a = Some r /\ parent_object_ r = OfPage.
Proof.
  intros Ha. simpl in Ha. apply elem_of_cons in Ha. destruct Ha as [->|Ha].
  - eexists. split; reflexivity.
  - apply list_elem_of_singleton in Ha. subst a. eexists. split; reflexivity.
Defined.

Lemma page_regions_witness :
  exists st,
    process_page (two_paragraphs zip_custom) page12 (blank_image 12 8) [cover] = Ok st /\
    NoDup (page_TextRegion (page st)) /\
    forall a, a ∈ page_TextRegion (page st) <->
              (a ∈ page_TextRegion page12 /\ a ∉ oldregions st) \/
              (two_paragraphs zip_custom !! a = None /\ is_Some (heap st !! a)).
Proof.
  eexists.
  match goal with
  | |- ?A /\ _ => assert (H : A) by (vm_compute; reflexivity)
  end.
  split; [exact H|].
  assert (Hnd : NoDup (page_TextRegion page12)).
  { apply (bool_decide_unpack _). vm_compute. exact I. }
  exact (page_regions_after_pass _ _ _ _ _ Hnd paragraphs_on_page H).
Defined.

Lemma untouched_witness :
  exists st,
    process_page nested page12 (blank_image 12 8) [right_cover] = Ok st /\
    attached nested page12 (oldregions st) 5%nat /\
    ((forall a r, nested !! a = Some r -> a ∉ oldregions st ->
        exists r',
          heap st !! a = Some r' /\
          r' = set_region_TextRegion (region_TextRegion r') r /\
          (forall b, b ∈ region_TextRegion r' -> b ∈ region_TextRegion r) /\
          (forall b, b ∈ region_TextRegion r -> b ∉ oldregions st ->
                     b ∈ region_TextRegion r')) /\
     (forall a, attached nested page12 (oldregions st) a ->
                attached (heap st) (page st) [] a)) /\
    attached (heap st) (page st) [] 5%nat.
Proof.
  eexists.
  match goal with
  | |- ?A /\ _ => assert (H : A) by (vm_compute; reflexivity)
  end.
  split; [exact H|].
  match goal with
  | |- ?A /\ _ => assert (H5 : A)
  end.
  { apply (attached_region _ _ _ 1%nat (set_region_TextRegion [5%nat] (paragraph1 zip_custom))).
    - apply attached_page; [apply elem_of_cons; auto|].
      apply (bool_decide_unpack _). vm_compute. exact I.
    - reflexivity.
    - apply list_elem_of_singleton. reflexivity.
    - apply (bool_decide_unpack _). vm_compute. exact I. }
  split; [exact H5|].
  pose proof (unsubsumed_regions_untouched _ _ _ _ _ H) as T.
  split; [exact T | exact (proj2 T _ H5)].
Defined.

(** The second paragraph is subsumed; its region stays an object of the
    document's heap, with the paragraph as its parent, while the paragraph
    is no longer in the page's list. *)
Example subregion_of_subsumed_region :
  exists st,
    process_page nested page12 (blank_image 12 8) [right_cover] = Ok st /\
    oldregions st = [2%nat] /\ page_TextRegion (page st) = [1; 7]%nat /\
    (region_TextRegion <$> heap st !! 1%nat) = Some [5%nat] /\
    (parent_object_ <$> heap st !! 6%nat) = Some (OfRegion 2) /\
    (region_TextRegion <$> heap st !! 7%nat) = Some [].
Proof.
  eexists. split; [vm_compute; reflexivity|].
  repeat split; vm_compute; reflexivity.
Qed.

(** The detection over the first paragraph leaves the second one alone. *)
Example other_paragraph_untouched :
  exists st,
    process_page two_addresses page12 (blank_image 12 8) [left_cover] = Ok st /\
    oldregions st = [1%nat] /\ page_TextRegion (page st) = [2; 3]%nat /\
    heap st !! 2%nat = Some paragraph2_zip.
Proof.
  eexists. split; [vm_compute; reflexivity|].
  repeat split; vm_compute; reflexivity.
Qed.

Lemma nothing_subsumed_witness :
  exists st,
    process_page ∅ bare_page12 (blank_image 12 8) [cover] = Ok st /\
    (get_AllRegions ∅ bare_page12 = [] -> oldregions st = []) /\
    (oldregions st = [] ->
     heap st = ∅ /\ page st = bare_page12 /\
     ro_regionRef st = ro_regionRef (initial_state ∅ bare_page12) /\
     reading_order st = reading_order (initial_state ∅ bare_page12)).
Proof.
  eexists.
  match goal with
  | |- ?A /\ _ => assert (H : A) by (vm_compute; reflexivity)
  end.
  split; [exact H|].
  exact (nothing_subsumed_nothing_changed _ _ _ _ _ H).
Defined.

Lemma added_attributes_witness :
  exists st' r,
    process_instance (blank_image 12 8) [] (best_scores [cover] []) paragraph_polygons
                     (initial_state (two_paragraphs zip_custom) page12) (0%nat, cover)
    = Ok st' /\
    heap st' !! 3%nat = Some r /\
    heap (initial_state (two_paragraphs zip_custom) page12) !! 3%nat = None /\
    region_id r = address_region_id 0 /\ region_type r = "other" /\
    conf (region_Coords r) = Some (score cover) /\
    (exists cat name,
       instance_category [] (best_scores [cover] []) 0 cover = Ok (Some cat) /\
       category_name cat = Ok name /\
       region_custom r = Some ("subtype:" +:+ name)) /\
    region_TextRegion r = [] /\
    exists older, page_TextRegion (page st') = older ++ [3%nat].
Proof.
  eexists. eexists.
  match goal with
  | |- ?A /\ ?B /\ ?C /\ _ =>
      assert (H : A) by (vm_compute; reflexivity);
      assert (Hr : B) by (vm_compute; reflexivity);
      assert (Hn : C) by (vm_compute; reflexivity)
  end.
  split; [exact H|]. split; [exact Hr|]. split; [exact Hn|].
  exact (added_region_attributes _ _ _ _ _ _ _ _ _ _ H Hr Hn).
Defined.

Lemma added_lines_witness :
  exists st' r,
    process_instance (blank_image 12 8) [] (best_scores [cover] []) paragraph_polygons
                     (initial_state (two_paragraphs zip_custom) page12) (0%nat, cover)
    = Ok st' /\
    heap st' !! 3%nat = Some r /\
    heap (initial_state (two_paragraphs zip_custom) page12) !! 3%nat = None /\
    exists subsumed,
      oldregions st'
      = oldregions (initial_state (two_paragraphs zip_custom) page12) ++ subsumed /\
      region_TextLine r
      = stolen_lines (address_region_id 0) 0
          (flat_map (lines_of (heap (initial_state (two_paragraphs zip_custom) page12)))
                    subsumed) /\
      existsb is_address_line (region_TextLine r) = true /\
      region_TextEquiv r = joined_text r.
Proof.
  eexists. eexists.
  match goal with
  | |- ?A /\ ?B /\ ?C /\ _ =>
      assert (H : A) by (vm_compute; reflexivity);
      assert (Hr : B) by (vm_compute; reflexivity);
      assert (Hn : C) by (vm_compute; reflexivity)
  end.
  split; [exact H|]. split; [exact Hr|]. split; [exact Hn|].
  exact (added_region_lines _ _ _ _ _ _ _ _ _ _ H Hr Hn).
Defined.

(** The region that is added for [cover]: the three lines of the two
    paragraphs under their new names, and their texts joined. *)
Example added_region_of_cover :
  exists st,
    process_page (two_paragraphs zip_custom) page12 (blank_image 12 8) [cover] = Ok st /\
    (map line_id ∘ region_TextLine <$> heap st !! 3%nat)
    = Some [ "addressregion01_line00"; "addressregion01_line01";
             "addressregion01_line02" ] /\
    (region_custom <$> heap st !! 3%nat) = Some (Some "subtype:address-rcpt") /\
    (map Unicode ∘ region_TextEquiv <$> heap st !! 3%nat)
    = Some [ "r1_l1" +:+ newline +:+ "r1_l2" +:+ newline +:+ "r2_l1" ].
Proof.
  eexists. split; [vm_compute; reflexivity|].
  repeat split; vm_compute; reflexivity.
Qed.

Lemma ids_distinct_witness :
  exists st,
    process_page two_addresses page12 (blank_image 12 8) [left_cover; right_cover]
    = Ok st /\
    forall a b ra rb,
      heap st !! a = Some ra -> heap st !! b = Some rb ->
      two_addresses !! a = None -> two_addresses !! b = None ->
      region_id ra = region_id rb -> a = b.
Proof.
  eexists.
  match goal with
  | |- ?A /\ _ => assert (H : A) by (vm_compute; reflexivity)
  end.
  split; [exact H|].
  exact (added_region_ids_distinct _ _ _ _ _ H).
Defined.

(** Each detection replaces the paragraph under it. *)
Example two_regions_added :
  exists st,
    process_page two_addresses page12 (blank_image 12 8) [left_cover; right_cover]
    = Ok st /\
    page_TextRegion (page st) = [3; 4]%nat /\
    oldregions st = [1; 2]%nat /\
    (region_id <$> heap st !! 3%nat) = Some "addressregion01" /\
    (region_custom <$> heap st !! 3%nat) = Some (Some "subtype:address-rcpt") /\
    (region_id <$> heap st !! 4%nat) = Some "addressregion02" /\
    (region_custom <$> heap st !! 4%nat) = Some (Some "subtype:address-sndr") /\
    (map line_id ∘ region_TextLine <$> heap st !! 4%nat)
    = Some [ "addressregion02_line00" ] /\
    map_to_list (reading_order st)
    = [ ("addressregion01", 1%nat); ("addressregion02", 2%nat) ].
Proof.
  eexists. split; [vm_compute; reflexivity|].
  repeat split; vm_compute; reflexivity.
Qed.

Lemma demotion_witness :
  exists allregions st1 st2 r,
    suppression recipients = Ok [] /\
    map_result (region_polygon_of two_addresses) (get_AllRegions two_addresses page12)
    = Ok allregions /\
    foldM (process_instance (blank_image 12 8) [] (best_scores recipients []) allregions)
          [ (0%nat, left_cover) ] (initial_state two_addresses page12) = Ok st1 /\
    process_instance (blank_image 12 8) [] (best_scores recipients []) allregions st1
                     (1%nat, weaker_right) = Ok st2 /\
    heap st2 !! 4%nat = Some r /\ heap st1 !! 4%nat = None /\
    region_id r = address_region_id 1 /\ region_type r = "other" /\
    region_custom r = Some "subtype:address-contact" /\
    conf (region_Coords r) = Some (score weaker_right) /\
    exists older, page_TextRegion (page st2) = older ++ [4%nat].
Proof.
  do 4 eexists.
  split; [vm_compute; reflexivity|].
  split; [vm_compute; reflexivity|].
  split; [vm_compute; reflexivity|].
  match goal with
  | |- ?A /\ _ => assert (H : A) by (vm_compute; reflexivity)
  end.
  split; [exact H|].
  match goal with
  | |- ?A /\ _ => assert (Hr : A) by (vm_compute; reflexivity)
  end.
  split; [exact Hr|].
  match goal with
  | |- ?A /\ _ => assert (Hn : A) by (vm_compute; reflexivity)
  end.
  split; [exact Hn|].
  assert (Hi : recipients !! 1%nat = Some weaker_right) by reflexivity.
  assert (Hw : 1%nat ∉ @nil nat) by apply not_elem_of_nil.
  refine (proj2 (proj2 (proj2 (proj2
            (proj1 (demotion_below_page_maximum recipients [] 1 _ Hi Hw) _ _))
            (blank_image 12 8) _ _)) _ _ _ H Hr Hn).
  - left; reflexivity.
  - exists 0%nat, left_cover.
    split; [reflexivity|]. split; [apply not_elem_of_nil|]. split; reflexivity.
Defined.

(** Over the page: the weaker recipient detection leaves a region labelled
    ['address-contact'], the stronger one a region labelled
    ['address-rcpt']. *)
Example demoted_region_on_page :
  exists st,
    process_page two_addresses page12 (blank_image 12 8) recipients = Ok st /\
    page_TextRegion (page st) = [3; 4]%nat /\
    (region_custom <$> heap st !! 3%nat) = Some (Some "subtype:address-rcpt") /\
    (region_custom <$> heap st !! 4%nat) = Some (Some "subtype:address-contact") /\
    (region_id <$> heap st !! 4%nat) = Some "addressregion02".
Proof.
  eexists. split; [vm_compute; reflexivity|].
  repeat split; vm_compute; reflexivity.
Qed.

Lemma paragraphs_listed (a : addr) :
  a ∈ page_TextRegion page12 -> is_Some (two_addresses !! a).
Proof.
  intros Ha. simpl in Ha. apply elem_of_cons in Ha. destruct Ha as [->|Ha].
  - eexists. reflexivity.
  - apply list_elem_of_singleton in Ha. subst a. eexists. reflexivity.
Defined.

Lemma numbering_witness :
  exists st,
    suppression duplicate_between = Ok [1%nat] /\
    process_page two_addresses page12 (blank_image 12 8) duplicate_between = Ok st /\
    (forall a, two_addresses !! a = None -> is_Some (heap st !! a) ->
               a ∈ added_regions two_addresses st) /\
    (exists added,
       added `sublist_of`
         filter (fun i => i ∉ [1%nat]) (seq 0 (length duplicate_between)) /\
       Forall2 (fun a i => region_id <$> heap st !! a = Some (address_region_id i))
               (added_regions two_addresses st) added) /\
    (forall k i,
       filter (fun i => i ∉ [1%nat]) (seq 0 (length duplicate_between)) !! k = Some i ->
       address_region_id i
       = "addressregion" +:+
           fmt_02d (k + 1 + length (filter (fun j => j ∈ [1%nat]) (seq 0 i))) /\
       parse_number (fmt_02d (i + 1)) = Some (i + 1)%nat /\
       ((i + 1 < 10)%nat ->
        fmt_02d (i + 1) = "0" +:+ NilEmpty.string_of_uint (Nat.to_uint (i + 1))) /\
       (forall j, address_region_id i = address_region_id j -> i = j)).
Proof.
  eexists.
  assert (Hw : suppression duplicate_between = Ok [1%nat]) by (vm_compute; reflexivity).
  split; [exact Hw|].
  match goal with
  | |- ?A /\ _ => assert (H : A) by (vm_compute; reflexivity)
  end.
  split; [exact H|].
  exact (region_id_numbering _ _ _ _ _ _ paragraphs_listed Hw H).
Defined.

(** C9, as stated, fails when a suppressed instance precedes a survivor:
    the second detection repeats the first with a lower score and is
    suppressed, and the regions of the two survivors are numbered 01 and
    03. *)
Lemma survivor_numbers_skip :
  exists st,
    suppression duplicate_between = Ok [1%nat] /\
    process_page two_addresses page12 (blank_image 12 8) duplicate_between = Ok st /\
    filter (fun i => i ∉ [1%nat]) (seq 0 (length duplicate_between)) = [0; 2]%nat /\
    added_regions two_addresses st = [3; 4]%nat /\
    (region_id <$> heap st !! 3%nat) = Some "addressregion01" /\
    (region_id <$> heap st !! 4%nat) = Some "addressregion03".
Proof.
  eexists. split; [vm_compute; reflexivity|]. split; [vm_compute; reflexivity|].
  repeat split; vm_compute; reflexivity.
Qed.

(** The numbers say nothing about the ids the document has already: on a
    page that was processed before, the new region gets the id of the
    paragraph it does not replace. *)
Example new_id_repeats_document_id :
  exists st,
    process_page processed_before page12 (blank_image 12 8) [left_cover] = Ok st /\
    page_TextRegion (page st) = [2; 3]%nat /\
    (region_id <$> heap st !! 2%nat) = Some "addressregion01" /\
    (region_id <$> heap st !! 3%nat) = Some "addressregion01".
Proof.
  eexists. split; [vm_compute; reflexivity|].
  repeat split; vm_compute; reflexivity.
Qed.

End SubsumptionRuns.

Section DetectionRuns.
Import BoxWorld Collaborators BoxLaws Scenarios.

Lemma outscored_witness :
  suppression triplets = Ok [0; 0; 1]%nat /\
  (forall k, k ∈ [0; 0; 1]%nat ->
     exists m pk pm,
       m <> k /\ triplets !! k = Some pk /\ triplets !! m = Some pm /\
       overlapping (mask pk) (mask pm) = Ok true /\
       (score pk <= score pm)%Q /\ ((k < m)%nat -> (score pk < score pm)%Q)).
Proof.
  assert (H : suppression triplets = Ok [0; 0; 1]%nat) by (vm_compute; reflexivity).
  split; [exact H|].
  exact (proj1 (suppressed_is_outscored triplets _ H)).
Defined.

(** Two detections without a single mask pixel stop the pass. *)
Example empty_masks_raise :
  suppression [ mkInstance 1 (9 # 10) [] [ [ false; false ] ];
                mkInstance 2 (8 # 10) [] [ [ false; false ] ] ]
  = Raise ZeroDivisionError.
Proof. reflexivity. Qed.

Lemma small_area_witness :
  exists rotated,
    make_valid_rotate
      (py_range 1 (Z.of_nat (length (exterior_coords (mkPolygon flat_ring))) - 1))
      (mkPolygon flat_ring) = Ok rotated /\
    (area rotated < 2)%Q /\
    make_valid (mkPolygon flat_ring) = Ok rotated /\
    is_valid rotated = false.
Proof.
  eexists.
  match goal with
  | |- ?A /\ ?B /\ _ =>
      assert (H : A) by (vm_compute; reflexivity);
      assert (Ha : B) by (vm_compute; reflexivity)
  end.
  split; [exact H|]. split; [exact Ha|].
  split; [exact (make_valid_small_area _ _ H Ha) | vm_compute; reflexivity].
Defined.

Lemma rotation_witness :
  exists rotated,
    make_valid_rotate [1; 2; 3]%Z (mkPolygon flat_ring) = Ok rotated /\
    (forall c, c ∈ exterior_coords rotated <-> c ∈ exterior_coords (mkPolygon flat_ring)) /\
    (length (exterior_coords (mkPolygon flat_ring)) <= length (exterior_coords rotated)
     <= length (exterior_coords (mkPolygon flat_ring)) + length [1; 2; 3]%Z)%nat.
Proof.
  eexists.
  match goal with
  | |- ?A /\ _ => assert (H : A) by (vm_compute; reflexivity)
  end.
  split; [exact H|].
  exact (rotation_keeps_vertices _ _ _ H).
Defined.

Lemma foreground_witness :
  two_level (np_uint 8) white_image /\
  foreground (np_uint 8) white_image
  = Ok (map (map (fun v => (v =? 0)%Z)) white_image) /\
  foreground (np_uint 8) white_image
  = Ok [ [ false; false; false ]; [ false; false; false ] ].
Proof.
  assert (H : two_level (np_uint 8) white_image).
  { repeat constructor; right; reflexivity. }
  split; [exact H|]. split; [|reflexivity].
  apply (foreground_of_two_levels (np_uint 8) white_image); [simpl; lia | exact H | discriminate].
Defined.

Lemma valid_ring_witness :
  coords_in (page_box (imageWidth page20) (imageHeight page20)) half_pixel_ring /\
  open_ring half_pixel_ring /\
  polygon_for_parent half_pixel_ring (ParentPage page20) = Ok (Some half_pixel_ring).
Proof.
  assert (Hin : coords_in (page_box (imageWidth page20) (imageHeight page20))
                          half_pixel_ring).
  { repeat constructor; simpl; unfold Qle; simpl; lia. }
  assert (Hopen : open_ring half_pixel_ring).
  { split; [simpl; lia|]. right. intros c0 Hc0. injection Hc0 as <-. reflexivity. }
  assert (Hvalid : forall p, Polygon_of half_pixel_ring = Ok p -> is_valid p = true).
  { intros p Hp. vm_compute in Hp. injection Hp as <-. reflexivity. }
  split; [exact Hin|]. split; [exact Hopen|].
  apply (clip_keeps_valid_ring_in_page page20 half_pixel_ring);
    [reflexivity | simpl; lia | simpl; lia | exact Hin | exact Hopen | exact Hvalid].
Defined.

Lemma address_line_witness :
  is_address_line (line "r1_l2" "3,4 3,5 4,5 4,4" zip_custom) = true /\
  exists rest,
    line_custom (line "r1_l2" "3,4 3,5 4,5 4,4" zip_custom)
    = Some ("subtype: ADDRESS_" +:+ rest) /\
    text_class (line "r1_l2" "3,4 3,5 4,5 4,4" zip_custom)
    = "ADDRESS_" +:+ str_replace rest "subtype: " "" /\
    (line_fill (line "r1_l2" "3,4 3,5 4,5 4,4" zip_custom) = 200%Z <->
     str_replace rest "subtype: " "" = "NONE").
Proof.
  assert (H : is_address_line (line "r1_l2" "3,4 3,5 4,5 4,4" zip_custom) = true)
    by reflexivity.
  split; [exact H|].
  exact (address_line_marked _ H).
Defined.

(** The two tests differ on a line whose class is [ADDRESS_NONE]: it
    counts as an address line for the acceptance of a region, and is
    drawn as a line without address content. *)
Example address_none_line :
  is_address_line (line "l" "0,0 0,1 1,1" (Some "subtype: ADDRESS_NONE")) = true /\
  line_fill (line "l" "0,0 0,1 1,1" (Some "subtype: ADDRESS_NONE")) = 200%Z /\
  is_address_line (line "l" "0,0 0,1 1,1" (Some "ADDRESS_ZIP")) = false /\
  line_fill (line "l" "0,0 0,1 1,1" (Some "ADDRESS_ZIP")) = 255%Z.
Proof. repeat split; reflexivity. Qed.

Lemma rounded_clip_witness :
  exists q,
    clipped sliver page20 = Ok (Some q) /\
    clearance_below_1 q = true /\
    (3 <= length (exterior_coords q))%nat /\
    (forall c, c ∈ exterior_coords q -> np_round (snd c) = 1%Z) /\
    exists pf,
      polygon_for_parent sliver (ParentPage page20)
      = Ok (Some (drop_last (exterior_coords pf))) /\
      (forall c, c ∈ exterior_coords pf <-> c ∈ round_coords (exterior_coords q)) /\
      on_line 1 (exterior_coords pf) /\
      is_valid pf = false.
Proof.
  eexists.
  match goal with
  | |- ?A /\ _ => assert (Hq : A) by (vm_compute; reflexivity)
  end.
  split; [exact Hq|].
  match goal with
  | |- ?A /\ _ => assert (Hclear : A) by (vm_compute; reflexivity)
  end.
  split; [exact Hclear|].
  match goal with
  | |- ?A /\ _ => assert (Hlen : A) by (simpl; lia)
  end.
  split; [exact Hlen|].
  match goal with
  | |- ?A /\ _ => assert (Hround : A)
  end.
  { intros c Hc. cbn [exterior_coords] in Hc.
    repeat (apply elem_of_cons in Hc; destruct Hc as [->|Hc]; [vm_compute; reflexivity|]).
    inversion Hc. }
  split; [exact Hround|].
  exact (rounded_clip_returned_invalid sliver page20 _ 1 eq_refl Hq Hclear Hlen Hround).
Defined.

(** The sliver is clipped to a rectangle 0.4 pixels high, its vertices
    are rounded onto the line y = 1, no rotation repairs that, and the
    flat ring is returned. *)
Example clip_collapses_under_rounding :
  polygon_for_parent sliver (ParentPage page20) = Ok (Some flat_ring) /\
  Forall (fun c => snd c == 1)%Q flat_ring /\
  Polygon_of flat_ring = Ok (mkPolygon flat_ring) /\
  is_valid (mkPolygon flat_ring) = false.
Proof.
  split; [vm_compute; reflexivity|].
  split; [repeat constructor|].
  split; reflexivity.
Qed.

End DetectionRuns.
